(** * MusicPlayer: playlist and playback state of [hello.py]

    A shallow embedding of the [MusicPlayer] class: the playlist, the
    current track index, the metadata cache, the playback session and the
    calls made to the audio mixer.  Methods are computations in a state and
    exception monad over the player object; the file system, the tag
    reader, the random generator and the mixer's acceptance of a file are
    read from a [world] record.

    The widgets the methods read back or compute texts for are part of
    the object: the rows and the selection of the list, the time scrubber
    and the two time labels.  Not modelled: widget construction and
    styling, the album-art bitmap, the visualizer bars, the debug output
    and the track label; the now-playing labels are modelled apart from
    the object.  Calls into Tk are taken not to raise.  Strings are byte
    strings; [str.lower] and the character classes of the regular
    expression are modelled on ASCII.  A Python [int] is an integer and a
    Python [float] an IEEE 754 binary64 number, with the arithmetic of
    CPython; the volume alone is kept as a rational. *)

From Stdlib Require Import String Ascii ZArith QArith.
From Stdlib Require SpecFloat.
From stdpp Require Import base tactics option list sorting strings pretty gmap.

Local Open Scope string_scope.
Local Open Scope list_scope.
Local Open Scope Z_scope.

(** ** Python strings and paths *)

Definition lower_char (c : ascii) : ascii :=
  let n := nat_of_ascii c in
  if ((65 <=? n) && (n <=? 90))%nat then ascii_of_nat (n + 32) else c.

(** [str.lower]. *)
Fixpoint lower (s : string) : string :=
  match s with
  | EmptyString => EmptyString
  | String c s' => String (lower_char c) (lower s')
  end.

(** [str.rfind] for a single character: index of its last occurrence. *)
Fixpoint rfind (c : ascii) (s : string) : option nat :=
  match s with
  | EmptyString => None
  | String a s' =>
      match rfind c s' with
      | Some i => Some (S i)
      | None => if Ascii.eqb a c then Some 0%nat else None
      end
  end.

(** [Path(p).name] for a path that ends in a file name: the text after the
    last separator. *)
Definition path_name (p : string) : string :=
  match rfind "/" p with
  | Some i => substring (S i) (String.length p - S i) p
  | None => p
  end.

(** [Path(p).suffix]: from the last dot of the name, unless that dot is the
    first or the last character. *)
Definition path_suffix (p : string) : string :=
  let name := path_name p in
  match rfind "." name with
  | Some i =>
      if ((0 <? i) && (i <? String.length name - 1))%nat
      then substring i (String.length name - i) name
      else EmptyString
  | None => EmptyString
  end.

(** [Path(p).stem]: the name without its suffix. *)
Definition path_stem (p : string) : string :=
  let name := path_name p in
  match rfind "." name with
  | Some i =>
      if ((0 <? i) && (i <? String.length name - 1))%nat
      then substring 0 i name
      else name
  | None => name
  end.

Fixpoint ends_with (c : ascii) (s : string) : bool :=
  match s with
  | EmptyString => false
  | String a EmptyString => Ascii.eqb a c
  | String _ s' => ends_with c s'
  end.

Definition starts_with (c : ascii) (s : string) : bool :=
  match s with
  | String a _ => Ascii.eqb a c
  | EmptyString => false
  end.

(** [os.path.join(a, b)] (POSIX). *)
Definition os_path_join (a b : string) : string :=
  if starts_with "/" b then b
  else if String.eqb a EmptyString || ends_with "/" a then a +:+ b
  else a +:+ "/" +:+ b.

Definition audio_extensions : list string :=
  [".mp3"; ".wav"; ".ogg"; ".flac"; ".m4a"; ".aac"; ".wma"].

(** Python's [<] on a pair of strings: the first components decide unless
    they are equal. *)
Definition pair_ltb (a b : string * string) : bool :=
  if String.eqb a.1 b.1 then String.ltb a.2 b.2 else String.ltb a.1 b.1.

(** [l[i]] with Python's negative indices; [None] stands for IndexError. *)
Definition py_index {A} (l : list A) (i : Z) : option A :=
  if 0 <=? i then l !! Z.to_nat i
  else if - Z.of_nat (length l) <=? i then l !! Z.to_nat (Z.of_nat (length l) + i)
  else None.

(** [list.index(x)]: position of the first element equal to [x]. *)
Fixpoint list_index (x : string) (l : list string) : option nat :=
  match l with
  | [] => None
  | y :: l' => if String.eqb y x then Some 0%nat else S <$> list_index x l'
  end.

(** [list.sort(key=...)] is a stable sort that compares keys with [<] only.
    The keys are computed first, one per element; the decorated list is
    then sorted by stable insertion. *)
Fixpoint sort_insert {K A} (ltb : K → K → bool) (x : K * A) (l : list (K * A))
    : list (K * A) :=
  match l with
  | [] => [x]
  | y :: l' => if ltb y.1 x.1 then y :: sort_insert ltb x l' else x :: y :: l'
  end.

Fixpoint stable_sort {K A} (ltb : K → K → bool) (l : list (K * A)) : list (K * A) :=
  match l with
  | [] => []
  | x :: l' => sort_insert ltb x (stable_sort ltb l')
  end.

(** The decimal text of a number padded to two characters, as the format
    [02d] does: a zero in front when the text is shorter. *)
Definition zero_pad_2 (n : Z) : string :=
  let d := pretty n in
  if (String.length d <? 2)%nat then "0" +:+ d else d.

Definition is_digit (c : ascii) : bool :=
  let n := nat_of_ascii c in ((48 <=? n) && (n <=? 57))%nat.

(** The class [[\.\-\s]] on ASCII: dot, dash and white space. *)
Definition is_numbering_sep (c : ascii) : bool :=
  let n := nat_of_ascii c in
  ((n =? 46) || (n =? 45) || (n =? 32) || ((9 <=? n) && (n <=? 13))
   || ((28 <=? n) && (n <=? 31)))%nat.

Fixpoint drop_while (p : ascii → bool) (s : string) : string :=
  match s with
  | EmptyString => EmptyString
  | String c s' => if p c then drop_while p s' else s
  end.

(** [re.sub(r'^\d+[\.\-\s]+', '', name)]: a leading run of digits followed
    by a run of separators is removed; without both runs the name stays. *)
Definition strip_numbering (name : string) : string :=
  let after_digits := drop_while is_digit name in
  if (String.length after_digits <? String.length name)%nat then
    let after_seps := drop_while is_numbering_sep after_digits in
    if (String.length after_seps <? String.length after_digits)%nat
    then after_seps
    else name
  else name.

(** ** Exceptions *)

Inductive exn :=
  | IndexError | ValueError | OverflowError | MutagenError | PygameError.

Inductive outcome (A : Type) :=
  | Returned (a : A)
  | Raised (e : exn).
Arguments Returned {A} a.
Arguments Raised {A} e.

(** Expressions that return or raise without touching the object. *)
#[global] Instance outcome_ret : MRet outcome := λ A a, Returned a.

#[global] Instance outcome_bind : MBind outcome := λ A B f o,
  match o with
  | Returned a => f a
  | Raised e => Raised e
  end.

(** ** Python numbers *)

(** A Python [float]: a binary64 number, of 53 bits of precision. *)
Definition float : Type := SpecFloat.spec_float.

Definition float_add : float → float → float := SpecFloat.SFadd 53 1024.
Definition float_sub : float → float → float := SpecFloat.SFsub 53 1024.
Definition float_div : float → float → float := SpecFloat.SFdiv 53 1024.
Definition float_ltb : float → float → bool := SpecFloat.SFltb.

(** The float nearest to an integer, ties to even. *)
Definition float_of_Z (z : Z) : float :=
  SpecFloat.binary_normalize 53 1024 z 0 false.

(** The conversion of an [int] operand of a float operation: too large an
    integer raises. *)
Definition float_of_int (z : Z) : outcome float :=
  match float_of_Z z with
  | SpecFloat.S754_infinity _ => Raised OverflowError
  | f => Returned f
  end.

(** C's truth value of a double: anything but a zero. *)
Definition float_nonzero (x : float) : bool :=
  match x with
  | SpecFloat.S754_zero _ => false
  | _ => true
  end.

Definition float_sign (x : float) : bool :=
  match x with
  | SpecFloat.S754_zero s | SpecFloat.S754_infinity s
  | SpecFloat.S754_finite s _ _ => s
  | SpecFloat.S754_nan => false
  end.

(** C's [fmod(x, n)] for a positive integer [n]: the remainder of the
    division that truncates, exact, with the sign of [x]. *)
Definition float_fmod (x : float) (n : Z) : float :=
  match x with
  | SpecFloat.S754_nan | SpecFloat.S754_infinity _ => SpecFloat.S754_nan
  | SpecFloat.S754_zero _ => x
  | SpecFloat.S754_finite s m e =>
      let r := if 0 <=? e then (Z.pos m * 2 ^ e) `mod` n
               else Z.pos m `mod` (n * 2 ^ (- e)) in
      if r =? 0 then SpecFloat.S754_zero s
      else SpecFloat.binary_normalize 53 1024 (if s then - r else r)
             (if 0 <=? e then 0 else e) false
  end.

(** C's [floor]. *)
Definition float_floor (x : float) : float :=
  match x with
  | SpecFloat.S754_finite s m e =>
      if 0 <=? e then x
      else
        let q := Z.pos m `div` 2 ^ (- e) in
        let r := Z.pos m `mod` 2 ^ (- e) in
        if s then float_of_Z (- (if r =? 0 then q else q + 1))
        else float_of_Z q
  | _ => x
  end.

(** The test [(wx < 0) != (mod < 0)] of CPython's [float_rem] and
    [_float_div_mod]. *)
Definition signs_differ (wx m : float) : bool :=
  negb (Bool.eqb (float_ltb wx (SpecFloat.S754_zero false))
          (float_ltb m (SpecFloat.S754_zero false))).

(** [x % n] for a float [x] and a positive [int] [n], as CPython's
    [float_rem] computes it. *)
Definition float_mod (vx : float) (n : Z) : float :=
  let wx := float_of_Z n in
  let m := float_fmod vx n in
  if float_nonzero m then
    if signs_differ wx m then float_add m wx else m
  else SpecFloat.S754_zero (float_sign wx).

(** [x // n] for a float [x] and a positive [int] [n], as CPython's
    [_float_div_mod] computes it. *)
Definition float_floordiv (vx : float) (n : Z) : float :=
  let wx := float_of_Z n in
  let m := float_fmod vx n in
  let div := float_div (float_sub vx m) wx in
  let div :=
    if float_nonzero m && signs_differ wx m
    then float_sub div (float_of_Z 1) else div in
  if float_nonzero div then
    let fl := float_floor div in
    if float_ltb (float_div (float_of_Z 1) (float_of_Z 2)) (float_sub div fl)
    then float_add fl (float_of_Z 1) else fl
  else SpecFloat.S754_zero (float_sign (float_div vx wx)).

(** [int(x)] for a float: the integer part; a NaN and the infinities
    raise. *)
Definition int_of_float (x : float) : outcome Z :=
  match x with
  | SpecFloat.S754_nan => Raised ValueError
  | SpecFloat.S754_infinity _ => Raised OverflowError
  | SpecFloat.S754_zero _ => Returned 0
  | SpecFloat.S754_finite s m e =>
      let a := if 0 <=? e then Z.pos m * 2 ^ e else Z.pos m `div` 2 ^ (- e) in
      Returned (if s then - a else a)
  end.

(** A number as the methods meet it: an [int] or a [float]. *)
Inductive pynum :=
  | PyInt (z : Z)
  | PyFloat (f : float).

(** [x // n] and [x % n] for a positive [int] [n], and [int(x)]. *)
Definition py_floordiv (x : pynum) (n : Z) : pynum :=
  match x with
  | PyInt z => PyInt (z `div` n)
  | PyFloat f => PyFloat (float_floordiv f n)
  end.

Definition py_mod (x : pynum) (n : Z) : pynum :=
  match x with
  | PyInt z => PyInt (z `mod` n)
  | PyFloat f => PyFloat (float_mod f n)
  end.

Definition py_int (x : pynum) : outcome Z :=
  match x with
  | PyInt z => Returned z
  | PyFloat f => int_of_float f
  end.

(** [format_time]: it reads no attribute of the object.  The minutes are
    taken to be within the interpreter's limit on the decimal digits of an
    [int], which no float exceeds. *)
Definition format_time (seconds : pynum) : outcome string :=
  minutes ← py_int (py_floordiv seconds 60);
  secs ← py_int (py_mod seconds 60);
  mret (pretty minutes +:+ ":" +:+ zero_pad_2 secs).

(** ** The player object *)

Record track_info := TrackInfo {
  title : string;
  artist : string;
  album : string;
}.

(** A tag value as the code observes it: [tag_str] is [str(v)] and
    [tag_first] is [str(v[0])], [None] when [v[0]] raises. *)
Record tag_value := TagValue {
  tag_str : string;
  tag_first : option string;
}.

(** What [MutagenFile(path)] does: raise, return [None], or return a file
    object whose [tags] attribute is [None] or a mapping. *)
Inductive mutagen_result :=
  | MutagenRaises
  | MutagenNone
  | MutagenAudio (tags : option (gmap string tag_value)).

(** [pygame.mixer.music], from the pygame documentation: one stream, loaded
    from a file, started at an offset, paused or not.  [get_busy] is false
    while the stream is paused. *)
Record mixer := Mixer {
  loaded : option string;
  playing : bool;
  mpaused : bool;
  started_at : Z;
  mvolume : Q;
}.

(** The playlist [tk.Listbox]: the texts of its rows and the indices of the
    selected rows, as [curselection] returns them. *)
Record listbox := Listbox {
  rows : list string;
  selected : list nat;
}.

(** The time scrubber [tk.Scale] as the methods drive it: its option [to]
    and the value last given to [set].  What the widget shows of it is
    Tk's, which clamps the value to the range and rounds it to the
    resolution; the value after a drag is the [seek_position] of
    [end_seek]. *)
Record scale := Scale {
  scale_to : pynum;
  scale_value : pynum;
}.

(** [track_length] is the attribute [_track_length], [None] until it is
    assigned. *)
Record player := Player {
  playlist : list string;
  current_track_index : Z;
  track_metadata : gmap string track_info;
  is_paused : bool;
  volume : Q;
  shuffle_mode : bool;
  is_seeking : bool;
  seek_offset : Z;
  track_length : option pynum;
  sort_dropdown : string;
  playlist_box : listbox;
  music : mixer;
  poll_timers : nat;
  time_scrubber : scale;
  current_time_label : string;
  total_time_label : string;
}.

(** The environment of one callback.  [music_get_pos] is what
    [pygame.mixer.music.get_pos()] returns, in milliseconds;
    [sound_get_length] is [None] when [pygame.mixer.Sound] raises. *)
Record world := World {
  MutagenFile : string → mutagen_result;
  os_walk : string → list (string * list string);
  random_randint : Z → Z → Z;
  music_load_ok : string → bool;
  music_play_ok : string → Z → bool;
  sound_get_length : string → option float;
  music_get_pos : Z;
}.

(** A method body: it runs on the player object and either returns or
    raises, leaving the object as it was at that point. *)
Definition M (A : Type) : Type := player → outcome A * player.

#[global] Instance M_ret : MRet M := λ A a s, (Returned a, s).

#[global] Instance M_bind : MBind M := λ A B f m s,
  match m s with
  | (Returned a, s') => f a s'
  | (Raised e, s') => (Raised e, s')
  end.

Definition raise {A} (e : exn) : M A := λ s, (Raised e, s).

(** [try: m except: h] *)
Definition try_except {A} (m : M A) (h : exn → M A) : M A := λ s,
  match m s with
  | (Raised e, s') => h e s'
  | r => r
  end.

Definition gets {A} (f : player → A) : M A := λ s, (Returned (f s), s).

Definition modify (f : player → player) : M unit := λ s, (Returned tt, f s).

(** An expression evaluated inside a method. *)
Definition lift {A} (o : outcome A) : M A := λ s, (o, s).

Definition from_option {A} (e : exn) (o : option A) : M A :=
  match o with
  | Some a => mret a
  | None => raise e
  end.

(** [for x in l: body x] with a local accumulator. *)
Fixpoint for_fold {A B} (body : B → A → M B) (acc : B) (l : list A) : M B :=
  match l with
  | [] => mret acc
  | x :: l' => acc' ← body acc x; for_fold body acc' l'
  end.

(** [[f(x) for x in l]], left to right. *)
Fixpoint map_M {A B} (f : A → M B) (l : list A) : M (list B) :=
  match l with
  | [] => mret []
  | x :: l' => y ← f x; ys ← map_M f l'; mret (y :: ys)
  end.

(** *** Attribute assignment *)

Definition set_playlist (v : list string) (s : player) : player := {|
  playlist := v;
  current_track_index := current_track_index s;
  track_metadata := track_metadata s;
  is_paused := is_paused s;
  volume := volume s;
  shuffle_mode := shuffle_mode s;
  is_seeking := is_seeking s;
  seek_offset := seek_offset s;
  track_length := track_length s;
  sort_dropdown := sort_dropdown s;
  playlist_box := playlist_box s;
  music := music s;
  poll_timers := poll_timers s;
  time_scrubber := time_scrubber s;
  current_time_label := current_time_label s;
  total_time_label := total_time_label s;
|}.

Definition set_current_track_index (v : Z) (s : player) : player := {|
  playlist := playlist s;
  current_track_index := v;
  track_metadata := track_metadata s;
  is_paused := is_paused s;
  volume := volume s;
  shuffle_mode := shuffle_mode s;
  is_seeking := is_seeking s;
  seek_offset := seek_offset s;
  track_length := track_length s;
  sort_dropdown := sort_dropdown s;
  playlist_box := playlist_box s;
  music := music s;
  poll_timers := poll_timers s;
  time_scrubber := time_scrubber s;
  current_time_label := current_time_label s;
  total_time_label := total_time_label s;
|}.

Definition set_track_metadata (v : gmap string track_info) (s : player) : player := {|
  playlist := playlist s;
  current_track_index := current_track_index s;
  track_metadata := v;
  is_paused := is_paused s;
  volume := volume s;
  shuffle_mode := shuffle_mode s;
  is_seeking := is_seeking s;
  seek_offset := seek_offset s;
  track_length := track_length s;
  sort_dropdown := sort_dropdown s;
  playlist_box := playlist_box s;
  music := music s;
  poll_timers := poll_timers s;
  time_scrubber := time_scrubber s;
  current_time_label := current_time_label s;
  total_time_label := total_time_label s;
|}.

Definition set_is_paused (v : bool) (s : player) : player := {|
  playlist := playlist s;
  current_track_index := current_track_index s;
  track_metadata := track_metadata s;
  is_paused := v;
  volume := volume s;
  shuffle_mode := shuffle_mode s;
  is_seeking := is_seeking s;
  seek_offset := seek_offset s;
  track_length := track_length s;
  sort_dropdown := sort_dropdown s;
  playlist_box := playlist_box s;
  music := music s;
  poll_timers := poll_timers s;
  time_scrubber := time_scrubber s;
  current_time_label := current_time_label s;
  total_time_label := total_time_label s;
|}.

Definition set_volume (v : Q) (s : player) : player := {|
  playlist := playlist s;
  current_track_index := current_track_index s;
  track_metadata := track_metadata s;
  is_paused := is_paused s;
  volume := v;
  shuffle_mode := shuffle_mode s;
  is_seeking := is_seeking s;
  seek_offset := seek_offset s;
  track_length := track_length s;
  sort_dropdown := sort_dropdown s;
  playlist_box := playlist_box s;
  music := music s;
  poll_timers := poll_timers s;
  time_scrubber := time_scrubber s;
  current_time_label := current_time_label s;
  total_time_label := total_time_label s;
|}.

Definition set_shuffle_mode (v : bool) (s : player) : player := {|
  playlist := playlist s;
  current_track_index := current_track_index s;
  track_metadata := track_metadata s;
  is_paused := is_paused s;
  volume := volume s;
  shuffle_mode := v;
  is_seeking := is_seeking s;
  seek_offset := seek_offset s;
  track_length := track_length s;
  sort_dropdown := sort_dropdown s;
  playlist_box := playlist_box s;
  music := music s;
  poll_timers := poll_timers s;
  time_scrubber := time_scrubber s;
  current_time_label := current_time_label s;
  total_time_label := total_time_label s;
|}.

Definition set_is_seeking (v : bool) (s : player) : player := {|
  playlist := playlist s;
  current_track_index := current_track_index s;
  track_metadata := track_metadata s;
  is_paused := is_paused s;
  volume := volume s;
  shuffle_mode := shuffle_mode s;
  is_seeking := v;
  seek_offset := seek_offset s;
  track_length := track_length s;
  sort_dropdown := sort_dropdown s;
  playlist_box := playlist_box s;
  music := music s;
  poll_timers := poll_timers s;
  time_scrubber := time_scrubber s;
  current_time_label := current_time_label s;
  total_time_label := total_time_label s;
|}.

Definition set_seek_offset (v : Z) (s : player) : player := {|
  playlist := playlist s;
  current_track_index := current_track_index s;
  track_metadata := track_metadata s;
  is_paused := is_paused s;
  volume := volume s;
  shuffle_mode := shuffle_mode s;
  is_seeking := is_seeking s;
  seek_offset := v;
  track_length := track_length s;
  sort_dropdown := sort_dropdown s;
  playlist_box := playlist_box s;
  music := music s;
  poll_timers := poll_timers s;
  time_scrubber := time_scrubber s;
  current_time_label := current_time_label s;
  total_time_label := total_time_label s;
|}.

Definition set_track_length (v : option pynum) (s : player) : player := {|
  playlist := playlist s;
  current_track_index := current_track_index s;
  track_metadata := track_metadata s;
  is_paused := is_paused s;
  volume := volume s;
  shuffle_mode := shuffle_mode s;
  is_seeking := is_seeking s;
  seek_offset := seek_offset s;
  track_length := v;
  sort_dropdown := sort_dropdown s;
  playlist_box := playlist_box s;
  music := music s;
  poll_timers := poll_timers s;
  time_scrubber := time_scrubber s;
  current_time_label := current_time_label s;
  total_time_label := total_time_label s;
|}.

Definition set_sort_dropdown (v : string) (s : player) : player := {|
  playlist := playlist s;
  current_track_index := current_track_index s;
  track_metadata := track_metadata s;
  is_paused := is_paused s;
  volume := volume s;
  shuffle_mode := shuffle_mode s;
  is_seeking := is_seeking s;
  seek_offset := seek_offset s;
  track_length := track_length s;
  sort_dropdown := v;
  playlist_box := playlist_box s;
  music := music s;
  poll_timers := poll_timers s;
  time_scrubber := time_scrubber s;
  current_time_label := current_time_label s;
  total_time_label := total_time_label s;
|}.

Definition set_playlist_box (v : listbox) (s : player) : player := {|
  playlist := playlist s;
  current_track_index := current_track_index s;
  track_metadata := track_metadata s;
  is_paused := is_paused s;
  volume := volume s;
  shuffle_mode := shuffle_mode s;
  is_seeking := is_seeking s;
  seek_offset := seek_offset s;
  track_length := track_length s;
  sort_dropdown := sort_dropdown s;
  playlist_box := v;
  music := music s;
  poll_timers := poll_timers s;
  time_scrubber := time_scrubber s;
  current_time_label := current_time_label s;
  total_time_label := total_time_label s;
|}.

Definition set_music (v : mixer) (s : player) : player := {|
  playlist := playlist s;
  current_track_index := current_track_index s;
  track_metadata := track_metadata s;
  is_paused := is_paused s;
  volume := volume s;
  shuffle_mode := shuffle_mode s;
  is_seeking := is_seeking s;
  seek_offset := seek_offset s;
  track_length := track_length s;
  sort_dropdown := sort_dropdown s;
  playlist_box := playlist_box s;
  music := v;
  poll_timers := poll_timers s;
  time_scrubber := time_scrubber s;
  current_time_label := current_time_label s;
  total_time_label := total_time_label s;
|}.

Definition set_poll_timers (v : nat) (s : player) : player := {|
  playlist := playlist s;
  current_track_index := current_track_index s;
  track_metadata := track_metadata s;
  is_paused := is_paused s;
  volume := volume s;
  shuffle_mode := shuffle_mode s;
  is_seeking := is_seeking s;
  seek_offset := seek_offset s;
  track_length := track_length s;
  sort_dropdown := sort_dropdown s;
  playlist_box := playlist_box s;
  music := music s;
  poll_timers := v;
  time_scrubber := time_scrubber s;
  current_time_label := current_time_label s;
  total_time_label := total_time_label s;
|}.

Definition set_time_scrubber (v : scale) (s : player) : player := {|
  playlist := playlist s;
  current_track_index := current_track_index s;
  track_metadata := track_metadata s;
  is_paused := is_paused s;
  volume := volume s;
  shuffle_mode := shuffle_mode s;
  is_seeking := is_seeking s;
  seek_offset := seek_offset s;
  track_length := track_length s;
  sort_dropdown := sort_dropdown s;
  playlist_box := playlist_box s;
  music := music s;
  poll_timers := poll_timers s;
  time_scrubber := v;
  current_time_label := current_time_label s;
  total_time_label := total_time_label s;
|}.

Definition set_current_time_label (v : string) (s : player) : player := {|
  playlist := playlist s;
  current_track_index := current_track_index s;
  track_metadata := track_metadata s;
  is_paused := is_paused s;
  volume := volume s;
  shuffle_mode := shuffle_mode s;
  is_seeking := is_seeking s;
  seek_offset := seek_offset s;
  track_length := track_length s;
  sort_dropdown := sort_dropdown s;
  playlist_box := playlist_box s;
  music := music s;
  poll_timers := poll_timers s;
  time_scrubber := time_scrubber s;
  current_time_label := v;
  total_time_label := total_time_label s;
|}.

Definition set_total_time_label (v : string) (s : player) : player := {|
  playlist := playlist s;
  current_track_index := current_track_index s;
  track_metadata := track_metadata s;
  is_paused := is_paused s;
  volume := volume s;
  shuffle_mode := shuffle_mode s;
  is_seeking := is_seeking s;
  seek_offset := seek_offset s;
  track_length := track_length s;
  sort_dropdown := sort_dropdown s;
  playlist_box := playlist_box s;
  music := music s;
  poll_timers := poll_timers s;
  time_scrubber := time_scrubber s;
  current_time_label := current_time_label s;
  total_time_label := v;
|}.

(** *** The mixer and the listbox *)

Definition music_stop : M unit :=
  modify (λ s, let m := music s in
    set_music (Mixer (loaded m) false false (started_at m) (mvolume m)) s).

Definition music_pause : M unit :=
  modify (λ s, let m := music s in
    if playing m
    then set_music (Mixer (loaded m) true true (started_at m) (mvolume m)) s
    else s).

Definition music_unpause : M unit :=
  modify (λ s, let m := music s in
    set_music (Mixer (loaded m) (playing m) false (started_at m) (mvolume m)) s).

Definition music_get_busy : M bool :=
  gets (λ s, playing (music s) && negb (mpaused (music s))).

Definition music_set_volume (v : Q) : M unit :=
  modify (λ s, let m := music s in
    set_music (Mixer (loaded m) (playing m) (mpaused m) (started_at m) v) s).

Definition lb_delete_all : M unit :=
  modify (set_playlist_box (Listbox [] [])).

Definition lb_insert_end (row : string) : M unit :=
  modify (λ s, let b := playlist_box s in
    set_playlist_box (Listbox (rows b ++ [row]) (selected b)) s).

Definition lb_select_clear_all : M unit :=
  modify (λ s, set_playlist_box (Listbox (rows (playlist_box s)) []) s).

Fixpoint add_selected (i : nat) (sel : list nat) : list nat :=
  match sel with
  | [] => [i]
  | j :: sel' =>
      if (i <? j)%nat then i :: sel
      else if (i =? j)%nat then sel
      else j :: add_selected i sel'
  end.

(** [select_set(i)]: an index outside the rows selects nothing. *)
Definition lb_select_set (i : Z) : M unit :=
  modify (λ s, let b := playlist_box s in
    if (0 <=? i) && (i <? Z.of_nat (length (rows b)))
    then set_playlist_box (Listbox (rows b) (add_selected (Z.to_nat i) (selected b))) s
    else s).

(** [time_scrubber.config(to=v)] and [time_scrubber.set(v)]. *)
Definition scrubber_config_to (v : pynum) : M unit :=
  modify (λ s, set_time_scrubber (Scale v (scale_value (time_scrubber s))) s).

Definition scrubber_set (v : pynum) : M unit :=
  modify (λ s, set_time_scrubber (Scale (scale_to (time_scrubber s)) v) s).

(** [root.after(1000, self.check_track_end)]: one more pending poll. *)
Definition root_after_check_track_end : M unit :=
  modify (λ s, set_poll_timers (S (poll_timers s)) s).

Definition truthy_tags (t : option (gmap string tag_value))
    : option (gmap string tag_value) :=
  match t with
  | Some tags => if decide (tags = ∅) then None else Some tags
  | None => None
  end.

(** The chain [if frame in tags: str(tags[frame]) elif plain in tags:
    str(tags[plain][0])], with the value the variable had before. *)
Definition read_tag (tags : gmap string tag_value) (frame plain default : string)
    : M string :=
  match tags !! frame with
  | Some v => mret (tag_str v)
  | None =>
      match tags !! plain with
      | Some v => from_option IndexError (tag_first v)
      | None => mret default
      end
  end.

Definition fallback_info (file_path : string) : track_info :=
  TrackInfo (path_stem file_path) "Unknown Artist" "Unknown Album".

Definition cache_info (file_path : string) (info : track_info) : M unit :=
  modify (λ s, set_track_metadata (<[file_path := info]> (track_metadata s)) s).

Section Methods.
Context (w : world).

Definition music_load (track : string) : M unit :=
  if music_load_ok w track
  then modify (λ s, let m := music s in
         set_music (Mixer (Some track) false false (started_at m) (mvolume m)) s)
  else raise PygameError.

Definition music_play (start : Z) : M unit :=
  m ← gets music;
  match loaded m with
  | None => raise PygameError
  | Some track =>
      if music_play_ok w track start
      then modify (set_music (Mixer (Some track) true false start (mvolume m)))
      else raise PygameError
  end.

Definition call_MutagenFile (file_path : string)
    : M (option (option (gmap string tag_value))) :=
  match MutagenFile w file_path with
  | MutagenRaises => raise MutagenError
  | MutagenNone => mret None
  | MutagenAudio tags => mret (Some tags)
  end.

(** The body of the [try] in [get_track_info], up to the cache store. *)
Definition extract_track_info (file_path : string) : M track_info :=
  audio ← call_MutagenFile file_path;
  let title := path_stem file_path in
  let artist := "Unknown Artist" in
  let album := "Unknown Album" in
  match audio ≫= truthy_tags with
  | Some tags =>
      title ← read_tag tags "TIT2" "title" title;
      artist ← read_tag tags "TPE1" "artist" artist;
      album ← read_tag tags "TALB" "album" album;
      mret (TrackInfo title artist album)
  | None => mret (TrackInfo title artist album)
  end.

Definition get_track_info (file_path : string) : M track_info :=
  cache ← gets track_metadata;
  match cache !! file_path with
  | Some info => mret info
  | None =>
      try_except
        (info ← extract_track_info file_path;
         cache_info file_path info;;
         mret info)
        (λ _, let info := fallback_info file_path in
              cache_info file_path info;;
              mret info)
  end.

(** [self.playlist.sort(key=key)] *)
Definition playlist_sort {K} (ltb : K → K → bool) (key : string → M K) : M unit :=
  pl ← gets playlist;
  keys ← map_M key pl;
  modify (set_playlist (stable_sort ltb (zip keys pl)).*2).

(** The loop runs over [enumerate(self.playlist, 1)]: the accumulator is
    the number of the next row. *)
Definition update_playlist_display : M unit :=
  lb_delete_all;;
  pl ← gets playlist;
  for_fold (λ i track,
      let track_name := path_stem track in
      let track_name := strip_numbering track_name in
      lb_insert_end (pretty i +:+ ". " +:+ track_name);;
      mret (S i)) 1%nat pl;;
  idx ← gets current_track_index;
  pl ← gets playlist;
  if (0 <=? idx) && (idx <? Z.of_nat (length pl))
  then lb_select_set idx
  else mret tt.

(** The block "Update the current track index" of [sort_playlist]. *)
Definition relocate_current (current_track : option string) : M unit :=
  match current_track with
  | None => mret tt
  | Some EmptyString => mret tt
  | Some track =>
      try_except
        (pl ← gets playlist;
         i ← from_option ValueError (list_index track pl);
         modify (set_current_track_index (Z.of_nat i)))
        (λ e, match e with
              | ValueError => modify (set_current_track_index (-1))
              | _ => raise e
              end)
  end.

Definition sort_playlist : M unit :=
  pl ← gets playlist;
  match pl with
  | [] => mret tt
  | _ =>
      sort_by ← gets sort_dropdown;
      idx ← gets current_track_index;
      current_track ←
        (if (0 <=? idx) && (idx <? Z.of_nat (length pl))
         then t ← from_option IndexError (py_index pl idx); mret (Some t)
         else mret None);
      (if String.eqb sort_by "Name" then
         playlist_sort String.ltb
           (λ x, i ← get_track_info x; mret (lower (title i)))
       else if String.eqb sort_by "Artist" then
         playlist_sort pair_ltb
           (λ x, a ← get_track_info x; t ← get_track_info x;
                 mret (lower (artist a), lower (title t)))
       else if String.eqb sort_by "Album" then
         playlist_sort pair_ltb
           (λ x, a ← get_track_info x; t ← get_track_info x;
                 mret (lower (album a), lower (title t)))
       else mret tt);;
      relocate_current current_track;;
      update_playlist_display
  end.

(** The test and the append in the inner loop of [scan_directory];
    [files_found] is the loop's counter. *)
Definition scan_file (root : string) (files_found : nat) (file : string) : M nat :=
  if bool_decide (lower (path_suffix file) ∈ audio_extensions) then
    let file_path := os_path_join root file in
    pl ← gets playlist;
    if bool_decide (file_path ∈ pl) then mret files_found
    else
      modify (λ s, set_playlist (playlist s ++ [file_path]) s);;
      mret (S files_found)
  else mret files_found.

(** The two nested loops over [os.walk(directory)]; returns [files_found]. *)
Definition scan_tree (tree : list (string * list string)) : M nat :=
  for_fold (λ found entry, for_fold (scan_file entry.1) found entry.2) 0%nat tree.

(** [directory] is what the directory dialog returned, empty when the
    dialog was cancelled. *)
Definition scan_directory (directory : string) : M unit :=
  if String.eqb directory EmptyString then mret tt
  else
    scan_tree (os_walk w directory);;
    pl ← gets playlist;
    match pl with
    | [] => mret tt
    | _ => sort_playlist
    end.

Definition stop_music : M unit :=
  music_stop;;
  modify (set_is_paused false).

Definition clear_playlist : M unit :=
  stop_music;;
  modify (set_playlist []);;
  modify (set_track_metadata ∅);;
  lb_delete_all;;
  modify (set_current_track_index (-1)).

(** [load_album_art] and [load_track_metadata] only change labels and catch
    their own exceptions; they leave the modelled state alone. *)
Definition play_music : M unit :=
  pl ← gets playlist;
  match pl with
  | [] => mret tt
  | _ =>
      paused ← gets is_paused;
      (if paused : bool then
         music_unpause;;
         modify (set_is_paused false)
       else
         idx ← gets current_track_index;
         (if idx =? -1 then modify (set_current_track_index 0) else mret tt);;
         idx ← gets current_track_index;
         track ← from_option IndexError (py_index pl idx);
         music_load track;;
         music_play 0;;
         modify (set_seek_offset 0);;
         modify (set_track_length
                   (Some match sound_get_length w track with
                         | Some len => PyFloat len
                         | None => PyInt 100
                         end));;
         lb_select_clear_all;;
         idx ← gets current_track_index;
         lb_select_set idx);;
      root_after_check_track_end
  end.

Definition pause_music : M unit :=
  busy ← music_get_busy;
  if busy : bool then
    music_pause;;
    modify (set_is_paused true)
  else mret tt.

Definition toggle_shuffle : M unit :=
  modify (λ s, set_shuffle_mode (negb (shuffle_mode s)) s).

Definition next_track : M unit :=
  pl ← gets playlist;
  match pl with
  | [] => mret tt
  | _ =>
      shuffle ← gets shuffle_mode;
      (if shuffle : bool then
         modify (set_current_track_index
                   (random_randint w 0 (Z.of_nat (length pl) - 1)))
       else
         modify (λ s, set_current_track_index
                        ((current_track_index s + 1) `mod` Z.of_nat (length pl)) s));;
      stop_music;;
      play_music
  end.

Definition previous_track : M unit :=
  pl ← gets playlist;
  match pl with
  | [] => mret tt
  | _ =>
      modify (λ s, set_current_track_index
                     ((current_track_index s - 1) `mod` Z.of_nat (length pl)) s);;
      stop_music;;
      play_music
  end.

Definition play_selected_track : M unit :=
  selection ← gets (λ s, selected (playlist_box s));
  match selection with
  | [] => mret tt
  | i :: _ =>
      modify (set_current_track_index (Z.of_nat i));;
      stop_music;;
      play_music
  end.

(** [value] is [float(value)], the slider's position. *)
Definition change_volume (value : Q) : M unit :=
  modify (set_volume (value / (100 # 1))%Q);;
  v ← gets volume;
  music_set_volume v.

Definition start_seek : M unit :=
  modify (set_is_seeking true).

(** [seek_position] is what [self.time_scrubber.get()] returns. *)
Definition end_seek (seek_position : Z) : M unit :=
  pl ← gets playlist;
  idx ← gets current_track_index;
  match pl with
  | [] => modify (set_is_seeking false)
  | _ =>
      if idx =? -1 then modify (set_is_seeking false)
      else
        modify (set_seek_offset seek_position);;
        was_paused ← gets is_paused;
        music_stop;;
        track ← from_option IndexError (py_index pl idx);
        music_load track;;
        music_play seek_position;;
        (if was_paused : bool then music_pause else mret tt);;
        modify (set_is_seeking false)
  end.

(** [(pygame.mixer.music.get_pos() / 1000.0) + self.seek_offset]: both
    [int]s are converted to floats. *)
Definition current_position (seek_offset : Z) : outcome float :=
  pos ← float_of_int (music_get_pos w);
  thousand ← float_of_int 1000;
  let seconds := float_div pos thousand in
  offset ← float_of_int seek_offset;
  mret (float_add seconds offset).

(** The body of the [try] in [check_track_end]. *)
Definition refresh_time : M unit :=
  offset ← gets seek_offset;
  current_pos ← lift (current_position offset);
  len ← gets track_length;
  match len with
  | Some track_length =>
      scrubber_config_to track_length;;
      scrubber_set (PyFloat current_pos);;
      text ← lift (format_time (PyFloat current_pos));
      modify (set_current_time_label text);;
      text ← lift (format_time track_length);
      modify (set_total_time_label text)
  | None => mret tt
  end.

Definition check_track_end : M unit :=
  busy ← music_get_busy;
  paused ← gets is_paused;
  if (busy : bool) || paused then
    seeking ← gets is_seeking;
    (if seeking : bool then mret tt
     else try_except refresh_time (λ _, mret tt));;
    root_after_check_track_end
  else
    pl ← gets playlist;
    idx ← gets current_track_index;
    match pl with
    | [] =>
        scrubber_set (PyInt 0);;
        modify (set_current_time_label "0:00")
    | _ =>
        if idx =? -1 then
          scrubber_set (PyInt 0);;
          modify (set_current_time_label "0:00")
        else next_track
    end.

End Methods.

(** [_init_variables], with the widgets as [create_widgets] leaves them. *)
Definition init_player : player := {|
  playlist := [];
  current_track_index := -1;
  track_metadata := ∅;
  is_paused := false;
  volume := (7 # 10)%Q;
  shuffle_mode := false;
  is_seeking := false;
  seek_offset := 0;
  track_length := None;
  sort_dropdown := "Name";
  playlist_box := Listbox [] [];
  music := Mixer None false false 0 (7 # 10)%Q;
  poll_timers := 0%nat;
  time_scrubber := Scale (PyInt 100) (PyInt 0);
  current_time_label := "0:00";
  total_time_label := "0:00";
|}.

(** ** Events of the main loop *)

Inductive event :=
  | EvScanDirectory (directory : string)
  | EvSortSelected (choice : string)
  | EvClearPlaylist
  | EvPlay
  | EvPause
  | EvStop
  | EvPrevious
  | EvNext
  | EvToggleShuffle
  | EvClickRow (row : nat)
  | EvDoubleClick
  | EvVolume (value : Q)
  | EvScrubberPress
  | EvScrubberRelease (position : Z)
  | EvPollTimer
  | EvTrackFinished.

(** The callback bound to each event.  Choosing a combobox entry stores it
    before [<<ComboboxSelected>>] fires; a click selects the row under the
    pointer; a due poll timer is consumed when it fires; the mixer stops by
    itself at the end of the stream. *)
Definition callback (w : world) (e : event) : M unit :=
  match e with
  | EvScanDirectory directory => scan_directory w directory
  | EvSortSelected choice =>
      modify (set_sort_dropdown choice);;
      sort_playlist w
  | EvClearPlaylist => clear_playlist
  | EvPlay => play_music w
  | EvPause => pause_music
  | EvStop => stop_music
  | EvPrevious => previous_track w
  | EvNext => next_track w
  | EvToggleShuffle => toggle_shuffle
  | EvClickRow row =>
      modify (λ s, let b := playlist_box s in
        if (row <? length (rows b))%nat
        then set_playlist_box (Listbox (rows b) [row]) s
        else s)
  | EvDoubleClick => play_selected_track w
  | EvVolume value => change_volume value
  | EvScrubberPress => start_seek
  | EvScrubberRelease position => end_seek w position
  | EvPollTimer =>
      modify (λ s, set_poll_timers (pred (poll_timers s)) s);;
      check_track_end w
  | EvTrackFinished =>
      modify (λ s, let m := music s in
        if playing m && negb (mpaused m)
        then set_music (Mixer (loaded m) false false (started_at m) (mvolume m)) s
        else s)
  end.

(** Tk reports an exception raised by a callback and goes on with the
    object as the callback left it. *)
Definition run {A} (m : M A) (s : player) : player := (m s).2.

Definition dispatch (w : world) (e : event) (s : player) : player :=
  run (callback w e) s.

(** [random.randint(a, b)] returns an integer of [[a, b]]. *)
Definition world_ok (w : world) : Prop :=
  ∀ a b, a ≤ b → a ≤ random_randint w a b ≤ b.

Definition enabled (s : player) (e : event) : Prop :=
  match e with
  | EvPollTimer => (0 < poll_timers s)%nat
  | _ => True
  end.

Inductive reachable : player → Prop :=
  | reachable_init : reachable init_player
  | reachable_step w e s :
      reachable s → world_ok w → enabled s e → reachable (dispatch w e s).

(** ** Definitions used to state the properties *)

(** A strict weak order given by its [<] test. *)
Class StrictWeak {K} (lessb : K → K → bool) : Prop := {
  lessb_asym : ∀ a b, lessb a b = true → lessb b a = false;
  lessb_negtrans : ∀ a b c, lessb b a = false → lessb c b = false → lessb c a = false;
}.

(** Order of two decorated elements: the second key is not below the first. *)
Definition key_le {K A} (lessb : K → K → bool) : relation (K * A) :=
  λ a b, lessb b.1 a.1 = false.

Definition decorate {K} (f : string → K) : string → K * string := λ x, (f x, x).

(** What [list.sort(key=f)] leaves in the list when [f] is a function. *)
Definition sorted_by {K} (lessb : K → K → bool) (f : string → K) (l : list string)
    : list string :=
  (stable_sort lessb (zip (f <$> l) l)).*2.

(** The metadata [get_track_info] answers with for [file_path] when the
    cache is [cache]: the cached entry, else what extraction gives, else
    the fallback. *)
Definition known_info (w : world) (cache : gmap string track_info)
    (file_path : string) : track_info :=
  match cache !! file_path with
  | Some info => info
  | None =>
      match (extract_track_info w file_path init_player).1 with
      | Returned info => info
      | Raised _ => fallback_info file_path
      end
  end.

(** The cache after looking up every path of [l] in turn. *)
Definition cache_all (w : world) (l : list string) (cache : gmap string track_info)
    : gmap string track_info :=
  foldl (λ c p, <[p := known_info w c p]> c) cache l.

(** The three sort keys, as functions of the metadata. *)
Definition name_key (i : track_info) : string := lower (title i).
Definition artist_key (i : track_info) : string * string :=
  (lower (artist i), lower (title i)).
Definition album_key (i : track_info) : string * string :=
  (lower (album i), lower (title i)).

(** [l'] is [l] stably sorted by [key] under [lessb]: a permutation, in
    non-decreasing key order, that keeps the elements of equal key in the
    order they had. *)
Definition stable_sorted {K} `{EqDecision K} (lessb : K → K → bool)
    (key : string → K) (l l' : list string) : Prop :=
  l' ≡ₚ l
  ∧ StronglySorted (λ a b, lessb (key b) (key a) = false) l'
  ∧ ∀ k, filter (λ x, key x = k) l' = filter (λ x, key x = k) l.

Definition valid_index (s : player) : Prop :=
  current_track_index s = -1
  ∨ 0 ≤ current_track_index s < Z.of_nat (length (playlist s)).

(** The listbox has a row per track, the selection is inside it, and the
    paths are non-empty and pairwise different. *)
Definition consistent (s : player) : Prop :=
  valid_index s
  ∧ length (rows (playlist_box s)) = length (playlist s)
  ∧ Forall (λ i, (i < length (playlist s))%nat) (selected (playlist_box s))
  ∧ Forall (λ p, p ≠ EmptyString) (playlist s)
  ∧ NoDup (playlist s).

(** The rows [update_playlist_display] inserts for the tracks [pl], the
    first of them numbered [i]. *)
Fixpoint shown_rows (i : nat) (pl : list string) : list string :=
  match pl with
  | [] => []
  | track :: pl' =>
      (pretty i +:+ ". " +:+ strip_numbering (path_stem track))
      :: shown_rows (S i) pl'
  end.

(** The listbox after [update_playlist_display]. *)
Definition shown (s : player) : listbox :=
  Listbox (shown_rows 1 (playlist s))
    (if (0 <=? current_track_index s)
        && (current_track_index s <? Z.of_nat (length (playlist s)))
     then [Z.to_nat (current_track_index s)] else []).

(** A computation that neither reads nor changes the player. *)
Definition pure_M {A} (m : M A) : Prop := ∃ o, ∀ s, m s = (o, s).

(** A key computation that reads the metadata of its argument and stores
    it, as the three [lambda]s of [sort_playlist] do. *)
Definition reads_key {K} (w : world) (key : string → M K) (f : track_info → K)
    : Prop :=
  ∀ p s, key p s
         = (Returned (f (known_info w (track_metadata s) p)),
            set_track_metadata
              (<[p := known_info w (track_metadata s) p]> (track_metadata s)) s).

(** [wp m Q s]: running [m] on [s] ends, by return or by exception, with an
    outcome and an object that satisfy [Q]. *)
Definition wp {A} (m : M A) (Q : outcome A → player → Prop) (s : player) : Prop :=
  Q (m s).1 (m s).2.

(** The object with [sc] on the time scrubber and [cur] and [tot] on the
    two time labels. *)
Definition time_shown (sc : scale) (cur tot : string) (s : player) : player :=
  set_time_scrubber sc (set_current_time_label cur (set_total_time_label tot s)).

(** [s'] is [s] but for the time scrubber and the two time labels. *)
Definition same_but_time (s s' : player) : Prop :=
  ∃ sc cur tot, s' = time_shown sc cur tot s.

(** The object after the first branch of [check_track_end] has refreshed
    the scrubber and the labels, or has left them while the user drags
    the scrubber. *)
Definition refreshed (w : world) (s : player) : player :=
  if is_seeking s then s
  else run (try_except (refresh_time w) (λ _, mret tt)) s.

(** The object after the reset that ends the second branch of
    [check_track_end]. *)
Definition zeroed (s : player) : player :=
  set_current_time_label "0:00"
    (set_time_scrubber (Scale (scale_to (time_scrubber s)) (PyInt 0)) s).

(** The local [current_track] of [sort_playlist]. *)
Definition current_track_of (s : player) : option string :=
  if (0 <=? current_track_index s)
     && (current_track_index s <? Z.of_nat (length (playlist s)))
  then py_index (playlist s) (current_track_index s)
  else None.

(** The object after the [sort] call of [sort_playlist]. *)
Definition after_sort (w : world) (s : player) : player :=
  let info := known_info w (track_metadata s) in
  let cached := set_track_metadata (cache_all w (playlist s) (track_metadata s)) s in
  if String.eqb (sort_dropdown s) "Name" then
    set_playlist (sorted_by String.ltb (λ p, name_key (info p)) (playlist s)) cached
  else if String.eqb (sort_dropdown s) "Artist" then
    set_playlist (sorted_by pair_ltb (λ p, artist_key (info p)) (playlist s)) cached
  else if String.eqb (sort_dropdown s) "Album" then
    set_playlist (sorted_by pair_ltb (λ p, album_key (info p)) (playlist s)) cached
  else s.

(** The object after the index update of [sort_playlist]. *)
Definition relocated (current_track : option string) (s : player) : player :=
  match current_track with
  | None => s
  | Some EmptyString => s
  | Some track =>
      set_current_track_index
        (match list_index track (playlist s) with
         | Some i => Z.of_nat i
         | None => -1
         end) s
  end.

(** The object after a whole [sort_playlist] on a non-empty playlist. *)
Definition sorted_player (w : world) (s : player) : player :=
  let s2 := relocated (current_track_of s) (after_sort w s) in
  set_playlist_box (shown s2) s2.

(** The paths one directory entry of the walk offers, in order. *)
Definition entry_paths (entry : string * list string) : list string :=
  os_path_join entry.1
    <$> filter (λ file, lower (path_suffix file) ∈ audio_extensions) entry.2.

Definition tree_paths (tree : list (string * list string)) : list string :=
  concat (entry_paths <$> tree).

(** [if p not in pl: pl.append(p)] *)
Definition add_path (pl : list string) (p : string) : list string :=
  if bool_decide (p ∈ pl) then pl else pl ++ [p].

Definition add_paths (pl : list string) (ps : list string) : list string :=
  foldl add_path pl ps.

(** The object after the loops of [scan_directory]. *)
Definition scanned (w : world) (directory : string) (s : player) : player :=
  set_playlist (add_paths (playlist s) (tree_paths (os_walk w directory))) s.

(** What the playback methods leave as it was. *)
Definition same_tracks (s s' : player) : Prop :=
  playlist s' = playlist s
  ∧ track_metadata s' = track_metadata s
  ∧ sort_dropdown s' = sort_dropdown s
  ∧ shuffle_mode s' = shuffle_mode s.

(** ** A two-track library, for examples *)

Definition demo_tags_a : gmap string tag_value :=
  {[ "TIT2" := TagValue "Zebra" None; "TPE1" := TagValue "Abba" None ]}.

Definition demo_tags_b : gmap string tag_value :=
  {[ "title" := TagValue "['Apple']" (Some "Apple");
     "artist" := TagValue "['Beatles']" (Some "Beatles") ]}.

Definition demo_world : world := {|
  MutagenFile := λ p,
    if String.eqb p "/m/A.mp3" then MutagenAudio (Some demo_tags_a)
    else if String.eqb p "/m/B.mp3" then MutagenAudio (Some demo_tags_b)
    else MutagenRaises;
  os_walk := λ d, [(d, ["A.mp3"; "B.mp3"; "cover.jpg"])];
  random_randint := λ a _, a;
  music_load_ok := λ _, true;
  music_play_ok := λ _ _, true;
  sound_get_length := λ _, None;
  music_get_pos := 1500;
|}.

(** Sort by artist, scan [/m], press Play: the playlist is [A, B] and A is
    the current track. *)
Definition demo_scanned : player :=
  dispatch demo_world (EvScanDirectory "/m")
    (dispatch demo_world (EvSortSelected "Artist") init_player).

Definition demo_playing : player := dispatch demo_world EvPlay demo_scanned.

Definition demo_paused : player := dispatch demo_world EvPause demo_playing.

(** ** The now-playing labels *)

(** The player object together with its three now-playing labels. *)
Record window := Window {
  app : player;
  np_title_label : string;
  np_artist_label : string;
  np_album_label : string;
}.

(** [load_track_metadata]: the statements of the [try] up to the labels
    are those of [get_track_info]'s; the handler shows the fallback. *)
Definition load_track_metadata (w : world) (file_path : string) (win : window)
    : outcome unit * window :=
  match extract_track_info w file_path (app win) with
  | (Returned info, p) =>
      (Returned tt, Window p (title info) (artist info) (album info))
  | (Raised _, p) =>
      (Returned tt,
       Window p (path_stem file_path) "Unknown Artist" "Unknown Album")
  end.

(** ** Definitions used to state the playback properties *)

(** The index [play_music] plays: the sentinel becomes 0. *)
Definition play_index (s : player) : Z :=
  if current_track_index s =? -1 then 0 else current_track_index s.

(** The object after the branch of [play_music] that loads [track], found
    at index [i], and starts it. *)
Definition started (w : world) (track : string) (i : Z) (s : player) : player :=
  let b := playlist_box s in
  let sel := if (0 <=? i) && (i <? Z.of_nat (length (rows b)))
             then [Z.to_nat i] else [] in
  set_poll_timers (S (poll_timers s))
    (set_playlist_box (Listbox (rows b) sel)
       (set_track_length
          (Some match sound_get_length w track with
                | Some len => PyFloat len
                | None => PyInt 100
                end)
          (set_seek_offset 0
             (set_music (Mixer (Some track) true false 0 (mvolume (music s)))
                (set_current_track_index i s))))).

(** The object after [stop_music]. *)
Definition stopped (s : player) : player :=
  set_is_paused false
    (set_music
       (Mixer (loaded (music s)) false false (started_at (music s))
          (mvolume (music s))) s).

(** [pygame.mixer.music.get_busy()] *)
Definition busy (s : player) : bool :=
  playing (music s) && negb (mpaused (music s)).

(** The demo library with a mixer that refuses every file. *)
Definition refusing_world : world := {|
  MutagenFile := MutagenFile demo_world;
  os_walk := os_walk demo_world;
  random_randint := random_randint demo_world;
  music_load_ok := λ _, false;
  music_play_ok := music_play_ok demo_world;
  sound_get_length := sound_get_length demo_world;
  music_get_pos := music_get_pos demo_world;
|}.

(** The index [next_track] moves to. *)
Definition next_index (w : world) (s : player) : Z :=
  if shuffle_mode s
  then random_randint w 0 (Z.of_nat (length (playlist s)) - 1)
  else (current_track_index s + 1) `mod` Z.of_nat (length (playlist s)).

(** The object on which [next_track], [previous_track] and
    [play_selected_track] call [play_music]: the index is set and the
    music is stopped. *)
Definition cued (i : Z) (s : player) : player :=
  stopped (set_current_track_index i s).

(** At most one more poll is pending in [s'] than in [s], and none
    fewer. *)
Definition timers_step (s s' : player) : Prop :=
  (poll_timers s ≤ poll_timers s' ≤ S (poll_timers s))%nat.

(** The mixer and the session agree: what is playing is the track at the
    current index, started at the seek offset; a paused mixer is known to
    the session as paused. *)
Definition session_ok (s : player) : Prop :=
  (playing (music s) = true →
   0 ≤ current_track_index s
   ∧ is_Some (loaded (music s))
   ∧ loaded (music s) = playlist s !! Z.to_nat (current_track_index s)
   ∧ started_at (music s) = seek_offset s)
  ∧ (mpaused (music s) = true → is_paused s = true ∧ playing (music s) = true).

(** The mixer refuses to load, or to start, some track of the playlist. *)
Definition mixer_refuses (w : world) (s : player) : Prop :=
  ∃ track, track ∈ playlist s
    ∧ (music_load_ok w track = false ∨ ∃ pos, music_play_ok w track pos = false).

(** A callback returned, or raised the mixer's error because the mixer
    refused a track of the playlist. *)
Definition returns_or_refused (w : world) (s : player) (o : outcome unit) : Prop :=
  o = Returned () ∨ (o = Raised PygameError ∧ mixer_refuses w s).

(** Every character of [s] passes the test [p]. *)
Fixpoint all_chars (p : ascii → bool) (s : string) : bool :=
  match s with
  | EmptyString => true
  | String c s' => p c && all_chars p s'
  end.

(** [name] starts with a match of [\d+[\.\-\s]+]: digits, then
    separators, then [rest]. *)
Definition numbered (name digits seps rest : string) : Prop :=
  name = digits +:+ seps +:+ rest
  ∧ digits ≠ EmptyString ∧ all_chars is_digit digits = true
  ∧ seps ≠ EmptyString ∧ all_chars is_numbering_sep seps = true.

(** The first character of [s] passes the test [p]. *)
Definition starts_with_class (p : ascii → bool) (s : string) : bool :=
  match s with
  | String c _ => p c
  | EmptyString => false
  end.

(** * Properties *)

(** ** Paths and sorting on examples *)

Example path_stem_ex : path_stem "/music/a/07. Song.MP3" = "07. Song".
Proof. reflexivity. Qed.

Example path_suffix_ex : lower (path_suffix "Song.tar.MP3") = ".mp3".
Proof. reflexivity. Qed.

Example path_suffix_hidden : path_suffix ".mp3" = EmptyString.
Proof. reflexivity. Qed.

Example os_path_join_ex : os_path_join "/music" "a.ogg" = "/music/a.ogg".
Proof. reflexivity. Qed.

Example stable_sort_ex :
  (stable_sort String.ltb [("b", 1%nat); ("a", 2%nat); ("b", 3%nat); ("a", 4%nat)]).*2
  = [2%nat; 4%nat; 1%nat; 3%nat].
Proof. reflexivity. Qed.


(** ** Order on keys *)

Lemma lessb_irrefl {K} (lessb : K → K → bool) `{!StrictWeak lessb} a : lessb a a = false.
Proof.
  destruct (lessb a a) eqn:E; [|done].
  by rewrite (lessb_asym _ _ E) in E.
Qed.

Lemma ascii_compare_trans a b c :
  Ascii.compare a b = Lt → Ascii.compare b c = Lt → Ascii.compare a c = Lt.
Proof.
  unfold Ascii.compare. rewrite !N.compare_lt_iff. lia.
Qed.

Lemma string_compare_refl s : String.compare s s = Eq.
Proof.
  induction s as [|a s IH]; simpl; [done|].
  unfold Ascii.compare. by rewrite N.compare_refl.
Qed.

Lemma string_compare_trans s1 : ∀ s2 s3,
  String.compare s1 s2 = Lt → String.compare s2 s3 = Lt → String.compare s1 s3 = Lt.
Proof.
  induction s1 as [|a s1 IH]; intros [|b s2] [|c s3]; simpl; try done.
  destruct (Ascii.compare a b) eqn:Eab; try done;
    destruct (Ascii.compare b c) eqn:Ebc; try done; intros H1 H2.
  - apply Ascii.compare_eq_iff in Eab as ->. rewrite Ebc. eauto.
  - apply Ascii.compare_eq_iff in Eab as ->. by rewrite Ebc.
  - apply Ascii.compare_eq_iff in Ebc as <-. by rewrite Eab.
  - by rewrite (ascii_compare_trans _ _ _ Eab Ebc).
Qed.

Lemma string_ltb_lt s1 s2 : String.ltb s1 s2 = true ↔ String.compare s1 s2 = Lt.
Proof. unfold String.ltb. by destruct (String.compare s1 s2). Qed.

Lemma string_ltb_ge s1 s2 :
  String.ltb s1 s2 = false ↔ s1 = s2 ∨ String.ltb s2 s1 = true.
Proof.
  unfold String.ltb. rewrite (String.compare_antisym s1 s2).
  destruct (String.compare s2 s1) eqn:E; simpl.
  - apply String.compare_eq_iff in E as ->. tauto.
  - tauto.
  - split; [done|]. intros [->|?]; [|done].
    by rewrite string_compare_refl in E.
Qed.

Lemma string_ltb_trans s1 s2 s3 :
  String.ltb s1 s2 = true → String.ltb s2 s3 = true → String.ltb s1 s3 = true.
Proof. rewrite !string_ltb_lt. apply string_compare_trans. Qed.

#[global] Instance string_ltb_strict_weak : StrictWeak String.ltb.
Proof.
  split.
  - intros a b Hab. apply string_ltb_ge. by right.
  - intros a b c [->|Hab]%string_ltb_ge [->|Hbc]%string_ltb_ge;
      apply string_ltb_ge; eauto using string_ltb_trans.
Qed.

Lemma string_ltb_total s1 s2 :
  String.ltb s1 s2 = false → String.ltb s2 s1 = false → s1 = s2.
Proof.
  intros [->|H]%string_ltb_ge; [done|]. congruence.
Qed.

#[global] Instance pair_ltb_strict_weak : StrictWeak pair_ltb.
Proof.
  assert (Heqb : ∀ a b : string, (a =? b)%string = true ↔ a = b)
    by (intros; apply String.eqb_eq).
  split.
  - intros [a1 a2] [b1 b2]. unfold pair_ltb; simpl.
    destruct (String.eqb_spec a1 b1) as [->|Hne].
    + rewrite String.eqb_refl. apply lessb_asym.
    + destruct (String.eqb_spec b1 a1) as [->|_]; [done|]. apply lessb_asym.
  - intros [a1 a2] [b1 b2] [c1 c2]. unfold pair_ltb; simpl.
    destruct (String.eqb_spec b1 a1) as [->|Hba].
    + destruct (String.eqb_spec c1 a1) as [->|Hca]; [apply lessb_negtrans|done].
    + destruct (String.eqb_spec c1 b1) as [->|Hcb].
      * destruct (String.eqb_spec b1 a1); [done|]. done.
      * intros H1 H2. destruct (String.eqb_spec c1 a1) as [->|Hca].
        -- rewrite (string_ltb_total _ _ H1 H2) in Hba. done.
        -- by eapply lessb_negtrans.
Qed.

(** ** The stable sort *)

Section stable_sort.
Context {K A : Type} (lessb : K → K → bool) `{!StrictWeak lessb}.
Context `{!EqDecision K}.
Implicit Types (x : K * A) (l : list (K * A)).

Lemma sort_insert_perm x l : sort_insert lessb x l ≡ₚ x :: l.
Proof.
  induction l as [|y l IH]; simpl; [done|].
  destruct (lessb y.1 x.1); [|done].
  rewrite IH. apply Permutation_swap.
Qed.

Lemma stable_sort_perm l : stable_sort lessb l ≡ₚ l.
Proof.
  induction l as [|x l IH]; simpl; [done|].
  by rewrite sort_insert_perm, IH.
Qed.

Lemma sort_insert_sorted x l :
  StronglySorted (key_le lessb) l → StronglySorted (key_le lessb) (sort_insert lessb x l).
Proof.
  induction 1 as [|y l Hl IH Hy]; simpl.
  - repeat constructor.
  - destruct (lessb y.1 x.1) eqn:Hyx.
    + constructor; [done|].
      rewrite sort_insert_perm. constructor; [|done].
      by apply lessb_asym.
    + constructor; [by constructor|].
      constructor; [done|].
      eapply Forall_impl; [exact Hy|].
      intros z Hz. unfold key_le in *. by eapply lessb_negtrans.
Qed.

Lemma stable_sort_sorted l : StronglySorted (key_le lessb) (stable_sort lessb l).
Proof.
  induction l; simpl; [constructor|by apply sort_insert_sorted].
Qed.

Lemma sort_insert_filter k x l :
  filter (λ a, a.1 = k) (sort_insert lessb x l) = filter (λ a, a.1 = k) (x :: l).
Proof.
  induction l as [|y l IH]; simpl; [done|].
  destruct (lessb y.1 x.1) eqn:Hyx; [|done].
  rewrite (filter_cons _ y), IH, !(filter_cons _ x), (filter_cons _ y).
  destruct (decide (y.1 = k)) as [Hy|Hy], (decide (x.1 = k)) as [Hx|Hx];
    try done.
  rewrite Hy, Hx in Hyx. by rewrite (lessb_irrefl lessb) in Hyx.
Qed.

Lemma stable_sort_filter k l :
  filter (λ a, a.1 = k) (stable_sort lessb l) = filter (λ a, a.1 = k) l.
Proof.
  induction l as [|x l IH]; simpl; [done|].
  by rewrite sort_insert_filter, !filter_cons, IH.
Qed.

Lemma stable_sort_id l : StronglySorted (key_le lessb) l → stable_sort lessb l = l.
Proof.
  induction 1 as [|x l Hl IH Hx]; simpl; [done|].
  rewrite IH. destruct Hx as [|y l Hy _]; simpl; [done|].
  by rewrite Hy.
Qed.
End stable_sort.

Section sorted_by.
Context {K : Type} (lessb : K → K → bool) `{!StrictWeak lessb}.
Context `{!EqDecision K}.
Implicit Types (f : string → K) (l : list string).

Lemma zip_decorate f l : zip (f <$> l) l = decorate f <$> l.
Proof. induction l; simpl; [done|]. by f_equal. Qed.

Lemma decorate_snd f (d : list (K * string)) :
  Forall (λ a, a.1 = f a.2) d → d = decorate f <$> d.*2.
Proof.
  induction 1 as [|[k x] d Hx _ IH]; simpl in *; [done|].
  unfold decorate at 1. by f_equal; [f_equal|].
Qed.

Lemma sorted_by_decorate f l :
  stable_sort lessb (decorate f <$> l) = decorate f <$> sorted_by lessb f l.
Proof.
  unfold sorted_by. rewrite zip_decorate.
  apply decorate_snd. rewrite stable_sort_perm.
  apply Forall_fmap, Forall_forall. done.
Qed.

Lemma sorted_by_perm f l : sorted_by lessb f l ≡ₚ l.
Proof.
  unfold sorted_by. rewrite stable_sort_perm, zip_decorate.
  rewrite <-list_fmap_compose. by rewrite list_fmap_id.
Qed.

Lemma sorted_decorate f l :
  StronglySorted (key_le lessb) (decorate f <$> l)
  ↔ StronglySorted (λ a b, lessb (f b) (f a) = false) l.
Proof.
  induction l as [|x l IH]; simpl.
  - split; constructor.
  - rewrite !StronglySorted_cons, IH, Forall_fmap. done.
Qed.

Lemma sorted_by_sorted f l :
  StronglySorted (λ a b, lessb (f b) (f a) = false) (sorted_by lessb f l).
Proof.
  apply sorted_decorate. rewrite <-sorted_by_decorate.
  by apply stable_sort_sorted.
Qed.

Lemma sorted_by_stable f l k :
  filter (λ x, f x = k) (sorted_by lessb f l) = filter (λ x, f x = k) l.
Proof.
  pose proof (stable_sort_filter lessb (A:=string) k (decorate f <$> l)) as H.
  rewrite sorted_by_decorate in H.
  apply (f_equal (fmap snd)) in H.
  revert H. generalize (sorted_by lessb f l). intros l'.
  assert (Hf : ∀ l0, (filter (λ a : K * string, a.1 = k) (decorate f <$> l0)).*2
                     = filter (λ x, f x = k) l0).
  { induction l0 as [|x l0 IH]; [done|].
    rewrite fmap_cons, (filter_cons _ (decorate f x)), (filter_cons _ x).
    change ((decorate f x).1) with (f x).
    destruct (decide (f x = k)); [rewrite fmap_cons|]; by rewrite IH. }
  by rewrite !Hf.
Qed.

Lemma sorted_by_ext f g l : (∀ x, x ∈ l → f x = g x) → sorted_by lessb f l = sorted_by lessb g l.
Proof.
  intros H. unfold sorted_by. do 3 f_equal.
  apply list_fmap_ext. intros i x Hx. apply H. by eapply list_elem_of_lookup_2.
Qed.

Lemma sorted_by_id f l :
  StronglySorted (λ a b, lessb (f b) (f a) = false) l → sorted_by lessb f l = l.
Proof.
  intros Hl. unfold sorted_by. rewrite zip_decorate, stable_sort_id.
  - rewrite <-list_fmap_compose. apply list_fmap_id.
  - by apply sorted_decorate.
Qed.

Lemma sorted_by_idemp f l : sorted_by lessb f (sorted_by lessb f l) = sorted_by lessb f l.
Proof. apply sorted_by_id, sorted_by_sorted. Qed.
End sorted_by.

(** ** Running method bodies *)

Ltac unfold_M :=
  unfold mbind, M_bind, mret, M_ret, gets, modify, raise, try_except, from_option.

Lemma player_eta s :
  Player (playlist s) (current_track_index s) (track_metadata s) (is_paused s)
    (volume s) (shuffle_mode s) (is_seeking s) (seek_offset s) (track_length s)
    (sort_dropdown s) (playlist_box s) (music s) (poll_timers s)
    (time_scrubber s) (current_time_label s) (total_time_label s) = s.
Proof. by destruct s. Qed.

Lemma set_track_metadata_same s : set_track_metadata (track_metadata s) s = s.
Proof. apply player_eta. Qed.

Lemma length_shown_rows pl : ∀ i, length (shown_rows i pl) = length pl.
Proof. induction pl as [|t pl IH]; intros i; simpl; [done|]. by rewrite IH. Qed.

Lemma for_fold_insert l : ∀ i s,
  for_fold (λ i track,
      let track_name := path_stem track in
      let track_name := strip_numbering track_name in
      lb_insert_end (pretty i +:+ ". " +:+ track_name);;
      mret (S i)) i l s
  = (Returned (i + length l)%nat,
     set_playlist_box
       (Listbox (rows (playlist_box s) ++ shown_rows i l)
          (selected (playlist_box s))) s).
Proof.
  induction l as [|x l IH]; intros i s; simpl.
  - unfold_M. rewrite app_nil_r, Nat.add_0_r. f_equal.
    destruct s as [? ? ? ? ? ? ? ? ? ? [??] ? ? ? ? ?]; done.
  - unfold mbind at 1, M_bind at 1. unfold mbind at 1, M_bind at 1.
    unfold lb_insert_end at 1, modify. unfold mret at 1, M_ret at 1.
    rewrite IH. simpl. unfold set_playlist_box; simpl.
    rewrite <-app_assoc. simpl. by rewrite Nat.add_succ_r.
Qed.

Lemma update_playlist_display_run s :
  update_playlist_display s = (Returned (), set_playlist_box (shown s) s).
Proof.
  unfold update_playlist_display.
  unfold mbind at 1, M_bind at 1. unfold lb_delete_all, modify.
  unfold mbind at 1, M_bind at 1. unfold gets at 1.
  unfold mbind at 1, M_bind at 1. rewrite for_fold_insert. simpl.
  unfold_M. simpl. unfold shown.
  destruct ((0 <=? current_track_index s)
            && (current_track_index s <? Z.of_nat (length (playlist s)))) eqn:E.
  - unfold lb_select_set, modify. simpl. by rewrite length_shown_rows, E.
  - done.
Qed.

(** ** Metadata lookup *)

Lemma pure_ret {A} (a : A) : pure_M (mret a).
Proof. by eexists. Qed.

Lemma pure_raise {A} e : pure_M (raise (A:=A) e).
Proof. by eexists. Qed.

Lemma pure_bind {A B} (m : M A) (f : A → M B) :
  pure_M m → (∀ a, pure_M (f a)) → pure_M (m ≫= f).
Proof.
  intros [[a|e] Hm] Hf.
  - destruct (Hf a) as [o Ho]. exists o. intros s.
    unfold mbind, M_bind. by rewrite Hm.
  - exists (Raised e). intros s. unfold mbind, M_bind. by rewrite Hm.
Qed.

Lemma pure_from_option {A} e (o : option A) : pure_M (from_option e o).
Proof. destruct o; [apply pure_ret|apply pure_raise]. Qed.

Lemma read_tag_pure tags frame plain d : pure_M (read_tag tags frame plain d).
Proof.
  unfold read_tag.
  destruct (tags !! frame); [apply pure_ret|].
  destruct (tags !! plain); [apply pure_from_option|apply pure_ret].
Qed.

Lemma extract_track_info_pure w p : pure_M (extract_track_info w p).
Proof.
  unfold extract_track_info. apply pure_bind.
  - unfold call_MutagenFile.
    destruct (MutagenFile w p); [apply pure_raise|apply pure_ret..].
  - intros audio. destruct (audio ≫= truthy_tags); [|apply pure_ret].
    repeat (apply pure_bind; [apply read_tag_pure|intros ?]).
    apply pure_ret.
Qed.

Lemma extract_track_info_run w p s :
  extract_track_info w p s = ((extract_track_info w p init_player).1, s).
Proof. destruct (extract_track_info_pure w p) as [o Ho]. by rewrite !Ho. Qed.

Lemma get_track_info_run w p s :
  get_track_info w p s
  = (Returned (known_info w (track_metadata s) p),
     set_track_metadata
       (<[p := known_info w (track_metadata s) p]> (track_metadata s)) s).
Proof.
  unfold get_track_info, known_info.
  unfold mbind at 1, M_bind at 1, gets at 1.
  destruct (track_metadata s !! p) as [i|] eqn:Hc.
  - unfold mret, M_ret. by rewrite insert_id, set_track_metadata_same.
  - unfold try_except, mbind, M_bind. rewrite extract_track_info_run.
    by destruct (extract_track_info w p init_player) as [[i|e] ?].
Qed.

Lemma known_info_insert w c q p :
  known_info w (<[q := known_info w c q]> c) p = known_info w c p.
Proof.
  unfold known_info at 1 3.
  destruct (decide (q = p)) as [->|Hne].
  - by rewrite lookup_insert_eq.
  - by rewrite lookup_insert_ne.
Qed.

Lemma known_info_cache_all w l : ∀ c p,
  known_info w (cache_all w l c) p = known_info w c p.
Proof.
  induction l as [|q l IH]; intros c p; simpl; [done|].
  unfold cache_all in *. simpl. by rewrite IH, known_info_insert.
Qed.

Lemma cache_all_lookup_old w l : ∀ c p i,
  c !! p = Some i → cache_all w l c !! p = Some i.
Proof.
  induction l as [|q l IH]; intros c p i Hp; simpl; [done|].
  apply IH. destruct (decide (q = p)) as [->|Hne].
  - rewrite lookup_insert_eq. unfold known_info. by rewrite Hp.
  - by rewrite lookup_insert_ne.
Qed.

Lemma cache_all_lookup w l : ∀ c p,
  p ∈ l → cache_all w l c !! p = Some (known_info w c p).
Proof.
  induction l as [|q l IH]; intros c p; [by intros ?%elem_of_nil|].
  intros Hp. simpl. destruct (decide (q = p)) as [->|Hne].
  - apply cache_all_lookup_old, lookup_insert_eq.
  - rewrite IH; [by rewrite known_info_insert|].
    apply elem_of_cons in Hp as [?|?]; [done|done].
Qed.

Lemma reads_key_name w :
  reads_key w (λ x, i ← get_track_info w x; mret (lower (title i))) name_key.
Proof. intros p s. unfold mbind, M_bind. by rewrite get_track_info_run. Qed.

Lemma reads_key_twice {K} w (g : track_info → track_info → K) :
  reads_key w (λ x, a ← get_track_info w x; t ← get_track_info w x; mret (g a t))
    (λ i, g i i).
Proof.
  intros p s. unfold mbind, M_bind. rewrite !get_track_info_run. simpl.
  rewrite known_info_insert. unfold mret, M_ret. f_equal.
  unfold set_track_metadata; simpl. by rewrite insert_insert_eq.
Qed.

Lemma map_M_keys {K} w (key : string → M K) f l : reads_key w key f → ∀ s,
  map_M key l s
  = (Returned ((λ p, f (known_info w (track_metadata s) p)) <$> l),
     set_track_metadata (cache_all w l (track_metadata s)) s).
Proof.
  intros Hkey. induction l as [|x l IH]; intros s; simpl.
  - unfold mret, M_ret. by rewrite set_track_metadata_same.
  - unfold mbind, M_bind. rewrite Hkey, IH. simpl.
    unfold mret, M_ret. do 3 f_equal.
    apply list_fmap_ext. intros ? p _. by rewrite known_info_insert.
Qed.

Lemma playlist_sort_run {K} w lessb (key : string → M K) f s :
  reads_key w key f →
  playlist_sort lessb key s
  = (Returned (),
     set_playlist
       (sorted_by lessb (λ p, f (known_info w (track_metadata s) p)) (playlist s))
       (set_track_metadata (cache_all w (playlist s) (track_metadata s)) s)).
Proof.
  intros Hkey. unfold playlist_sort.
  unfold mbind, M_bind, gets at 1. by rewrite (map_M_keys w key f).
Qed.

(** ** Rules for [wp] *)

Lemma wp_ret {A} (a : A) Q s : Q (Returned a) s → wp (mret a) Q s.
Proof. done. Qed.

Lemma wp_raise {A} e (Q : outcome A → player → Prop) s :
  Q (Raised e) s → wp (raise e) Q s.
Proof. done. Qed.

Lemma wp_gets {A} (f : player → A) Q s : Q (Returned (f s)) s → wp (gets f) Q s.
Proof. done. Qed.

Lemma wp_modify f Q s : Q (Returned ()) (f s) → wp (modify f) Q s.
Proof. done. Qed.

Lemma wp_bind {A B} (m : M A) (f : A → M B) Q s :
  wp m (λ o s', match o with
                | Returned a => wp (f a) Q s'
                | Raised e => Q (Raised e) s'
                end) s →
  wp (m ≫= f) Q s.
Proof.
  unfold wp, mbind, M_bind. by destruct (m s) as [[a|e] s'].
Qed.

Lemma wp_try_except {A} (m : M A) h Q s :
  wp m (λ o s', match o with
                | Returned a => Q (Returned a) s'
                | Raised e => wp (h e) Q s'
                end) s →
  wp (try_except m h) Q s.
Proof.
  unfold wp, try_except. by destruct (m s) as [[a|e] s'].
Qed.

Lemma wp_mono {A} (m : M A) (Q Q' : outcome A → player → Prop) s :
  wp m Q s → (∀ o s', Q o s' → Q' o s') → wp m Q' s.
Proof. unfold wp. auto. Qed.

Lemma wp_run {A} (m : M A) o s' Q s : m s = (o, s') → Q o s' → wp m Q s.
Proof. unfold wp. by intros ->. Qed.

Lemma wp_from_option {A} e (x : option A) Q s :
  match x with Some a => Q (Returned a) s | None => Q (Raised e) s end →
  wp (from_option e x) Q s.
Proof. by destruct x. Qed.

Lemma wp_eq {A} (m : M A) (o : outcome A) (s s' : player) :
  wp m (λ o' s'', o' = o ∧ s'' = s') s → m s = (o, s').
Proof. unfold wp. destruct (m s) as [o' s'']. simpl. by intros [-> ->]. Qed.

Lemma wp_lift {A} (o : outcome A) Q s : Q o s → wp (lift o) Q s.
Proof. done. Qed.

Ltac wp_step :=
  lazymatch goal with
  | |- wp (mbind _ _) _ _ => apply wp_bind
  | |- wp (mret _) _ _ => apply wp_ret
  | |- wp (gets _) _ _ => apply wp_gets
  | |- wp (modify _) _ _ => apply wp_modify
  | |- wp (raise _) _ _ => apply wp_raise
  | |- wp (from_option _ _) _ _ => apply wp_from_option
  | |- wp (try_except _ _) _ _ => apply wp_try_except
  | |- wp (lift _) _ _ => apply wp_lift
  end; cbv beta iota.

Ltac wp_unfold :=
  unfold music_load, music_play, music_stop, music_pause, music_unpause,
    music_get_busy, music_set_volume, lb_delete_all, lb_insert_end,
    lb_select_clear_all, lb_select_set, root_after_check_track_end,
    cache_info, scrubber_config_to, scrubber_set.

Ltac wp_steps := repeat (wp_unfold; wp_step).

(** ** The playback methods keep the object consistent *)

Ltac wp_case :=
  lazymatch goal with
  | |- wp (if ?b then _ else _) _ _ => destruct b eqn:?
  | |- wp (match ?x with _ => _ end) _ _ => destruct x eqn:?
  | |- match ?x with _ => _ end => destruct x eqn:?
  end; cbv beta iota.

Ltac wp_auto := repeat (wp_unfold; first [wp_step | wp_case]).

Lemma add_selected_range i n sel :
  (i < n)%nat → Forall (λ j, (j < n)%nat) sel →
  Forall (λ j, (j < n)%nat) (add_selected i sel).
Proof.
  intros Hi. induction 1 as [|j sel Hj Hsel IH]; simpl.
  - by repeat constructor.
  - repeat case_match; repeat (constructor; try done).
Qed.

Ltac reflect_tests :=
  repeat match goal with
  | H : (_ =? _) = true |- _ => apply Z.eqb_eq in H
  | H : (_ =? _) = false |- _ => apply Z.eqb_neq in H
  | H : _ && _ = true |- _ => apply andb_true_iff in H as [? ?]
  | H : (_ <=? _) = true |- _ => apply Z.leb_le in H
  | H : (_ <? _) = true |- _ => apply Z.ltb_lt in H
  | H : (_ <? _)%nat = true |- _ => apply Nat.ltb_lt in H
  end.

Ltac use_equations :=
  repeat match goal with
  | H : playlist ?s = _ |- context [playlist ?s] => rewrite H
  | H : rows (playlist_box ?s) = _ |- context [rows (playlist_box ?s)] => rewrite H
  | H : current_track_index ?s = _ |- context [current_track_index ?s] => rewrite H
  | H : rows (playlist_box ?s) = _, H' : context [rows (playlist_box ?s)] |- _ =>
      tryif constr_eq H H' then fail else rewrite H in H'
  | H : playlist ?s = _, H' : context [playlist ?s] |- _ =>
      tryif constr_eq H H' then fail else rewrite H in H'
  end.

Ltac finish :=
  simpl in *; repeat case_match; simpl in *; reflect_tests;
  repeat split; use_equations; simpl in *;
  try done; try lia; try tauto;
  try (apply add_selected_range; [simpl; lia|constructor]);
  try (apply Forall_singleton; simpl in *; lia).

Lemma play_music_spec w s :
  consistent s →
  wp (play_music w)
    (λ _ s', consistent s' ∧ same_tracks s s'
             ∧ (current_track_index s' = current_track_index s
                ∨ (current_track_index s = -1 ∧ current_track_index s' = 0))) s.
Proof.
  intros (Hidx & Hrows & Hsel & Hne & Hnd).
  unfold play_music, consistent, valid_index, same_tracks in *.
  wp_auto; finish.
Qed.

Lemma same_tracks_refl s : same_tracks s s.
Proof. by repeat split. Qed.

Lemma same_tracks_trans s1 s2 s3 :
  same_tracks s1 s2 → same_tracks s2 s3 → same_tracks s1 s3.
Proof. intros (?&?&?&?) (?&?&?&?). repeat split; congruence. Qed.

(** Calling [play_music] at the end of a method on a consistent object. *)
Lemma wp_play_music w s Q :
  consistent s →
  (∀ o s', consistent s' → same_tracks s s' →
           current_track_index s' = current_track_index s
           ∨ (current_track_index s = -1 ∧ current_track_index s' = 0) →
           Q o s') →
  wp (play_music w) Q s.
Proof.
  intros Hs HQ. eapply wp_mono; [by apply play_music_spec|].
  intros o s' (?&?&?). by apply HQ.
Qed.

Lemma mod_index_range i n : 0 < n → 0 ≤ i `mod` n < n.
Proof. intros. by apply Z.mod_pos_bound. Qed.

Lemma next_track_spec w s :
  consistent s → world_ok w →
  wp (next_track w)
    (λ _ s', consistent s' ∧ same_tracks s s'
             ∧ (playlist s ≠ [] → shuffle_mode s = false →
                current_track_index s'
                = (current_track_index s + 1) `mod` Z.of_nat (length (playlist s)))) s.
Proof.
  intros Hs Hw. unfold next_track, stop_music.
  wp_step. wp_step. destruct (playlist s) as [|t pl] eqn:Hpl.
  { wp_step. split; [done|]. split; [apply same_tracks_refl|done]. }
  wp_step. wp_step. wp_step.
  assert (Hlen : 0 < Z.of_nat (length (t :: pl))) by (simpl; lia).
  destruct (shuffle_mode s) eqn:Hsh.
  - wp_auto. apply wp_play_music.
    + destruct Hs as (Hidx & Hrows & Hsel & Hne & Hnd).
      unfold consistent, valid_index in *. simpl. rewrite Hpl in *.
      repeat split; try done. right.
      specialize (Hw 0 (Z.of_nat (length (t :: pl)) - 1)).
      simpl length in *. lia.
    + intros o s' Hs' Hsame Hidx. split; [done|]. split; [|done].
      eapply same_tracks_trans; [|exact Hsame]. by repeat split.
  - wp_auto. apply wp_play_music.
    + destruct Hs as (Hidx & Hrows & Hsel & Hne & Hnd).
      unfold consistent, valid_index in *. simpl. rewrite Hpl in *.
      repeat split; try done. right. by apply mod_index_range.
    + intros o s' Hs' Hsame Hidx. split; [done|]. split.
      * eapply same_tracks_trans; [|exact Hsame]. by repeat split.
      * intros _ _.
        pose proof (mod_index_range (current_track_index s + 1) _ Hlen).
        simpl in *.
        destruct Hidx as [->|[? _]]; [done|lia].
Qed.

Lemma previous_track_spec w s :
  consistent s →
  wp (previous_track w)
    (λ _ s', consistent s' ∧ same_tracks s s'
             ∧ (playlist s ≠ [] →
                current_track_index s'
                = (current_track_index s - 1) `mod` Z.of_nat (length (playlist s)))) s.
Proof.
  intros Hs. unfold previous_track, stop_music.
  wp_step. wp_step. destruct (playlist s) as [|t pl] eqn:Hpl.
  { wp_step. split; [done|]. split; [apply same_tracks_refl|done]. }
  assert (Hlen : 0 < Z.of_nat (length (t :: pl))) by (simpl; lia).
  wp_auto. apply wp_play_music.
  - destruct Hs as (Hidx & Hrows & Hsel & Hne & Hnd).
    unfold consistent, valid_index in *. simpl. rewrite Hpl in *.
    repeat split; try done. right. by apply mod_index_range.
  - intros o s' Hs' Hsame Hidx. split; [done|]. split.
    + eapply same_tracks_trans; [|exact Hsame]. by repeat split.
    + intros _.
      pose proof (mod_index_range (current_track_index s - 1) _ Hlen).
      simpl in *.
      destruct Hidx as [->|[? _]]; [done|lia].
Qed.

Lemma play_selected_track_spec w s :
  consistent s →
  wp (play_selected_track w) (λ _ s', consistent s' ∧ same_tracks s s') s.
Proof.
  intros Hs. unfold play_selected_track, stop_music.
  wp_step. wp_step. destruct (selected (playlist_box s)) as [|i sel] eqn:Hsel.
  { wp_step. split; [done|apply same_tracks_refl]. }
  wp_auto. apply wp_play_music.
  - destruct Hs as (Hidx & Hrows & Hsel' & Hne & Hnd).
    assert (Hi : (i < length (playlist s))%nat).
    { rewrite Hsel in Hsel'. by apply Forall_cons in Hsel' as [Hi ?]. }
    unfold consistent, valid_index. simpl.
    repeat split; try done. right; lia.
  - intros o s' Hs' Hsame _. split; [done|].
    eapply same_tracks_trans; [|exact Hsame]. by repeat split.
Qed.

Lemma clear_playlist_run s :
  clear_playlist s
  = (Returned (),
     set_current_track_index (-1)
       (set_playlist_box (Listbox [] [])
          (set_track_metadata ∅
             (set_playlist []
                (set_is_paused false
                   (set_music
                      (Mixer (loaded (music s)) false false
                         (started_at (music s)) (mvolume (music s))) s)))))).
Proof. reflexivity. Qed.

Lemma clear_playlist_consistent s : consistent (run clear_playlist s).
Proof.
  unfold run. rewrite clear_playlist_run. unfold consistent, valid_index. simpl.
  split; [by left|repeat split; constructor].
Qed.

Lemma end_seek_spec w pos s :
  consistent s →
  wp (end_seek w pos) (λ _ s', consistent s' ∧ same_tracks s s') s.
Proof.
  intros (Hidx & Hrows & Hsel & Hne & Hnd).
  unfold end_seek, consistent, valid_index, same_tracks in *.
  wp_auto; finish.
Qed.

(** *** The poll *)

Lemma same_but_time_refl s : same_but_time s s.
Proof.
  exists (time_scrubber s), (current_time_label s), (total_time_label s).
  by destruct s.
Qed.

Ltac time_frame :=
  match goal with
  | |- same_but_time ?s ?s' =>
      exists (time_scrubber s'), (current_time_label s'), (total_time_label s');
      by destruct s
  end.

(** The refresh of the first branch returns and writes the scrubber and
    the time labels only. *)
Lemma refresh_time_frame w s :
  wp (try_except (refresh_time w) (λ _, mret tt))
    (λ o s', o = Returned () ∧ same_but_time s s') s.
Proof.
  unfold refresh_time. wp_auto; (split; [done|time_frame]).
Qed.

Lemma refreshed_frame w s : same_but_time s (refreshed w s).
Proof.
  unfold refreshed. destruct (is_seeking s); [apply same_but_time_refl|].
  by destruct (refresh_time_frame w s) as [_ ?].
Qed.

Lemma zeroed_frame s : same_but_time s (zeroed s).
Proof. unfold zeroed. time_frame. Qed.

Lemma check_track_end_active w s :
  busy s || is_paused s = true →
  check_track_end w s
  = (Returned (), set_poll_timers (S (poll_timers s)) (refreshed w s)).
Proof.
  unfold busy. intros Hact. apply wp_eq. unfold check_track_end, refreshed.
  wp_step. unfold music_get_busy. wp_step. wp_step. wp_step. rewrite Hact.
  wp_step. wp_step. wp_step. destruct (is_seeking s) eqn:Hseek.
  - wp_steps. split; [done|]. by destruct s.
  - pose proof (refresh_time_frame w s) as [Hret Hframe]. unfold run.
    unfold wp. rewrite Hret. unfold root_after_check_track_end, wp, modify. simpl.
    split; [done|]. f_equal.
    destruct Hframe as (sc & cur & tot & ->). done.
Qed.

Lemma check_track_end_idle w s :
  busy s = false → is_paused s = false →
  check_track_end w s
  = match playlist s with
    | [] => (Returned (), zeroed s)
    | _ =>
        if current_track_index s =? -1 then (Returned (), zeroed s)
        else next_track w s
    end.
Proof.
  unfold busy. intros Hbusy Hp. unfold check_track_end. unfold_M.
  unfold music_get_busy, gets in *. rewrite Hbusy, Hp. simpl.
  destruct (playlist s); [done|]. by destruct (_ =? _).
Qed.

Lemma consistent_time s s' : same_but_time s s' → consistent s → consistent s'.
Proof. by intros (sc & cur & tot & ->). Qed.

Lemma same_tracks_time s s' : same_but_time s s' → same_tracks s s'.
Proof. intros (sc & cur & tot & ->). by repeat split. Qed.

Lemma check_track_end_spec w s :
  consistent s → world_ok w →
  wp (check_track_end w) (λ _ s', consistent s' ∧ same_tracks s s') s.
Proof.
  intros Hs Hw. unfold wp.
  destruct (busy s || is_paused s) eqn:Hact.
  - rewrite check_track_end_active; [|done]. cbn [fst snd].
    pose proof (refreshed_frame w s) as Hframe.
    pose proof (consistent_time _ _ Hframe Hs) as Hs'.
    pose proof (same_tracks_time _ _ Hframe) as Hsame. split.
    + by destruct Hs' as (?&?&?&?&?).
    + by destruct Hsame as (?&?&?&?).
  - apply orb_false_iff in Hact as [Hbusy Hp].
    rewrite check_track_end_idle; [|done..].
    pose proof (zeroed_frame s) as Hframe.
    assert (consistent (zeroed s) ∧ same_tracks s (zeroed s)) as Hzero.
    { split; [by eapply consistent_time|by apply same_tracks_time]. }
    destruct (playlist s); [done|]. destruct (_ =? _); [done|].
    pose proof (next_track_spec w s Hs Hw) as Hnext. unfold wp in Hnext.
    by destruct Hnext as (?&?&?).
Qed.

(** ** [sort_playlist] *)

Lemma list_index_Some x l i :
  list_index x l = Some i → l !! i = Some x.
Proof.
  revert i. induction l as [|y l IH]; intros i; simpl; [done|].
  destruct (String.eqb_spec y x) as [->|Hne].
  - by intros [= <-].
  - destruct (list_index x l) as [j|]; simpl; [|done].
    intros [= <-]. by apply IH.
Qed.

Lemma list_index_None x l : list_index x l = None ↔ x ∉ l.
Proof.
  induction l as [|y l IH]; simpl.
  - split; [intros _; apply not_elem_of_nil|done].
  - rewrite not_elem_of_cons. destruct (String.eqb_spec y x) as [->|Hne].
    + split; [done|]. by intros [? _].
    + destruct (list_index x l); simpl.
      * split; [done|]. intros [_ H]. by apply IH in H.
      * split; [|done]. intros _. split; [done|]. by apply IH.
Qed.

Lemma relocate_current_run ct s :
  relocate_current ct s = (Returned (), relocated ct s).
Proof.
  unfold relocate_current, relocated.
  destruct ct as [[|c t]|]; try done.
  unfold try_except, mbind, M_bind, gets, from_option.
  by destruct (list_index (String c t) (playlist s)).
Qed.

Lemma playlist_sort_name w s :
  playlist_sort String.ltb
    (λ x, i ← get_track_info w x; mret (lower (title i))) s
  = (Returned (),
     set_playlist
       (sorted_by String.ltb (λ p, name_key (known_info w (track_metadata s) p))
          (playlist s))
       (set_track_metadata (cache_all w (playlist s) (track_metadata s)) s)).
Proof. apply (playlist_sort_run w), reads_key_name. Qed.

Lemma playlist_sort_artist w s :
  playlist_sort pair_ltb
    (λ x, a ← get_track_info w x; t ← get_track_info w x;
          mret (lower (artist a), lower (title t))) s
  = (Returned (),
     set_playlist
       (sorted_by pair_ltb (λ p, artist_key (known_info w (track_metadata s) p))
          (playlist s))
       (set_track_metadata (cache_all w (playlist s) (track_metadata s)) s)).
Proof.
  apply (playlist_sort_run w _ _ artist_key).
  apply (reads_key_twice w (λ a t, (lower (artist a), lower (title t)))).
Qed.

Lemma playlist_sort_album w s :
  playlist_sort pair_ltb
    (λ x, a ← get_track_info w x; t ← get_track_info w x;
          mret (lower (album a), lower (title t))) s
  = (Returned (),
     set_playlist
       (sorted_by pair_ltb (λ p, album_key (known_info w (track_metadata s) p))
          (playlist s))
       (set_track_metadata (cache_all w (playlist s) (track_metadata s)) s)).
Proof.
  apply (playlist_sort_run w _ _ album_key).
  apply (reads_key_twice w (λ a t, (lower (album a), lower (title t)))).
Qed.

Lemma py_index_valid {A} (l : list A) i :
  0 ≤ i < Z.of_nat (length l) → py_index l i = l !! Z.to_nat i ∧ is_Some (l !! Z.to_nat i).
Proof.
  intros [H0 H1]. unfold py_index.
  destruct (0 <=? i) eqn:E; [|apply Z.leb_gt in E; lia].
  split; [done|]. apply lookup_lt_is_Some. lia.
Qed.

Lemma sort_playlist_empty w s : playlist s = [] → sort_playlist w s = (Returned (), s).
Proof. intros H. unfold sort_playlist, mbind, M_bind, gets. by rewrite H. Qed.

Lemma sort_playlist_run w s :
  playlist s ≠ [] → sort_playlist w s = (Returned (), sorted_player w s).
Proof.
  intros Hne. unfold sort_playlist.
  unfold mbind at 1, M_bind at 1, gets at 1.
  destruct (playlist s) as [|t pl] eqn:Hpl; [done|]. rewrite <-Hpl. clear Hne.
  unfold mbind at 1, M_bind at 1, gets at 1.
  unfold mbind at 1, M_bind at 1, gets at 1.
  unfold mbind at 1, M_bind at 1.
  assert (Hct : (if (0 <=? current_track_index s)
                    && (current_track_index s <? Z.of_nat (length (playlist s)))
                 then t ← from_option IndexError
                            (py_index (playlist s) (current_track_index s));
                      mret (Some t)
                 else mret None) s = (Returned (current_track_of s), s)).
  { unfold current_track_of.
    destruct (_ && _) eqn:E; [|done].
    apply andb_true_iff in E as [?%Z.leb_le ?%Z.ltb_lt].
    destruct (py_index_valid (playlist s) (current_track_index s)) as [-> [x ->]];
      [lia|done]. }
  rewrite Hct. clear Hct.
  unfold sorted_player, after_sort.
  unfold mbind at 1, M_bind at 1.
  destruct (String.eqb (sort_dropdown s) "Name").
  { rewrite playlist_sort_name. unfold mbind, M_bind.
    by rewrite relocate_current_run, update_playlist_display_run. }
  destruct (String.eqb (sort_dropdown s) "Artist").
  { rewrite playlist_sort_artist. unfold mbind, M_bind.
    by rewrite relocate_current_run, update_playlist_display_run. }
  destruct (String.eqb (sort_dropdown s) "Album").
  { rewrite playlist_sort_album. unfold mbind, M_bind.
    by rewrite relocate_current_run, update_playlist_display_run. }
  unfold mret at 1, M_ret at 1. unfold mbind, M_bind.
  by rewrite relocate_current_run, update_playlist_display_run.
Qed.

Lemma after_sort_perm w s : playlist (after_sort w s) ≡ₚ playlist s.
Proof.
  unfold after_sort. repeat case_match; simpl; try done;
    by apply sorted_by_perm; apply _.
Qed.

Lemma after_sort_index w s :
  current_track_index (after_sort w s) = current_track_index s.
Proof. unfold after_sort. by repeat case_match. Qed.

Lemma after_sort_dropdown w s : sort_dropdown (after_sort w s) = sort_dropdown s.
Proof. unfold after_sort. by repeat case_match. Qed.

Lemma relocated_playlist ct s : playlist (relocated ct s) = playlist s.
Proof. unfold relocated. by repeat case_match. Qed.

Lemma sorted_player_playlist w s :
  playlist (sorted_player w s) = playlist (after_sort w s).
Proof. unfold sorted_player. simpl. apply relocated_playlist. Qed.

Lemma sorted_player_perm w s : playlist (sorted_player w s) ≡ₚ playlist s.
Proof. rewrite sorted_player_playlist. apply after_sort_perm. Qed.

Lemma sorted_player_index w s :
  current_track_index (sorted_player w s)
  = current_track_index (relocated (current_track_of s) (after_sort w s)).
Proof. done. Qed.

Lemma current_track_of_Some s t :
  current_track_of s = Some t →
  0 ≤ current_track_index s < Z.of_nat (length (playlist s))
  ∧ playlist s !! Z.to_nat (current_track_index s) = Some t.
Proof.
  unfold current_track_of. destruct (_ && _) eqn:E; [|done].
  apply andb_true_iff in E as [?%Z.leb_le ?%Z.ltb_lt].
  destruct (py_index_valid (playlist s) (current_track_index s)) as [-> _]; [lia|].
  intros. split; [lia|done].
Qed.

(** After the index update the index is where [list.index] found the
    track. *)
Lemma relocated_found t s :
  t ≠ EmptyString → t ∈ playlist s →
  ∃ i, list_index t (playlist s) = Some i
       ∧ current_track_index (relocated (Some t) s) = Z.of_nat i
       ∧ playlist s !! i = Some t.
Proof.
  intros Hne Hin. unfold relocated.
  destruct (list_index t (playlist s)) as [i|] eqn:Hi.
  - exists i. split; [done|]. split; [by destruct t|].
    by apply list_index_Some.
  - by apply list_index_None in Hi.
Qed.

Lemma sorted_player_consistent w s :
  valid_index s → Forall (λ p, p ≠ EmptyString) (playlist s) → NoDup (playlist s) →
  consistent (sorted_player w s).
Proof.
  intros Hidx Hne Hnd.
  pose proof (sorted_player_perm w s) as Hperm.
  assert (Hlen : length (playlist (sorted_player w s)) = length (playlist s))
    by (by rewrite Hperm).
  assert (Hvalid : valid_index (sorted_player w s)).
  { unfold valid_index. rewrite Hlen, sorted_player_index.
    destruct (current_track_of s) as [t|] eqn:Hct.
    - apply current_track_of_Some in Hct as [_ Ht].
      apply list_elem_of_lookup_2 in Ht.
      destruct (relocated_found t (after_sort w s)) as (i & Hi & -> & Hl).
      + intros ->. by eapply Forall_forall in Hne.
      + by rewrite after_sort_perm.
      + right. apply lookup_lt_Some in Hl.
        rewrite (Permutation_length (after_sort_perm w s)) in Hl. lia.
    - simpl. by rewrite after_sort_index. }
  split; [done|]. split; [|split; [|split]].
  - unfold sorted_player, shown. simpl. by rewrite length_shown_rows.
  - unfold sorted_player, shown at 1. simpl. rewrite relocated_playlist.
    destruct (_ && _) eqn:E; [|constructor].
    apply andb_true_iff in E as [?%Z.leb_le ?%Z.ltb_lt].
    apply Forall_singleton. lia.
  - by rewrite Hperm.
  - by rewrite Hperm.
Qed.

Lemma sort_playlist_spec w s :
  consistent s → wp (sort_playlist w) (λ o s', o = Returned () ∧ consistent s') s.
Proof.
  intros Hs. destruct (playlist s) as [|t pl] eqn:Hpl.
  - eapply wp_run; [by apply sort_playlist_empty|done].
  - eapply wp_run; [apply sort_playlist_run; by rewrite Hpl|].
    split; [done|]. destruct Hs as (?&?&?&?&?).
    by apply sorted_player_consistent.
Qed.

(** ** [scan_directory] *)

Lemma set_playlist_same s : set_playlist (playlist s) s = s.
Proof. apply player_eta. Qed.

Lemma add_path_prefix pl p : ∃ new, add_path pl p = pl ++ new ∧ (length new ≤ 1)%nat.
Proof.
  unfold add_path. case_bool_decide.
  - exists []. rewrite app_nil_r. split; [done|simpl; lia].
  - exists [p]. split; [done|simpl; lia].
Qed.

Lemma add_path_length pl p : (length pl ≤ length (add_path pl p))%nat.
Proof. destruct (add_path_prefix pl p) as (new & -> & _). rewrite length_app. lia. Qed.

Lemma add_paths_length pl ps : (length pl ≤ length (add_paths pl ps))%nat.
Proof.
  revert pl. induction ps as [|p ps IH]; intros pl; simpl; [done|].
  etrans; [apply (add_path_length pl p)|apply IH].
Qed.

Lemma scan_file_run root n file s :
  scan_file root n file s
  = (Returned (n + (length (add_paths (playlist s) (entry_paths (root, [file])))
                    - length (playlist s)))%nat,
     set_playlist (add_paths (playlist s) (entry_paths (root, [file]))) s).
Proof.
  unfold scan_file, entry_paths. simpl. rewrite filter_cons, filter_nil.
  case_bool_decide as Hext.
  - rewrite decide_True by done. simpl. unfold add_path.
    unfold mbind, M_bind, gets, modify, mret, M_ret.
    case_bool_decide.
    + rewrite set_playlist_same. do 2 f_equal. lia.
    + simpl. do 2 f_equal. rewrite length_app. simpl. lia.
  - rewrite decide_False by done. simpl.
    unfold mret, M_ret. rewrite set_playlist_same. do 2 f_equal. lia.
Qed.

Lemma entry_paths_cons root file files :
  entry_paths (root, file :: files)
  = entry_paths (root, [file]) ++ entry_paths (root, files).
Proof.
  unfold entry_paths. simpl. rewrite <-fmap_app. f_equal.
  by rewrite <-filter_app.
Qed.

Lemma add_paths_app pl ps qs :
  add_paths pl (ps ++ qs) = add_paths (add_paths pl ps) qs.
Proof. apply foldl_app. Qed.

Lemma scan_files_run root files : ∀ n s,
  for_fold (scan_file root) n files s
  = (Returned (n + (length (add_paths (playlist s) (entry_paths (root, files)))
                    - length (playlist s)))%nat,
     set_playlist (add_paths (playlist s) (entry_paths (root, files))) s).
Proof.
  induction files as [|file files IH]; intros n s.
  - simpl. unfold mret, M_ret. rewrite set_playlist_same. do 2 f_equal.
    unfold entry_paths. simpl. lia.
  - simpl. unfold mbind, M_bind. rewrite scan_file_run, IH. simpl.
    rewrite (entry_paths_cons root file files), add_paths_app.
    pose proof (add_paths_length (playlist s) (entry_paths (root, [file]))).
    pose proof (add_paths_length
      (add_paths (playlist s) (entry_paths (root, [file])))
      (entry_paths (root, files))).
    f_equal. f_equal. lia.
Qed.

Lemma scan_entries_run tree : ∀ n s,
  for_fold (λ found entry, for_fold (scan_file entry.1) found entry.2) n tree s
  = (Returned (n + (length (add_paths (playlist s) (tree_paths tree))
                    - length (playlist s)))%nat,
     set_playlist (add_paths (playlist s) (tree_paths tree)) s).
Proof.
  induction tree as [|[root files] tree IH]; intros n s.
  - simpl. unfold mret, M_ret. rewrite set_playlist_same. do 2 f_equal.
    unfold tree_paths. simpl. lia.
  - simpl. unfold mbind, M_bind. rewrite scan_files_run, IH. simpl.
    unfold tree_paths. rewrite fmap_cons. cbn [concat]. rewrite add_paths_app.
    pose proof (add_paths_length (playlist s) (entry_paths (root, files))).
    pose proof (add_paths_length
      (add_paths (playlist s) (entry_paths (root, files)))
      (concat (entry_paths <$> tree))).
    f_equal. f_equal. lia.
Qed.

Lemma scan_tree_run tree s :
  scan_tree tree s
  = (Returned (length (add_paths (playlist s) (tree_paths tree))
               - length (playlist s))%nat,
     set_playlist (add_paths (playlist s) (tree_paths tree)) s).
Proof. unfold scan_tree. by rewrite scan_entries_run. Qed.

Lemma add_path_elem pl p q : q ∈ add_path pl p ↔ q ∈ pl ∨ q = p.
Proof.
  unfold add_path. case_bool_decide as Hp.
  - split; [by left|]. by intros [?| ->].
  - rewrite elem_of_app, list_elem_of_singleton. done.
Qed.

Lemma add_paths_elem ps : ∀ pl q, q ∈ add_paths pl ps ↔ q ∈ pl ∨ q ∈ ps.
Proof.
  induction ps as [|p ps IH]; intros pl q; simpl.
  - rewrite elem_of_nil. tauto.
  - unfold add_paths in *. simpl. rewrite IH, add_path_elem, elem_of_cons. tauto.
Qed.

Lemma add_path_NoDup pl p : NoDup pl → NoDup (add_path pl p).
Proof.
  intros Hnd. unfold add_path. case_bool_decide as Hp; [done|].
  apply NoDup_app. split; [done|]. split; [|apply NoDup_singleton].
  intros q Hq ->%list_elem_of_singleton. done.
Qed.

Lemma add_paths_NoDup ps : ∀ pl, NoDup pl → NoDup (add_paths pl ps).
Proof.
  induction ps as [|p ps IH]; intros pl Hnd; simpl; [done|].
  by apply IH, add_path_NoDup.
Qed.

Lemma add_paths_prefix ps : ∀ pl, ∃ new, add_paths pl ps = pl ++ new.
Proof.
  induction ps as [|p ps IH]; intros pl; simpl.
  - exists []. by rewrite app_nil_r.
  - destruct (add_path_prefix pl p) as (new1 & H1 & _).
    destruct (IH (add_path pl p)) as (new2 & H2).
    exists (new1 ++ new2). unfold add_paths in *. simpl.
    by rewrite H2, H1, app_assoc.
Qed.

Lemma add_paths_present ps : ∀ pl, (∀ p, p ∈ ps → p ∈ pl) → add_paths pl ps = pl.
Proof.
  induction ps as [|p ps IH]; intros pl Hin; simpl; [done|].
  unfold add_paths in *. simpl.
  assert (add_path pl p = pl) as ->.
  { unfold add_path. rewrite bool_decide_eq_true_2; [done|].
    apply Hin. by left. }
  apply IH. intros q Hq. apply Hin. by right.
Qed.

Lemma append_empty a b : a +:+ b = EmptyString → b = EmptyString.
Proof. destruct a; [done|]. simpl. discriminate. Qed.

Lemma os_path_join_nonempty root file : file ≠ EmptyString → os_path_join root file ≠ EmptyString.
Proof.
  intros Hfile. unfold os_path_join.
  destruct (starts_with "/" file); [done|].
  destruct (_ || _).
  - by intros ?%append_empty.
  - intros ?%append_empty. discriminate.
Qed.

Lemma entry_paths_nonempty entry p : p ∈ entry_paths entry → p ≠ EmptyString.
Proof.
  unfold entry_paths. intros (file & -> & Hf)%list_elem_of_fmap.
  apply list_elem_of_filter in Hf as [Hext _].
  apply os_path_join_nonempty. intros ->.
  revert Hext. by vm_compute; intros H; repeat (apply elem_of_cons in H as [H|H]; [done|]);
    apply elem_of_nil in H.
Qed.

Lemma elem_of_concat {A} (x : A) ll : x ∈ concat ll ↔ ∃ l, l ∈ ll ∧ x ∈ l.
Proof.
  induction ll as [|l ll IH]; simpl.
  - split; [by intros ?%elem_of_nil|]. by intros (l & ?%elem_of_nil & _).
  - rewrite elem_of_app, IH. split.
    + intros [Hx|(l' & Hl' & Hx)].
      * exists l. split; [by left|done].
      * exists l'. split; [by right|done].
    + intros (l' & [->|Hl']%elem_of_cons & Hx); [by left|].
      right. by exists l'.
Qed.

Lemma tree_paths_nonempty tree p : p ∈ tree_paths tree → p ≠ EmptyString.
Proof.
  unfold tree_paths.
  intros (ps & (entry & -> & _)%list_elem_of_fmap & Hp)%elem_of_concat.
  by eapply entry_paths_nonempty.
Qed.

Lemma scan_directory_run w d s :
  scan_directory w d s
  = (Returned (),
     if String.eqb d EmptyString then s
     else match playlist (scanned w d s) with
          | [] => scanned w d s
          | _ => sorted_player w (scanned w d s)
          end).
Proof.
  unfold scan_directory. destruct (String.eqb d EmptyString); [done|].
  unfold mbind, M_bind. rewrite scan_tree_run. fold (scanned w d s).
  unfold gets. destruct (playlist (scanned w d s)) eqn:Hpl; [done|].
  apply sort_playlist_run. by rewrite Hpl.
Qed.

Lemma scanned_consistent w d s :
  consistent s →
  valid_index (scanned w d s)
  ∧ Forall (λ p, p ≠ EmptyString) (playlist (scanned w d s))
  ∧ NoDup (playlist (scanned w d s)).
Proof.
  intros (Hidx & Hrows & Hsel & Hne & Hnd). unfold scanned, valid_index. simpl.
  split; [|split].
  - pose proof (add_paths_length (playlist s) (tree_paths (os_walk w d))).
    unfold valid_index in Hidx. lia.
  - apply Forall_forall. intros p [Hp|Hp]%add_paths_elem.
    + by eapply Forall_forall in Hne.
    + by eapply tree_paths_nonempty.
  - by apply add_paths_NoDup.
Qed.

Lemma scanned_empty w d s : playlist (scanned w d s) = [] → scanned w d s = s.
Proof.
  unfold scanned. simpl. intros H.
  destruct (add_paths_prefix (tree_paths (os_walk w d)) (playlist s)) as [new Hnew].
  rewrite Hnew in H. apply app_eq_nil in H as [Hs ->].
  rewrite Hnew, app_nil_r. apply set_playlist_same.
Qed.

Lemma scan_directory_consistent w d s :
  consistent s → consistent (run (scan_directory w d) s).
Proof.
  intros Hs. unfold run. rewrite scan_directory_run. cbn [snd].
  destruct (String.eqb d EmptyString); [done|].
  destruct (playlist (scanned w d s)) eqn:Hpl.
  - by rewrite scanned_empty.
  - destruct (scanned_consistent w d s Hs) as (?&?&?).
    by apply sorted_player_consistent.
Qed.

(** ** Every reachable object is consistent *)

Lemma wp_consistent {A} (m : M A) (R : player → Prop) s :
  wp m (λ _ s', consistent s' ∧ R s') s → consistent (run m s).
Proof. unfold wp, run. by intros [? _]. Qed.

Lemma init_player_consistent : consistent init_player.
Proof.
  unfold consistent, valid_index. simpl.
  split; [by left|]. repeat split; constructor.
Qed.

Lemma pause_music_consistent s : consistent s → consistent (run pause_music s).
Proof.
  intros (Hidx & Hrows & Hsel & Hne & Hnd).
  apply (wp_consistent _ (λ _, True)).
  unfold pause_music, consistent, valid_index in *.
  wp_auto; finish.
Qed.

Lemma stop_music_consistent s : consistent s → consistent (run stop_music s).
Proof. by intros (Hidx & Hrows & Hsel & Hne & Hnd). Qed.

Lemma dispatch_consistent w e s :
  world_ok w → consistent s → consistent (dispatch w e s).
Proof.
  intros Hw Hs. unfold dispatch. destruct e; simpl.
  - by apply scan_directory_consistent.
  - apply (wp_consistent _ (λ _, True)). wp_step. wp_step.
    eapply wp_mono; [apply sort_playlist_spec|].
    + by destruct Hs as (?&?&?&?&?).
    + by intros o s' [_ ?].
  - apply clear_playlist_consistent.
  - eapply wp_consistent, wp_mono; [by apply play_music_spec|].
    intros o s' (?&?&?). split; [done|exact I].
  - by apply pause_music_consistent.
  - by apply stop_music_consistent.
  - eapply wp_consistent, wp_mono; [by apply previous_track_spec|].
    intros o s' (?&?&?). split; [done|exact I].
  - eapply wp_consistent, wp_mono; [by apply next_track_spec|].
    intros o s' (?&?&?). split; [done|exact I].
  - by destruct Hs as (?&?&?&?&?).
  - destruct Hs as (Hidx & Hrows & Hsel & Hne & Hnd).
    unfold run, modify. simpl.
    destruct (row <? length (rows (playlist_box s)))%nat eqn:E; [|done].
    apply Nat.ltb_lt in E. unfold consistent, valid_index. simpl.
    repeat split; try done. rewrite <-Hrows. by apply Forall_singleton.
  - eapply wp_consistent, wp_mono; [by apply play_selected_track_spec|].
    intros o s' (?&?). split; [done|exact I].
  - by destruct Hs as (?&?&?&?&?).
  - by destruct Hs as (?&?&?&?&?).
  - eapply wp_consistent, wp_mono; [by apply end_seek_spec|].
    intros o s' (?&?). split; [done|exact I].
  - apply (wp_consistent _ (λ _, True)). wp_step. wp_step.
    eapply wp_mono; [apply check_track_end_spec|].
    + by destruct Hs as (?&?&?&?&?).
    + done.
    + by intros o s' [? _].
  - destruct Hs as (Hidx & Hrows & Hsel & Hne & Hnd).
    unfold run, modify. simpl. by destruct (_ && _).
Qed.

Lemma reachable_consistent s : reachable s → consistent s.
Proof.
  induction 1 as [|w e s _ IH Hw _].
  - apply init_player_consistent.
  - by apply dispatch_consistent.
Qed.

(** ** Navigation: the index after [next_track] and [previous_track] *)

Lemma play_music_tracks w s :
  wp (play_music w)
    (λ _ s', same_tracks s s'
             ∧ (current_track_index s' = current_track_index s
                ∨ (current_track_index s = -1 ∧ is_paused s = false
                   ∧ current_track_index s' = 0))) s.
Proof. unfold play_music, same_tracks. wp_auto; finish. Qed.

Lemma next_track_index w s :
  playlist s ≠ [] → shuffle_mode s = false →
  same_tracks s (dispatch w EvNext s)
  ∧ current_track_index (dispatch w EvNext s)
    = (current_track_index s + 1) `mod` Z.of_nat (length (playlist s)).
Proof.
  intros Hpl Hsh. unfold dispatch, run. simpl.
  change (wp (next_track w)
    (λ _ s', same_tracks s s'
             ∧ current_track_index s'
               = (current_track_index s + 1) `mod` Z.of_nat (length (playlist s))) s).
  unfold next_track, stop_music.
  wp_step. wp_step. destruct (playlist s) as [|t pl] eqn:Hs; [done|].
  assert (Hlen : 0 < Z.of_nat (length (t :: pl))) by (simpl; lia).
  wp_step. wp_step. rewrite Hsh. wp_auto.
  eapply wp_mono; [apply play_music_tracks|].
  intros o s' [Hsame Hidx].
  pose proof (mod_index_range (current_track_index s + 1) _ Hlen).
  simpl in *. split.
  - eapply same_tracks_trans; [|exact Hsame]. by repeat split.
  - destruct Hidx as [->|[? _]]; [done|lia].
Qed.

Lemma previous_track_index w s :
  playlist s ≠ [] →
  same_tracks s (dispatch w EvPrevious s)
  ∧ current_track_index (dispatch w EvPrevious s)
    = (current_track_index s - 1) `mod` Z.of_nat (length (playlist s)).
Proof.
  intros Hpl. unfold dispatch, run. simpl.
  change (wp (previous_track w)
    (λ _ s', same_tracks s s'
             ∧ current_track_index s'
               = (current_track_index s - 1) `mod` Z.of_nat (length (playlist s))) s).
  unfold previous_track, stop_music.
  wp_step. wp_step. destruct (playlist s) as [|t pl] eqn:Hs; [done|].
  assert (Hlen : 0 < Z.of_nat (length (t :: pl))) by (simpl; lia).
  wp_auto.
  eapply wp_mono; [apply play_music_tracks|].
  intros o s' [Hsame Hidx].
  pose proof (mod_index_range (current_track_index s - 1) _ Hlen).
  simpl in *. split.
  - eapply same_tracks_trans; [|exact Hsame]. by repeat split.
  - destruct Hidx as [->|[? _]]; [done|lia].
Qed.

(** The index after pressing Next once per world of [ws]. *)
Lemma next_tracks_index ws : ∀ s,
  playlist s ≠ [] → shuffle_mode s = false →
  0 ≤ current_track_index s < Z.of_nat (length (playlist s)) →
  current_track_index (foldl (λ s' w, dispatch w EvNext s') s ws)
  = (current_track_index s + Z.of_nat (length ws)) `mod` Z.of_nat (length (playlist s)).
Proof.
  induction ws as [|w ws IH]; intros s Hpl Hsh Hidx.
  - simpl. rewrite Z.add_0_r. by rewrite Z.mod_small.
  - cbn [foldl].
    destruct (next_track_index w s Hpl Hsh) as [(Hp & _ & _ & Hs) Hi].
    assert (Hlen : 0 < Z.of_nat (length (playlist s))).
    { destruct (playlist s); [done|simpl; lia]. }
    rewrite IH.
    + rewrite Hp, Hi. cbn [length].
      rewrite Zplus_mod_idemp_l. f_equal. lia.
    + by rewrite Hp.
    + by rewrite Hs.
    + rewrite Hp, Hi. by apply mod_index_range.
Qed.

(** ** Sorting from the combobox, and sorting again *)

Lemma sort_selected_run w key s :
  dispatch w (EvSortSelected key) s
  = match playlist s with
    | [] => set_sort_dropdown key s
    | _ => sorted_player w (set_sort_dropdown key s)
    end.
Proof.
  unfold dispatch, run, callback. unfold mbind, M_bind, modify.
  destruct (playlist s) eqn:Hpl.
  - by rewrite sort_playlist_empty.
  - rewrite sort_playlist_run; [done|]. simpl. by rewrite Hpl.
Qed.

Lemma after_sort_empty w s : playlist s = [] → playlist (after_sort w s) = [].
Proof. intros H. unfold after_sort. rewrite H. by repeat case_match. Qed.

Lemma sort_selected_playlist w key s :
  playlist (dispatch w (EvSortSelected key) s)
  = playlist (after_sort w (set_sort_dropdown key s)).
Proof.
  rewrite sort_selected_run. destruct (playlist s) eqn:Hpl.
  - by rewrite after_sort_empty.
  - apply sorted_player_playlist.
Qed.

Lemma known_info_cached w' w l c p :
  p ∈ l → known_info w' (cache_all w l c) p = known_info w c p.
Proof.
  intros Hp. unfold known_info at 1. by rewrite (cache_all_lookup w l c p Hp).
Qed.

(** Sorting what [after_sort] left, with the cache it left, changes
    nothing, whatever the files have become. *)
Lemma after_sort_again w w' s s1 :
  playlist s1 = playlist (after_sort w s) →
  track_metadata s1 = track_metadata (after_sort w s) →
  sort_dropdown s1 = sort_dropdown s →
  playlist (after_sort w' s1) = playlist s1.
Proof.
  intros Hpl Htm Hkey. unfold after_sort at 1. rewrite Hkey, Hpl, Htm.
  unfold after_sort.
  destruct (String.eqb (sort_dropdown s) "Name") eqn:E1; simpl.
  { erewrite sorted_by_ext; [by apply sorted_by_idemp; apply _|].
    intros p Hp. simpl. f_equal. apply known_info_cached.
    by rewrite sorted_by_perm in Hp by apply _. }
  destruct (String.eqb (sort_dropdown s) "Artist") eqn:E2; simpl.
  { erewrite sorted_by_ext; [by apply sorted_by_idemp; apply _|].
    intros p Hp. simpl. f_equal. apply known_info_cached.
    by rewrite sorted_by_perm in Hp by apply _. }
  destruct (String.eqb (sort_dropdown s) "Album") eqn:E3; simpl.
  { erewrite sorted_by_ext; [by apply sorted_by_idemp; apply _|].
    intros p Hp. simpl. f_equal. apply known_info_cached.
    by rewrite sorted_by_perm in Hp by apply _. }
  rewrite Hpl. unfold after_sort. by rewrite E1, E2, E3.
Qed.

Lemma relocated_metadata ct s :
  track_metadata (relocated ct s) = track_metadata s.
Proof. unfold relocated. by repeat case_match. Qed.

Lemma relocated_dropdown ct s : sort_dropdown (relocated ct s) = sort_dropdown s.
Proof. unfold relocated. by repeat case_match. Qed.

Lemma sorted_player_metadata w s :
  track_metadata (sorted_player w s) = track_metadata (after_sort w s).
Proof. unfold sorted_player. simpl. apply relocated_metadata. Qed.

Lemma sorted_player_dropdown w s :
  sort_dropdown (sorted_player w s) = sort_dropdown s.
Proof.
  unfold sorted_player. simpl. by rewrite relocated_dropdown, after_sort_dropdown.
Qed.

Lemma sorted_player_again w w' s :
  playlist (sorted_player w' (sorted_player w s)) = playlist (sorted_player w s).
Proof.
  rewrite (sorted_player_playlist w').
  apply (after_sort_again w w' s).
  - apply sorted_player_playlist.
  - apply sorted_player_metadata.
  - apply sorted_player_dropdown.
Qed.

Lemma sort_selected_again w w' key s :
  playlist (dispatch w' (EvSortSelected key) (dispatch w (EvSortSelected key) s))
  = playlist (dispatch w (EvSortSelected key) s).
Proof.
  rewrite (sort_selected_run w' key). rewrite (sort_selected_run w key).
  destruct (playlist s) eqn:Hpl.
  - simpl. by rewrite Hpl.
  - destruct (playlist (sorted_player w (set_sort_dropdown key s))) eqn:Hpl';
      [done|].
    rewrite <-Hpl'.
    assert (set_sort_dropdown key (sorted_player w (set_sort_dropdown key s))
            = sorted_player w (set_sort_dropdown key s)) as ->.
    { pose proof (sorted_player_dropdown w (set_sort_dropdown key s)) as Hd.
      change (sort_dropdown (set_sort_dropdown key s)) with key in Hd. revert Hd.
      generalize (sorted_player w (set_sort_dropdown key s)).
      intros sp <-. apply player_eta. }
    apply sorted_player_again.
Qed.

Lemma stable_sorted_by {K} `{EqDecision K} (lessb : K → K → bool)
    `{!StrictWeak lessb} (key : string → K) l :
  stable_sorted lessb key l (sorted_by lessb key l).
Proof.
  split; [by apply sorted_by_perm|]. split.
  - by apply sorted_by_sorted.
  - intros k. by apply sorted_by_stable.
Qed.

(** * Main theorems *)

Lemma demo_world_ok : world_ok demo_world.
Proof. intros a b Hab. simpl. lia. Qed.

Lemma demo_scanned_reachable : reachable demo_scanned.
Proof.
  unfold demo_scanned.
  repeat (apply reachable_step; [|apply demo_world_ok|exact I]).
  apply reachable_init.
Qed.

Lemma demo_playing_reachable : reachable demo_playing.
Proof.
  unfold demo_playing.
  apply reachable_step; [apply demo_scanned_reachable|apply demo_world_ok|exact I].
Qed.

Example demo_scanned_playlist :
  playlist demo_scanned = ["/m/A.mp3"; "/m/B.mp3"]
  ∧ current_track_index demo_scanned = -1.
Proof. by vm_compute. Qed.

Example demo_playing_index :
  playlist demo_playing = ["/m/A.mp3"; "/m/B.mp3"]
  ∧ current_track_index demo_playing = 0
  ∧ loaded (music demo_playing) = Some "/m/A.mp3".
Proof. by vm_compute. Qed.

(** C1. Whatever events the main loop has handled since start-up, in any
    environment, the current track index is the sentinel [-1] or satisfies
    [0 <= index < length of the playlist]. *)
Theorem current_index_in_range s :
  reachable s →
  current_track_index s = -1
  ∨ 0 ≤ current_track_index s < Z.of_nat (length (playlist s)).
Proof. intros Hs. by destruct (reachable_consistent s Hs) as [? _]. Qed.

Lemma current_index_in_range_witness :
  reachable demo_playing
  ∧ (current_track_index demo_playing = -1
     ∨ 0 ≤ current_track_index demo_playing
         < Z.of_nat (length (playlist demo_playing))).
Proof.
  split; [apply demo_playing_reachable|].
  apply (current_index_in_range demo_playing), demo_playing_reachable.
Defined.

(** C2. On a non-empty playlist, with shuffle off and a valid current
    index [i], one [next_track] sets the index to [(i + 1) mod length], and
    [length] successive calls bring it back to [i]. *)
Theorem next_track_cycle (w : world) (ws : list world) (s : player) :
  playlist s ≠ [] →
  shuffle_mode s = false →
  0 ≤ current_track_index s < Z.of_nat (length (playlist s)) →
  length ws = length (playlist s) →
  current_track_index (dispatch w EvNext s)
  = (current_track_index s + 1) `mod` Z.of_nat (length (playlist s))
  ∧ current_track_index (foldl (λ s' w', dispatch w' EvNext s') s ws)
    = current_track_index s.
Proof.
  intros Hpl Hsh Hidx Hws. split.
  - by apply next_track_index.
  - rewrite next_tracks_index by done. rewrite Hws.
    rewrite <-(Z.mul_1_l (Z.of_nat (length (playlist s)))) at 1.
    rewrite Z_mod_plus_full. by apply Z.mod_small.
Qed.

Lemma next_track_cycle_witness :
  current_track_index (dispatch demo_world EvNext demo_playing)
  = (current_track_index demo_playing + 1)
    `mod` Z.of_nat (length (playlist demo_playing))
  ∧ current_track_index
      (foldl (λ s' w', dispatch w' EvNext s') demo_playing [demo_world; demo_world])
    = current_track_index demo_playing.
Proof.
  apply (next_track_cycle demo_world [demo_world; demo_world] demo_playing).
  - by vm_compute.
  - by vm_compute.
  - by vm_compute.
  - by vm_compute.
Defined.

(** Three tracks, the first one current: Next goes to 1, 2 and back to 0. *)
Example next_three_tracks :
  let s := set_current_track_index 0
             (set_playlist ["/m/A.mp3"; "/m/B.mp3"; "/m/C.mp3"] init_player) in
  let s1 := dispatch demo_world EvNext s in
  let s2 := dispatch demo_world EvNext s1 in
  let s3 := dispatch demo_world EvNext s2 in
  (current_track_index s1, current_track_index s2, current_track_index s3)
  = (1, 2, 0).
Proof. by vm_compute. Qed.

(** C3. On a non-empty playlist, with shuffle off and a valid current
    index, [previous_track] after [next_track] restores the index;
    [previous_track] computes [(current - 1) mod length] and so goes from
    index 0 to [length - 1]. *)
Theorem previous_inverts_next (w w' : world) (s : player) :
  playlist s ≠ [] →
  shuffle_mode s = false →
  0 ≤ current_track_index s < Z.of_nat (length (playlist s)) →
  current_track_index (dispatch w' EvPrevious (dispatch w EvNext s))
  = current_track_index s
  ∧ current_track_index (dispatch w EvPrevious s)
    = (current_track_index s - 1) `mod` Z.of_nat (length (playlist s))
  ∧ (current_track_index s = 0 →
     current_track_index (dispatch w EvPrevious s)
     = Z.of_nat (length (playlist s)) - 1).
Proof.
  intros Hpl Hsh Hidx.
  destruct (next_track_index w s Hpl Hsh) as [(Hp & _) Hi].
  destruct (previous_track_index w s Hpl) as [_ Hprev].
  split; [|split].
  - destruct (previous_track_index w' (dispatch w EvNext s)) as [_ ->];
      [by rewrite Hp|].
    rewrite Hp, Hi, Zminus_mod_idemp_l.
    replace (current_track_index s + 1 - 1) with (current_track_index s) by lia.
    by apply Z.mod_small.
  - done.
  - intros H0. rewrite Hprev, H0.
    replace (0 - 1) with (Z.of_nat (length (playlist s)) - 1
                          + (-1) * Z.of_nat (length (playlist s))) by lia.
    rewrite Z_mod_plus_full. apply Z.mod_small. lia.
Qed.

Lemma previous_inverts_next_witness :
  current_track_index
    (dispatch demo_world EvPrevious (dispatch demo_world EvNext demo_playing))
  = current_track_index demo_playing
  ∧ current_track_index (dispatch demo_world EvPrevious demo_playing)
    = (current_track_index demo_playing - 1)
      `mod` Z.of_nat (length (playlist demo_playing))
  ∧ (current_track_index demo_playing = 0 →
     current_track_index (dispatch demo_world EvPrevious demo_playing)
     = Z.of_nat (length (playlist demo_playing)) - 1).
Proof.
  apply (previous_inverts_next demo_world demo_world demo_playing).
  - by vm_compute.
  - by vm_compute.
  - by vm_compute.
Defined.

(** C10. On a non-empty playlist of length [n], [previous_track] called
    while the index is the sentinel [-1] sets the index to [(n - 2) mod n]:
    the second-to-last track when [n >= 2], index 0 when [n = 1]. *)
Theorem previous_from_sentinel (w : world) (s : player) :
  playlist s ≠ [] →
  current_track_index s = -1 →
  current_track_index (dispatch w EvPrevious s)
  = (Z.of_nat (length (playlist s)) - 2) `mod` Z.of_nat (length (playlist s))
  ∧ (2 ≤ Z.of_nat (length (playlist s)) →
     current_track_index (dispatch w EvPrevious s)
     = Z.of_nat (length (playlist s)) - 2)
  ∧ (length (playlist s) = 1%nat →
     current_track_index (dispatch w EvPrevious s) = 0).
Proof.
  intros Hpl Hidx.
  destruct (previous_track_index w s Hpl) as [_ Hprev].
  rewrite Hprev, Hidx.
  assert (Heq : (-1 - 1) `mod` Z.of_nat (length (playlist s))
                = (Z.of_nat (length (playlist s)) - 2)
                  `mod` Z.of_nat (length (playlist s))).
  { replace (Z.of_nat (length (playlist s)) - 2)
      with (-1 - 1 + 1 * Z.of_nat (length (playlist s))) by lia.
    by rewrite Z_mod_plus_full. }
  rewrite Heq. split; [done|]. split.
  - intros Hn. apply Z.mod_small. lia.
  - intros ->. reflexivity.
Qed.

Lemma previous_from_sentinel_witness :
  current_track_index (dispatch demo_world EvPrevious demo_scanned)
  = (Z.of_nat (length (playlist demo_scanned)) - 2)
    `mod` Z.of_nat (length (playlist demo_scanned))
  ∧ (2 ≤ Z.of_nat (length (playlist demo_scanned)) →
     current_track_index (dispatch demo_world EvPrevious demo_scanned)
     = Z.of_nat (length (playlist demo_scanned)) - 2)
  ∧ (length (playlist demo_scanned) = 1%nat →
     current_track_index (dispatch demo_world EvPrevious demo_scanned) = 0).
Proof.
  apply (previous_from_sentinel demo_world demo_scanned).
  - by vm_compute.
  - by vm_compute.
Defined.

Example previous_from_sentinel_demo :
  current_track_index (dispatch demo_world EvPrevious demo_scanned) = 0
  ∧ loaded (music (dispatch demo_world EvPrevious demo_scanned)) = Some "/m/A.mp3".
Proof. by vm_compute. Qed.

(** C7. After [clear_playlist], from any state, the playlist is empty, the
    metadata cache is empty, the current index is the sentinel, and
    playback is stopped with the paused flag false. *)
Theorem clear_playlist_resets (s : player) :
  (clear_playlist s).1 = Returned ()
  ∧ playlist (run clear_playlist s) = []
  ∧ track_metadata (run clear_playlist s) = ∅
  ∧ current_track_index (run clear_playlist s) = -1
  ∧ is_paused (run clear_playlist s) = false
  ∧ playing (music (run clear_playlist s)) = false
  ∧ mpaused (music (run clear_playlist s)) = false
  ∧ playlist_box (run clear_playlist s) = Listbox [] [].
Proof. unfold run. rewrite clear_playlist_run. by repeat split. Qed.

Lemma extract_no_tags w p :
  MutagenFile w p = MutagenNone ∨ MutagenFile w p = MutagenAudio None
  ∨ MutagenFile w p = MutagenAudio (Some ∅) →
  (extract_track_info w p init_player).1 = Returned (fallback_info p).
Proof.
  unfold extract_track_info, call_MutagenFile.
  by intros [->|[->| ->]].
Qed.

Lemma extract_mutagen_raises w p :
  MutagenFile w p = MutagenRaises →
  (extract_track_info w p init_player).1 = Raised MutagenError.
Proof. unfold extract_track_info, call_MutagenFile. by intros ->. Qed.

(** C8. For every path, environment and state, [get_track_info] returns
    and never raises.  When the path is not cached and extraction fails
    (the tag reader raises, as for a missing file, or reading a tag
    raises), or the file has no tags, the result is the fallback: the file
    name's stem, "Unknown Artist", "Unknown Album".  The result is stored
    under the path, and a second lookup returns the same triple whatever
    the file has become. *)
Theorem get_track_info_total (w : world) (p : string) (s : player) :
  ∃ info,
    get_track_info w p s
    = (Returned info,
       set_track_metadata (<[p := info]> (track_metadata s)) s)
    ∧ (track_metadata s !! p = None →
       (∃ e, (extract_track_info w p s).1 = Raised e) →
       info = fallback_info p)
    ∧ (track_metadata s !! p = None →
       MutagenFile w p = MutagenRaises ∨ MutagenFile w p = MutagenNone
       ∨ MutagenFile w p = MutagenAudio None
       ∨ MutagenFile w p = MutagenAudio (Some ∅) →
       info = fallback_info p)
    ∧ (∀ w', get_track_info w' p (run (get_track_info w p) s)
             = (Returned info, run (get_track_info w p) s)).
Proof.
  exists (known_info w (track_metadata s) p).
  split; [apply get_track_info_run|]. split; [|split].
  - intros Hmiss [e He]. rewrite extract_track_info_run in He. simpl in He.
    unfold known_info. by rewrite Hmiss, He.
  - intros Hmiss Hfile. unfold known_info. rewrite Hmiss.
    destruct Hfile as [Hr|Hn].
    + by rewrite extract_mutagen_raises.
    + by rewrite extract_no_tags.
  - intros w'. unfold run. rewrite get_track_info_run. cbn [snd].
    rewrite get_track_info_run. simpl.
    unfold known_info at 1 3. rewrite lookup_insert_eq.
    unfold set_track_metadata. simpl. by rewrite insert_insert_eq.
Qed.

Lemma get_track_info_total_witness :
  get_track_info demo_world "/m/missing.mp3" init_player
  = (Returned (TrackInfo "missing" "Unknown Artist" "Unknown Album"),
     set_track_metadata
       {[ "/m/missing.mp3" := TrackInfo "missing" "Unknown Artist" "Unknown Album" ]}
       init_player).
Proof.
  destruct (get_track_info_total demo_world "/m/missing.mp3" init_player)
    as (info & Hrun & _ & Hfail & _).
  rewrite Hrun, (Hfail eq_refl (or_introl eq_refl)). reflexivity.
Defined.

Example get_track_info_partial_tags :
  (get_track_info demo_world "/m/B.mp3" init_player).1
  = Returned (TrackInfo "Apple" "Beatles" "Unknown Album").
Proof. by vm_compute. Qed.

(** C9, as amended.  On a non-empty playlist with a valid current index,
    [end_seek] at [position] sets the seek offset to [position] and leaves
    the paused flag, the index and the playlist as they were.  When the
    mixer accepts the file and the start position, it returns having
    reloaded the current track and started it at [position] seconds, and
    the mixer is paused again exactly when the session was paused. *)
Theorem end_seek_keeps_pause (w : world) (s : player) (position : Z)
    (track : string) :
  0 ≤ current_track_index s < Z.of_nat (length (playlist s)) →
  playlist s !! Z.to_nat (current_track_index s) = Some track →
  seek_offset (run (end_seek w position) s) = position
  ∧ is_paused (run (end_seek w position) s) = is_paused s
  ∧ current_track_index (run (end_seek w position) s) = current_track_index s
  ∧ playlist (run (end_seek w position) s) = playlist s
  ∧ (music_load_ok w track = true →
     music_play_ok w track position = true →
     (end_seek w position s).1 = Returned ()
     ∧ loaded (music (run (end_seek w position) s)) = Some track
     ∧ playing (music (run (end_seek w position) s)) = true
     ∧ started_at (music (run (end_seek w position) s)) = position
     ∧ mpaused (music (run (end_seek w position) s)) = is_paused s
     ∧ is_seeking (run (end_seek w position) s) = false).
Proof.
  intros Hidx Htrack.
  destruct (py_index_valid (playlist s) (current_track_index s) Hidx) as [Hpy _].
  rewrite Htrack in Hpy.
  change (wp (end_seek w position)
    (λ o s', seek_offset s' = position ∧ is_paused s' = is_paused s
             ∧ current_track_index s' = current_track_index s
             ∧ playlist s' = playlist s
             ∧ (music_load_ok w track = true →
                music_play_ok w track position = true →
                o = Returned () ∧ loaded (music s') = Some track
                ∧ playing (music s') = true
                ∧ started_at (music s') = position
                ∧ mpaused (music s') = is_paused s
                ∧ is_seeking s' = false)) s).
  unfold end_seek. wp_step. wp_step. wp_step. wp_step.
  destruct (playlist s) as [|t pl] eqn:Hpl; [simpl in Hidx; lia|].
  destruct (current_track_index s =? -1) eqn:E; [apply Z.eqb_eq in E; lia|].
  wp_steps. rewrite Hpy. wp_steps.
  destruct (music_load_ok w track) eqn:Hload; wp_steps;
    [|by repeat split].
  simpl. destruct (music_play_ok w track position) eqn:Hplay; wp_steps;
    [|by repeat split].
  destruct (is_paused s) eqn:Hp; wp_steps; simpl; by rewrite ?Hp.
Qed.

Lemma end_seek_keeps_pause_witness :
  seek_offset (run (end_seek demo_world 30) demo_paused) = 30
  ∧ is_paused (run (end_seek demo_world 30) demo_paused) = true
  ∧ loaded (music (run (end_seek demo_world 30) demo_paused)) = Some "/m/A.mp3"
  ∧ started_at (music (run (end_seek demo_world 30) demo_paused)) = 30
  ∧ mpaused (music (run (end_seek demo_world 30) demo_paused)) = true.
Proof.
  destruct (end_seek_keeps_pause demo_world demo_paused 30 "/m/A.mp3")
    as (Hoff & Hflag & _ & _ & Hmixer).
  - by vm_compute.
  - by vm_compute.
  - destruct (Hmixer eq_refl eq_refl) as (_ & Hl & _ & Hst & Hmp & _).
    split; [exact Hoff|]. split; [exact Hflag|]. split; [exact Hl|].
    split; [exact Hst|exact Hmp].
Defined.

(** C9 as the specification states it, without the condition on the
    mixer, fails: [end_seek] does not catch the mixer's error, so when the
    mixer refuses the file of the paused demo session the seek raises
    after the stop and nothing is loaded anew, started or paused. *)
Lemma end_seek_unguarded_counterexample :
  ¬ (∀ (w : world) (s : player) (position : Z) (track : string),
       0 ≤ current_track_index s < Z.of_nat (length (playlist s)) →
       playlist s !! Z.to_nat (current_track_index s) = Some track →
       seek_offset (run (end_seek w position) s) = position
       ∧ is_paused (run (end_seek w position) s) = is_paused s
       ∧ loaded (music (run (end_seek w position) s)) = Some track
       ∧ playing (music (run (end_seek w position) s)) = true
       ∧ started_at (music (run (end_seek w position) s)) = position
       ∧ mpaused (music (run (end_seek w position) s)) = is_paused s).
Proof.
  intros Hclaim.
  destruct (Hclaim refusing_world demo_paused 30 "/m/A.mp3")
    as (_ & _ & _ & Hplaying & _); [by vm_compute|by vm_compute|].
  revert Hplaying. by vm_compute.
Qed.

(** Without the mixer's consent the seek stops at the load, after the
    offset is set. *)
Example end_seek_load_refused :
  let w := {| MutagenFile := MutagenFile demo_world;
              os_walk := os_walk demo_world;
              random_randint := random_randint demo_world;
              music_load_ok := λ _, false;
              music_play_ok := music_play_ok demo_world;
              sound_get_length := sound_get_length demo_world;
              music_get_pos := music_get_pos demo_world |} in
  (end_seek w 30 demo_paused).1 = Raised PygameError
  ∧ seek_offset (run (end_seek w 30) demo_paused) = 30
  ∧ is_paused (run (end_seek w 30) demo_paused) = true
  ∧ playing (music (run (end_seek w 30) demo_paused)) = false.
Proof. by vm_compute. Qed.

Example demo_paused_flag :
  is_paused demo_paused = true ∧ mpaused (music demo_paused) = true.
Proof. by vm_compute. Qed.

(** C4. For every state the program can reach and every sort key chosen in
    the combobox: a sentinel index stays the sentinel; an index that is not
    the sentinel points, after the sort, at the path it pointed at before;
    and the index update resets the index to the sentinel when the path is
    not in the list. *)
Theorem sort_keeps_current_track (w : world) (key : string) (s : player) :
  reachable s →
  (current_track_index s = -1 →
   current_track_index (dispatch w (EvSortSelected key) s) = -1)
  ∧ (current_track_index s ≠ -1 →
     ∃ p, playlist s !! Z.to_nat (current_track_index s) = Some p
          ∧ 0 ≤ current_track_index (dispatch w (EvSortSelected key) s)
          ∧ playlist (dispatch w (EvSortSelected key) s)
              !! Z.to_nat (current_track_index (dispatch w (EvSortSelected key) s))
            = Some p)
  ∧ (∀ p s0, p ≠ EmptyString → p ∉ playlist s0 →
             current_track_index (run (relocate_current (Some p)) s0) = -1).
Proof.
  intros Hs. destruct (reachable_consistent s Hs) as (Hidx & _ & _ & Hne & _).
  rewrite sort_selected_run. split; [|split].
  - intros Hi. destruct (playlist s) eqn:Hpl; [done|].
    rewrite sorted_player_index.
    assert (current_track_of (set_sort_dropdown key s) = None) as ->.
    { unfold current_track_of. simpl. by rewrite Hi. }
    simpl. by rewrite after_sort_index.
  - intros Hi. destruct Hidx as [?|Hidx]; [done|].
    destruct (py_index_valid (playlist s) (current_track_index s) Hidx)
      as [Hpy [p Hp]].
    exists p. split; [done|].
    destruct (playlist s) eqn:Hpl; [simpl in Hidx; lia|]. rewrite <-Hpl in *.
    assert (Hct : current_track_of (set_sort_dropdown key s) = Some p).
    { unfold current_track_of. simpl.
      destruct (_ && _) eqn:E; [by rewrite Hpy|].
      apply andb_false_iff in E as [?%Z.leb_gt|?%Z.ltb_ge]; lia. }
    destruct (relocated_found p (after_sort w (set_sort_dropdown key s)))
      as (i & _ & Hi' & Hl).
    + intros ->. apply list_elem_of_lookup_2 in Hp.
      by eapply Forall_forall in Hne.
    + rewrite after_sort_perm. simpl. by eapply list_elem_of_lookup_2.
    + rewrite sorted_player_index, sorted_player_playlist, Hct, Hi'.
      split; [lia|]. by rewrite Nat2Z.id.
  - intros p s0 Hp Hin. unfold run. rewrite relocate_current_run. simpl.
    apply list_index_None in Hin. destruct p; [done|]. simpl. by rewrite Hin.
Qed.

Lemma sort_keeps_current_track_witness :
  playlist demo_playing !! Z.to_nat (current_track_index demo_playing)
  = Some "/m/A.mp3"
  ∧ playlist (dispatch demo_world (EvSortSelected "Name") demo_playing)
      !! Z.to_nat
           (current_track_index
              (dispatch demo_world (EvSortSelected "Name") demo_playing))
    = Some "/m/A.mp3".
Proof.
  destruct (sort_keeps_current_track demo_world "Name" demo_playing
              demo_playing_reachable) as (_ & Hkeep & _).
  destruct Hkeep as (p & Hp & _ & Hp'); [by vm_compute|].
  assert (p = "/m/A.mp3") as -> by (vm_compute in Hp; congruence).
  split; [reflexivity|exact Hp'].
Defined.

(** The scenario of the specification: A is "Zebra", B is "Apple", A is
    current at index 0; sorting by name gives [B, A] and index 1. *)
Example sort_by_name_demo :
  playlist (dispatch demo_world (EvSortSelected "Name") demo_playing)
  = ["/m/B.mp3"; "/m/A.mp3"]
  ∧ current_track_index (dispatch demo_world (EvSortSelected "Name") demo_playing)
    = 1.
Proof. by vm_compute. Qed.

(** C5. Choosing Name, Artist or Album leaves the playlist a permutation of
    what it was, in non-decreasing order of the key (the lowercased title;
    the pair of lowercased artist and title; the pair of lowercased album
    and title), with tracks of equal key in their former order; sorting
    again by the same key changes nothing. *)
Theorem sort_stable_idempotent (w : world) (s : player) :
  stable_sorted String.ltb (λ p, name_key (known_info w (track_metadata s) p))
    (playlist s) (playlist (dispatch w (EvSortSelected "Name") s))
  ∧ stable_sorted pair_ltb (λ p, artist_key (known_info w (track_metadata s) p))
      (playlist s) (playlist (dispatch w (EvSortSelected "Artist") s))
  ∧ stable_sorted pair_ltb (λ p, album_key (known_info w (track_metadata s) p))
      (playlist s) (playlist (dispatch w (EvSortSelected "Album") s))
  ∧ ∀ key w',
      playlist (dispatch w' (EvSortSelected key) (dispatch w (EvSortSelected key) s))
      = playlist (dispatch w (EvSortSelected key) s).
Proof.
  rewrite !sort_selected_playlist. split; [|split; [|split]].
  - apply (stable_sorted_by String.ltb).
  - apply (stable_sorted_by pair_ltb).
  - apply (stable_sorted_by pair_ltb).
  - intros key w'. apply sort_selected_again.
Qed.

Example sort_case_insensitive :
  (stable_sort String.ltb
     [(lower "banana", 1%nat); (lower "Apple", 2%nat); (lower "apple", 3%nat);
      (lower "Cherry", 4%nat)]).*2
  = [2%nat; 3%nat; 1%nat; 4%nat].
Proof. reflexivity. Qed.

Lemma scan_dispatch_run w d s :
  dispatch w (EvScanDirectory d) s
  = if String.eqb d EmptyString then s
    else match playlist (scanned w d s) with
         | [] => scanned w d s
         | _ => sorted_player w (scanned w d s)
         end.
Proof. unfold dispatch, run, callback. by rewrite scan_directory_run. Qed.

Lemma scan_dispatch_perm w d s :
  String.eqb d EmptyString = false →
  playlist (dispatch w (EvScanDirectory d) s) ≡ₚ playlist (scanned w d s).
Proof.
  intros Hd. rewrite scan_dispatch_run, Hd.
  destruct (playlist (scanned w d s)) eqn:Hpl; [by rewrite Hpl|].
  rewrite <-Hpl. apply sorted_player_perm.
Qed.

(** C6. In every state the program can reach the playlist holds no path
    twice, and it still holds none after a scan.  The loops of a scan
    append, in order, candidate paths that were not in the playlist, and
    count them.  Scanning the same directory again, its contents
    unchanged, counts 0 new files and leaves the playlist as it was. *)
Theorem scan_adds_no_duplicates (w : world) (d : string) (s : player) :
  reachable s →
  NoDup (playlist s)
  ∧ NoDup (playlist (dispatch w (EvScanDirectory d) s))
  ∧ (∃ new,
       playlist (run (scan_tree (os_walk w d)) s) = playlist s ++ new
       ∧ (scan_tree (os_walk w d) s).1 = Returned (length new)
       ∧ NoDup new
       ∧ ∀ p, p ∈ new → p ∉ playlist s ∧ p ∈ tree_paths (os_walk w d))
  ∧ (∀ w', os_walk w' d = os_walk w d →
       (d ≠ EmptyString →
        (scan_tree (os_walk w' d) (dispatch w (EvScanDirectory d) s)).1
        = Returned 0%nat)
       ∧ playlist (dispatch w' (EvScanDirectory d)
                     (dispatch w (EvScanDirectory d) s))
         = playlist (dispatch w (EvScanDirectory d) s)).
Proof.
  intros Hs. destruct (reachable_consistent s Hs) as (Hidx & Hrows & Hsel & Hne & Hnd).
  assert (Hc : consistent s) by done.
  split; [done|]. split; [|split].
  - by destruct (scan_directory_consistent w d s Hc) as (_ & _ & _ & _ & ?).
  - destruct (add_paths_prefix (tree_paths (os_walk w d)) (playlist s))
      as [new Hnew].
    pose proof (add_paths_NoDup (tree_paths (os_walk w d)) _ Hnd) as Hnd'.
    rewrite Hnew in Hnd'. apply NoDup_app in Hnd' as (_ & Hdisj & Hndn).
    exists new. unfold run. rewrite scan_tree_run. simpl.
    split; [done|]. split; [|split; [done|]].
    + rewrite Hnew, length_app. f_equal. lia.
    + intros p Hp. split; [intros Hin; by eapply Hdisj|].
      assert (Hin : p ∈ add_paths (playlist s) (tree_paths (os_walk w d))).
      { rewrite Hnew. apply elem_of_app. by right. }
      apply add_paths_elem in Hin as [Hin|Hin]; [|done].
      by destruct (Hdisj p Hin).
  - intros w' Hwalk.
    destruct (String.eqb_spec d EmptyString) as [->|Hd].
    { split; [done|]. by rewrite !scan_dispatch_run. }
    assert (Hd' : String.eqb d EmptyString = false) by by apply String.eqb_neq.
    set (s1 := dispatch w (EvScanDirectory d) s).
    assert (Hall : ∀ p, p ∈ tree_paths (os_walk w' d) → p ∈ playlist s1).
    { intros p Hp. unfold s1. rewrite scan_dispatch_perm by done.
      unfold scanned. simpl. apply add_paths_elem. right. by rewrite <-Hwalk. }
    assert (Hsame : scanned w' d s1 = s1).
    { unfold scanned. rewrite add_paths_present by done. apply set_playlist_same. }
    split.
    + intros _. rewrite scan_tree_run. simpl.
      rewrite add_paths_present by done. f_equal. lia.
    + rewrite (scan_dispatch_run w' d s1), Hd', Hsame.
      destruct (playlist s1) eqn:Hpl1; [done|]. rewrite <-Hpl1.
      unfold s1 in *. rewrite scan_dispatch_run, Hd' in *.
      destruct (playlist (scanned w d s)) eqn:Hpl; [by rewrite Hpl in Hpl1|].
      apply sorted_player_again.
Qed.

Lemma scan_adds_no_duplicates_witness :
  NoDup (playlist demo_playing)
  ∧ NoDup (playlist (dispatch demo_world (EvScanDirectory "/m") demo_playing))
  ∧ (scan_tree (os_walk demo_world "/m")
       (dispatch demo_world (EvScanDirectory "/m") demo_playing)).1
    = Returned 0%nat.
Proof.
  destruct (scan_adds_no_duplicates demo_world "/m" demo_playing
              demo_playing_reachable) as (H1 & H2 & _ & H4).
  destruct (H4 demo_world eq_refl) as [H0 _].
  split; [exact H1|]. split; [exact H2|]. by apply H0.
Defined.

Example scan_demo :
  (scan_tree (os_walk demo_world "/m") init_player).1 = Returned 2%nat
  ∧ playlist (run (scan_tree (os_walk demo_world "/m")) init_player)
    = ["/m/A.mp3"; "/m/B.mp3"].
Proof. by vm_compute. Qed.

(** * Further properties of the code *)

(** ** What the playback methods leave alone *)

Lemma stop_music_run s : stop_music s = (Returned (), stopped s).
Proof. reflexivity. Qed.

Lemma pause_music_run s :
  pause_music s
  = (Returned (),
     if busy s
     then set_is_paused true
            (set_music (Mixer (loaded (music s)) true true (started_at (music s))
                          (mvolume (music s))) s)
     else s).
Proof.
  unfold pause_music, busy. unfold_M. unfold music_get_busy, music_pause, gets, modify.
  destruct (playing (music s)) eqn:Hp; simpl; [|done].
  destruct (mpaused (music s)); simpl; [done|]. by rewrite Hp.
Qed.

Lemma next_track_tracks w s : wp (next_track w) (λ _ s', same_tracks s s') s.
Proof.
  unfold next_track, stop_music. wp_step. wp_step.
  destruct (playlist s) eqn:Hpl. { wp_step. apply same_tracks_refl. }
  wp_auto; (eapply wp_mono; [apply play_music_tracks|]); intros o s' [Hsame _];
    (eapply same_tracks_trans; [|exact Hsame]); by repeat split.
Qed.

Lemma previous_track_tracks w s : wp (previous_track w) (λ _ s', same_tracks s s') s.
Proof.
  unfold previous_track, stop_music. wp_step. wp_step.
  destruct (playlist s) eqn:Hpl. { wp_step. apply same_tracks_refl. }
  wp_auto; (eapply wp_mono; [apply play_music_tracks|]); intros o s' [Hsame _];
    (eapply same_tracks_trans; [|exact Hsame]); by repeat split.
Qed.

Lemma play_selected_track_tracks w s :
  wp (play_selected_track w) (λ _ s', same_tracks s s') s.
Proof.
  unfold play_selected_track, stop_music. wp_step. wp_step.
  destruct (selected (playlist_box s)) eqn:Hsel. { wp_step. apply same_tracks_refl. }
  wp_auto; (eapply wp_mono; [apply play_music_tracks|]); intros o s' [Hsame _];
    (eapply same_tracks_trans; [|exact Hsame]); by repeat split.
Qed.

Lemma end_seek_tracks w pos s : wp (end_seek w pos) (λ _ s', same_tracks s s') s.
Proof. unfold end_seek, same_tracks. wp_auto; finish. Qed.

Lemma check_track_end_tracks w s :
  wp (check_track_end w) (λ _ s', same_tracks s s') s.
Proof.
  unfold wp. destruct (busy s || is_paused s) eqn:Hact.
  - rewrite check_track_end_active; [|done]. cbn [fst snd].
    by destruct (same_tracks_time _ _ (refreshed_frame w s)) as (?&?&?&?).
  - apply orb_false_iff in Hact as [Hbusy Hp].
    rewrite check_track_end_idle; [|done..].
    pose proof (same_tracks_time _ _ (zeroed_frame s)) as Hzero.
    destruct (playlist s); [done|]. destruct (_ =? _); [done|].
    apply next_track_tracks.
Qed.

Lemma wp_same_tracks {A} (m : M A) s :
  wp m (λ _ s', same_tracks s s') s →
  playlist (run m s) = playlist s ∧ track_metadata (run m s) = track_metadata s.
Proof. unfold wp, run. by intros (?&?&?&?). Qed.

(** The events that neither scan, sort nor clear. *)
Lemma dispatch_tracks w e s :
  (∀ d, e ≠ EvScanDirectory d) → (∀ key, e ≠ EvSortSelected key) →
  e ≠ EvClearPlaylist →
  playlist (dispatch w e s) = playlist s
  ∧ track_metadata (dispatch w e s) = track_metadata s.
Proof.
  intros Hscan Hsort Hclear. unfold dispatch. destruct e; simpl; try done.
  - by destruct (Hscan directory).
  - by destruct (Hsort choice).
  - eapply wp_same_tracks, wp_mono; [apply play_music_tracks|]. by intros o s' [? _].
  - unfold run. rewrite pause_music_run. simpl. by destruct (busy s).
  - apply wp_same_tracks, previous_track_tracks.
  - apply wp_same_tracks, next_track_tracks.
  - unfold run, modify. simpl. by destruct (_ <? _)%nat.
  - apply wp_same_tracks, play_selected_track_tracks.
  - apply wp_same_tracks, end_seek_tracks.
  - apply wp_same_tracks. wp_step. wp_step.
    eapply wp_mono; [apply check_track_end_tracks|]. by intros o s' (?&?&?&?).
  - unfold run, modify. simpl. by destruct (_ && _).
Qed.

Lemma after_sort_metadata_old w s p info :
  track_metadata s !! p = Some info →
  track_metadata (after_sort w s) !! p = Some info.
Proof.
  intros Hp. unfold after_sort.
  repeat case_match; simpl; try done; by apply cache_all_lookup_old.
Qed.

Lemma after_sort_metadata_new w s p :
  sort_dropdown s = "Name" ∨ sort_dropdown s = "Artist" ∨ sort_dropdown s = "Album" →
  p ∈ playlist s →
  track_metadata (after_sort w s) !! p = Some (known_info w (track_metadata s) p).
Proof.
  intros Hkey Hp. unfold after_sort.
  destruct Hkey as [-> | [-> | ->]]; simpl; by apply cache_all_lookup.
Qed.

Lemma event_cases (e : event) :
  (∃ d, e = EvScanDirectory d) ∨ (∃ key, e = EvSortSelected key)
  ∨ e = EvClearPlaylist
  ∨ ((∀ d, e ≠ EvScanDirectory d) ∧ (∀ key, e ≠ EvSortSelected key)
     ∧ e ≠ EvClearPlaylist).
Proof. destruct e; eauto; by repeat right. Qed.

(** X1. Tracks enter the playlist by a scan and leave it by Clear only:
    every other event leaves the playlist a permutation of what it was,
    and every event other than a change of the sort key leaves it as it
    was, order included. *)
Theorem playlist_kept (w : world) (e : event) (s : player) :
  (∀ d, e ≠ EvScanDirectory d) →
  e ≠ EvClearPlaylist →
  playlist (dispatch w e s) ≡ₚ playlist s
  ∧ ((∀ key, e ≠ EvSortSelected key) → playlist (dispatch w e s) = playlist s).
Proof.
  intros Hscan Hclear.
  destruct (event_cases e) as [[d ->]|[[key ->]|[->|(_ & Hsort & _)]]].
  - by destruct (Hscan d).
  - split; [|by intros H; destruct (H key)].
    rewrite sort_selected_run. destruct (playlist s) eqn:Hpl.
    + simpl. by rewrite Hpl.
    + rewrite sorted_player_perm. simpl. by rewrite Hpl.
  - done.
  - by destruct (dispatch_tracks w e s Hscan Hsort Hclear) as [-> _].
Qed.

Lemma playlist_kept_witness :
  playlist (dispatch demo_world EvNext demo_playing) = playlist demo_playing.
Proof.
  apply (playlist_kept demo_world EvNext demo_playing); done.
Defined.

(** X2. A metadata entry, once cached, stays as it is under every event
    other than Clear: no event replaces or evicts it, whatever the files
    have become. *)
Theorem cache_entry_kept (w : world) (e : event) (s : player) (p : string)
    (info : track_info) :
  e ≠ EvClearPlaylist →
  track_metadata s !! p = Some info →
  track_metadata (dispatch w e s) !! p = Some info.
Proof.
  intros Hclear Hp.
  destruct (event_cases e) as [[d ->]|[[key ->]|[->|(Hscan & Hsort & _)]]].
  - rewrite scan_dispatch_run. destruct (String.eqb d EmptyString); [done|].
    destruct (playlist (scanned w d s)) eqn:Hpl; [done|].
    rewrite sorted_player_metadata. by apply after_sort_metadata_old.
  - rewrite sort_selected_run. destruct (playlist s) eqn:Hpl; [done|].
    rewrite sorted_player_metadata. by apply after_sort_metadata_old.
  - done.
  - by destruct (dispatch_tracks w e s Hscan Hsort Hclear) as [_ ->].
Qed.

Lemma cache_entry_kept_witness :
  track_metadata (dispatch refusing_world EvNext demo_playing) !! "/m/A.mp3"
  = Some (TrackInfo "Zebra" "Abba" "Unknown Album").
Proof.
  apply (cache_entry_kept refusing_world EvNext demo_playing); [done|].
  by vm_compute.
Defined.

(** X3. Sorting a non-empty playlist by Name, Artist or Album leaves every
    track of the playlist in the metadata cache, with the triple the sort
    compared it by: the entry it had, or else what [get_track_info] reads
    for it. *)
Theorem sort_caches_every_track (w : world) (key : string) (s : player)
    (p : string) :
  key = "Name" ∨ key = "Artist" ∨ key = "Album" →
  p ∈ playlist s →
  track_metadata (dispatch w (EvSortSelected key) s) !! p
  = Some (known_info w (track_metadata s) p).
Proof.
  intros Hkey Hp. rewrite sort_selected_run.
  destruct (playlist s) eqn:Hpl; [by apply elem_of_nil in Hp|].
  rewrite sorted_player_metadata. rewrite <-Hpl in Hp.
  by apply (after_sort_metadata_new w (set_sort_dropdown key s)).
Qed.

Lemma sort_caches_every_track_witness :
  track_metadata (dispatch demo_world (EvSortSelected "Album") demo_playing)
    !! "/m/B.mp3"
  = Some (known_info demo_world (track_metadata demo_playing) "/m/B.mp3").
Proof.
  apply (sort_caches_every_track demo_world "Album" demo_playing "/m/B.mp3").
  - right. by right.
  - vm_compute. repeat constructor.
Defined.

(** ** Starting, pausing and stopping *)

Lemma play_music_started w s track :
  playlist s ≠ [] → is_paused s = false →
  py_index (playlist s) (play_index s) = Some track →
  music_load_ok w track = true → music_play_ok w track 0 = true →
  play_music w s = (Returned (), started w track (play_index s) s).
Proof.
  intros Hpl Hp Htrack Hload Hplay. apply wp_eq.
  unfold play_music, play_index in *. wp_step. wp_step.
  destruct (playlist s) as [|t pl] eqn:Hs; [done|].
  wp_step. wp_step. rewrite Hp. wp_step. wp_step. wp_step.
  destruct (current_track_index s =? -1) eqn:E.
  - wp_steps. cbn [current_track_index set_current_track_index].
    rewrite Htrack. wp_steps. rewrite Hload. wp_steps.
    cbn [loaded music set_music]. rewrite Hplay. wp_steps.
    split; [done|]. unfold started. simpl. by destruct (_ <? _).
  - wp_steps. rewrite Htrack. wp_steps. rewrite Hload. wp_steps.
    cbn [loaded music set_music]. rewrite Hplay. wp_steps.
    split; [done|]. unfold started. simpl. by destruct (_ && _).
Qed.

Lemma play_music_refused w s track :
  playlist s ≠ [] → is_paused s = false →
  py_index (playlist s) (play_index s) = Some track →
  music_load_ok w track = false →
  play_music w s = (Raised PygameError, set_current_track_index (play_index s) s).
Proof.
  intros Hpl Hp Htrack Hload. apply wp_eq.
  unfold play_music, play_index in *. wp_step. wp_step.
  destruct (playlist s) as [|t pl] eqn:Hs; [done|].
  wp_step. wp_step. rewrite Hp. wp_step. wp_step. wp_step.
  destruct (current_track_index s =? -1) eqn:E.
  - wp_steps. cbn [current_track_index set_current_track_index].
    rewrite Htrack. wp_steps. rewrite Hload. by wp_steps.
  - wp_steps. rewrite Htrack. wp_steps. rewrite Hload. wp_steps.
    split; [done|]. by destruct s.
Qed.

Lemma play_music_resumed w s :
  playlist s ≠ [] → is_paused s = true →
  play_music w s
  = (Returned (),
     set_poll_timers (S (poll_timers s))
       (set_is_paused false
          (set_music (Mixer (loaded (music s)) (playing (music s)) false
                        (started_at (music s)) (mvolume (music s))) s))).
Proof.
  intros Hpl Hp. apply wp_eq. unfold play_music. wp_step. wp_step.
  destruct (playlist s) as [|t pl] eqn:Hs; [done|].
  wp_step. wp_step. rewrite Hp. by wp_steps.
Qed.

Lemma play_music_empty w s : playlist s = [] → play_music w s = (Returned (), s).
Proof. intros Hpl. unfold play_music. unfold_M. by rewrite Hpl. Qed.

Lemma next_track_run w s :
  playlist s ≠ [] → next_track w s = play_music w (cued (next_index w s) s).
Proof.
  intros Hpl. unfold next_track, next_index, cued. unfold_M.
  destruct (playlist s) as [|t pl] eqn:Hs; [done|].
  by destruct (shuffle_mode s).
Qed.

Lemma previous_track_run w s :
  playlist s ≠ [] →
  previous_track w s
  = play_music w
      (cued ((current_track_index s - 1) `mod` Z.of_nat (length (playlist s))) s).
Proof.
  intros Hpl. unfold previous_track, cued. unfold_M.
  by destruct (playlist s) as [|t pl] eqn:Hs.
Qed.

Lemma play_selected_track_run w s i sel :
  selected (playlist_box s) = i :: sel →
  play_selected_track w s = play_music w (cued (Z.of_nat i) s).
Proof. intros Hsel. unfold play_selected_track, cued. unfold_M. by rewrite Hsel. Qed.

(** [play_music] on a cued object whose index is inside the playlist. *)
Lemma play_music_cued w s i track :
  0 ≤ i → playlist s !! Z.to_nat i = Some track →
  music_load_ok w track = true → music_play_ok w track 0 = true →
  play_music w (cued i s) = (Returned (), started w track i (cued i s)).
Proof.
  intros Hi Htrack Hload Hplay.
  assert (play_index (cued i s) = i) as Hidx.
  { unfold play_index, cued. simpl. destruct (i =? -1) eqn:E; [|done].
    apply Z.eqb_eq in E. lia. }
  rewrite <-Hidx at 2. apply play_music_started; try done.
  - simpl. by intros Hnil; rewrite Hnil in Htrack.
  - rewrite Hidx. unfold py_index. simpl.
    by destruct (0 <=? i) eqn:E; [|apply Z.leb_gt in E; lia].
Qed.

Lemma py_index_nonneg {A} (l : list A) i : 0 ≤ i → py_index l i = l !! Z.to_nat i.
Proof.
  intros Hi. unfold py_index.
  by destruct (0 <=? i) eqn:E; [|apply Z.leb_gt in E; lia].
Qed.

Lemma lookup_nonempty {A} (l : list A) i x : l !! i = Some x → l ≠ [].
Proof. by intros H ->. Qed.

(** X4. On an object that is not paused, when the mixer accepts the file,
    [play_music] returns having loaded the track at the current index
    (the first track when the index was the sentinel) and started it from
    the beginning, also when a track was already playing: the seek offset
    is 0, the track length is the one the mixer reports, 100 when it
    reports none, the row of the track is the only selected row, and one
    more poll is pending. *)
Theorem play_starts_current_track (w : world) (s : player) (track : string) :
  is_paused s = false →
  0 ≤ play_index s →
  playlist s !! Z.to_nat (play_index s) = Some track →
  length (rows (playlist_box s)) = length (playlist s) →
  music_load_ok w track = true →
  music_play_ok w track 0 = true →
  (play_music w s).1 = Returned ()
  ∧ current_track_index (run (play_music w) s) = play_index s
  ∧ loaded (music (run (play_music w) s)) = Some track
  ∧ playing (music (run (play_music w) s)) = true
  ∧ mpaused (music (run (play_music w) s)) = false
  ∧ started_at (music (run (play_music w) s)) = 0
  ∧ seek_offset (run (play_music w) s) = 0
  ∧ is_paused (run (play_music w) s) = false
  ∧ track_length (run (play_music w) s)
    = Some match sound_get_length w track with
           | Some len => PyFloat len
           | None => PyInt 100
           end
  ∧ selected (playlist_box (run (play_music w) s)) = [Z.to_nat (play_index s)]
  ∧ poll_timers (run (play_music w) s) = S (poll_timers s)
  ∧ playlist (run (play_music w) s) = playlist s.
Proof.
  intros Hp Hi Htrack Hrows Hload Hplay. unfold run.
  rewrite (play_music_started w s track); try done.
  - simpl. repeat split; try done. rewrite Hrows.
    apply lookup_lt_Some in Htrack.
    destruct (0 <=? play_index s) eqn:E1; [|apply Z.leb_gt in E1; lia].
    destruct (play_index s <? Z.of_nat (length (playlist s))) eqn:E2;
      [done|apply Z.ltb_ge in E2; lia].
  - by eapply lookup_nonempty.
  - by rewrite py_index_nonneg.
Qed.

Lemma play_starts_current_track_witness :
  current_track_index demo_scanned = -1
  ∧ current_track_index (run (play_music demo_world) demo_scanned) = 0
  ∧ loaded (music (run (play_music demo_world) demo_scanned)) = Some "/m/A.mp3"
  ∧ playing (music (run (play_music demo_world) demo_scanned)) = true.
Proof.
  split; [by vm_compute|].
  destruct (play_starts_current_track demo_world demo_scanned "/m/A.mp3")
    as (_ & Hidx & Hl & Hpl & _);
    [by vm_compute|by vm_compute|by vm_compute|by vm_compute|done|done|].
  split; [exact Hidx|]. split; [exact Hl|exact Hpl].
Defined.

(** X5. When the mixer refuses the file, [play_music] on an object that
    is not paused raises the mixer's error having changed, of the player's
    own state, nothing but the index, which goes from the sentinel to 0:
    no poll is scheduled, and the selection, the seek offset and the track
    length are as before. *)
Theorem play_load_refused (w : world) (s : player) (track : string) :
  is_paused s = false →
  0 ≤ play_index s →
  playlist s !! Z.to_nat (play_index s) = Some track →
  music_load_ok w track = false →
  (play_music w s).1 = Raised PygameError
  ∧ current_track_index (run (play_music w) s) = play_index s
  ∧ poll_timers (run (play_music w) s) = poll_timers s
  ∧ playlist_box (run (play_music w) s) = playlist_box s
  ∧ seek_offset (run (play_music w) s) = seek_offset s
  ∧ track_length (run (play_music w) s) = track_length s
  ∧ is_paused (run (play_music w) s) = false
  ∧ playlist (run (play_music w) s) = playlist s.
Proof.
  intros Hp Hi Htrack Hload. unfold run.
  rewrite (play_music_refused w s track); try done.
  - by eapply lookup_nonempty.
  - by rewrite py_index_nonneg.
Qed.

Lemma play_load_refused_witness :
  (play_music refusing_world demo_scanned).1 = Raised PygameError
  ∧ current_track_index (run (play_music refusing_world) demo_scanned) = 0
  ∧ poll_timers (run (play_music refusing_world) demo_scanned) = 0%nat.
Proof.
  destruct (play_load_refused refusing_world demo_scanned "/m/A.mp3")
    as (Hraise & Hidx & Htimers & _);
    [by vm_compute|by vm_compute|by vm_compute|done|].
  split; [exact Hraise|]. split; [exact Hidx|]. rewrite Htimers. by vm_compute.
Defined.

(** X6. Pause followed by Play, on an object whose music is playing,
    gives back the object as it was, mixer included, without reloading
    the track; the only difference is one more pending poll. *)
Theorem pause_then_play_resumes (w w' : world) (s : player) :
  playlist s ≠ [] →
  busy s = true →
  is_paused s = false →
  dispatch w' EvPlay (dispatch w EvPause s)
  = set_poll_timers (S (poll_timers s)) s.
Proof.
  intros Hpl Hbusy Hp. unfold dispatch, run. simpl.
  rewrite pause_music_run, Hbusy. cbn [snd].
  rewrite play_music_resumed; [|done..]. simpl.
  unfold busy in Hbusy. apply andb_true_iff in Hbusy as [Hplaying Hmp].
  apply negb_true_iff in Hmp.
  destruct s as [? ? ? ? ? ? ? ? ? ? ? [? ? ? ? ?] ?]. simpl in *. by subst.
Qed.

Lemma pause_then_play_resumes_witness :
  dispatch demo_world EvPlay (dispatch demo_world EvPause demo_playing)
  = set_poll_timers (S (poll_timers demo_playing)) demo_playing.
Proof.
  apply (pause_then_play_resumes demo_world demo_world demo_playing);
    by vm_compute.
Defined.

(** X7. Pause sets the paused flag exactly when the mixer is busy: on a
    stopped or already paused object it changes nothing, so pressing
    Pause twice is the same as pressing it once. *)
Theorem pause_only_when_busy (w w' : world) (s : player) :
  is_paused (dispatch w EvPause s) = busy s || is_paused s
  ∧ (if busy s then mpaused (music (dispatch w EvPause s)) = true
     else dispatch w EvPause s = s)
  ∧ dispatch w' EvPause (dispatch w EvPause s) = dispatch w EvPause s.
Proof.
  unfold dispatch, run. simpl. rewrite !pause_music_run.
  destruct (busy s) eqn:Hbusy; cbn [snd].
  - split; [done|]. split; [done|].
    unfold busy at 1. by simpl.
  - by rewrite Hbusy.
Qed.

(** ** Moving to another track *)

Lemma next_index_range w s :
  playlist s ≠ [] → world_ok w →
  0 ≤ next_index w s < Z.of_nat (length (playlist s)).
Proof.
  intros Hpl Hw. unfold next_index.
  assert (0 < Z.of_nat (length (playlist s))).
  { destruct (playlist s); [done|simpl; lia]. }
  destruct (shuffle_mode s).
  - specialize (Hw 0 (Z.of_nat (length (playlist s)) - 1)). lia.
  - by apply mod_index_range.
Qed.

(** X8. Next, when the mixer accepts the file, returns with the track at
    the new index loaded and playing from the beginning, and the paused
    flag off, also when the session was paused.  The new index is
    [(index + 1) mod length] with shuffle off and the number drawn from
    [0 .. length - 1] with shuffle on; it is inside the playlist. *)
Theorem next_starts_track (w : world) (s : player) (track : string) :
  world_ok w →
  playlist s !! Z.to_nat (next_index w s) = Some track →
  music_load_ok w track = true →
  music_play_ok w track 0 = true →
  (next_track w s).1 = Returned ()
  ∧ 0 ≤ next_index w s < Z.of_nat (length (playlist s))
  ∧ current_track_index (dispatch w EvNext s) = next_index w s
  ∧ loaded (music (dispatch w EvNext s)) = Some track
  ∧ playing (music (dispatch w EvNext s)) = true
  ∧ mpaused (music (dispatch w EvNext s)) = false
  ∧ is_paused (dispatch w EvNext s) = false
  ∧ started_at (music (dispatch w EvNext s)) = 0
  ∧ seek_offset (dispatch w EvNext s) = 0
  ∧ poll_timers (dispatch w EvNext s) = S (poll_timers s).
Proof.
  intros Hw Htrack Hload Hplay.
  assert (playlist s ≠ []) as Hpl by by eapply lookup_nonempty.
  pose proof (next_index_range w s Hpl Hw) as Hrange.
  unfold dispatch, run. simpl. rewrite next_track_run; [|done].
  rewrite (play_music_cued w s _ track (proj1 Hrange) Htrack Hload Hplay).
  destruct Hrange. by repeat split.
Qed.

Lemma next_starts_track_witness :
  current_track_index (dispatch demo_world EvNext demo_paused) = 1
  ∧ loaded (music (dispatch demo_world EvNext demo_paused)) = Some "/m/B.mp3"
  ∧ is_paused demo_paused = true
  ∧ is_paused (dispatch demo_world EvNext demo_paused) = false.
Proof.
  destruct (next_starts_track demo_world demo_paused "/m/B.mp3")
    as (_ & _ & Hidx & Hl & _ & _ & Hp & _);
    [apply demo_world_ok|by vm_compute..|].
  split; [exact Hidx|]. split; [exact Hl|]. split; [by vm_compute|exact Hp].
Defined.

(** X9. Shuffle changes Next only.  With shuffle on, Next moves to the
    index the random generator returns for the bounds [0] and
    [length - 1], which may be the index it had, while Previous still
    moves to [(index - 1) mod length]. *)
Theorem shuffle_changes_next_only (w : world) (s : player) :
  world_ok w →
  playlist s ≠ [] →
  shuffle_mode s = true →
  current_track_index (dispatch w EvNext s)
  = random_randint w 0 (Z.of_nat (length (playlist s)) - 1)
  ∧ 0 ≤ current_track_index (dispatch w EvNext s) < Z.of_nat (length (playlist s))
  ∧ current_track_index (dispatch w EvPrevious s)
    = (current_track_index s - 1) `mod` Z.of_nat (length (playlist s)).
Proof.
  intros Hw Hpl Hsh.
  pose proof (next_index_range w s Hpl Hw) as Hrange.
  assert (current_track_index (dispatch w EvNext s) = next_index w s) as Hnext.
  { unfold dispatch, run. simpl. rewrite next_track_run; [|done].
    pose proof (play_music_tracks w (cued (next_index w s) s)) as Hplay.
    unfold wp in Hplay. destruct Hplay as [_ [Hidx|(Hidx & _ & _)]].
    - by rewrite Hidx.
    - simpl in Hidx. lia. }
  rewrite Hnext. split; [|split; [done|by apply previous_track_index]].
  unfold next_index. by rewrite Hsh.
Qed.

Lemma shuffle_changes_next_only_witness :
  current_track_index
    (dispatch demo_world EvNext (dispatch demo_world EvToggleShuffle demo_playing))
  = 0
  ∧ current_track_index
      (dispatch demo_world EvPrevious
         (dispatch demo_world EvToggleShuffle demo_playing))
    = 1.
Proof.
  destruct (shuffle_changes_next_only demo_world
              (dispatch demo_world EvToggleShuffle demo_playing))
    as (Hnext & _ & Hprev);
    [apply demo_world_ok|by vm_compute|by vm_compute|].
  split; [exact Hnext|exact Hprev].
Defined.



(** ** The poll *)

Lemma set_poll_timers_same s : set_poll_timers (poll_timers s) s = s.
Proof. apply player_eta. Qed.

Lemma poll_dispatch_run w s :
  dispatch w EvPollTimer s
  = run (check_track_end w) (set_poll_timers (pred (poll_timers s)) s).
Proof. reflexivity. Qed.

Lemma same_but_time_timers s s' :
  same_but_time s s' → poll_timers s' = poll_timers s.
Proof. by intros (sc & cur & tot & ->). Qed.

Lemma same_but_time_poll s s' n :
  same_but_time s s' →
  same_but_time (set_poll_timers n s) (set_poll_timers n s').
Proof. intros (sc & cur & tot & ->). by exists sc, cur, tot. Qed.

(** What the refresh writes when the position can be computed. *)
Lemma refresh_time_shows w s len pos :
  track_length s = Some len →
  current_position w (seek_offset s) = Returned pos →
  wp (try_except (refresh_time w) (λ _, mret tt))
    (λ _ s',
       time_scrubber s' = Scale len (PyFloat pos)
       ∧ ∀ cur, format_time (PyFloat pos) = Returned cur →
           current_time_label s' = cur
           ∧ ∀ tot, format_time len = Returned tot → total_time_label s' = tot) s.
Proof.
  intros Hlen Hpos. unfold refresh_time.
  wp_step. wp_step. wp_step. wp_step. rewrite Hpos. wp_steps.
  rewrite Hlen. wp_steps.
  destruct (format_time (PyFloat pos)) as [cur|e] eqn:Hcur; [|by wp_steps].
  wp_steps. destruct (format_time len) as [tot|e] eqn:Htot; wp_steps.
  - split; [done|]. intros ? [= <-]. split; [done|]. by intros ? [= <-].
  - split; [done|]. intros ? [= <-]. by split.
Qed.

(** Without a position or a track length the refresh writes nothing. *)
Lemma refresh_time_nothing w s :
  track_length s = None ∨ (∃ e, current_position w (seek_offset s) = Raised e) →
  run (try_except (refresh_time w) (λ _, mret tt)) s = s.
Proof.
  intros Hno.
  change (wp (try_except (refresh_time w) (λ _, mret tt)) (λ _ s', s' = s) s).
  unfold refresh_time. wp_step. wp_step. wp_step. wp_step.
  destruct (current_position w (seek_offset s)) as [pos|e] eqn:Hpos; [|by wp_steps].
  destruct Hno as [Hlen|[e He]]; [|done]. wp_steps. rewrite Hlen. by wp_steps.
Qed.

(** X11. A poll that finds the mixer busy, or the session paused, returns,
    leaves one poll pending in its place and changes nothing but the time
    scrubber and the two time labels.  While the user drags the scrubber,
    before a track length is known or when the position cannot be
    computed, it writes nothing.  Otherwise it sets the scrubber's range
    to the track length and its position to the mixer's position in
    seconds plus the seek offset, the current-time label to the text
    [format_time] gives for that position and then the total-time label
    to the text for the track length.  A poll that finds neither, with an
    empty playlist or the sentinel index, schedules no further poll, sets
    the scrubber to 0 and the current-time label to 0:00, and changes
    nothing else. *)
Theorem poll_rearms_while_active (w : world) (s : player) :
  (0 < poll_timers s)%nat →
  (busy s || is_paused s = true →
   (callback w EvPollTimer s).1 = Returned ()
   ∧ same_but_time s (dispatch w EvPollTimer s)
   ∧ (is_seeking s = true ∨ track_length s = None
      ∨ (∃ e, current_position w (seek_offset s) = Raised e) →
      dispatch w EvPollTimer s = s)
   ∧ (∀ len pos,
        is_seeking s = false →
        track_length s = Some len →
        current_position w (seek_offset s) = Returned pos →
        time_scrubber (dispatch w EvPollTimer s) = Scale len (PyFloat pos)
        ∧ ∀ cur, format_time (PyFloat pos) = Returned cur →
            current_time_label (dispatch w EvPollTimer s) = cur
            ∧ ∀ tot, format_time len = Returned tot →
                total_time_label (dispatch w EvPollTimer s) = tot))
  ∧ (busy s || is_paused s = false →
     playlist s = [] ∨ current_track_index s = -1 →
     (callback w EvPollTimer s).1 = Returned ()
     ∧ same_but_time (set_poll_timers (pred (poll_timers s)) s)
         (dispatch w EvPollTimer s)
     ∧ time_scrubber (dispatch w EvPollTimer s)
       = Scale (scale_to (time_scrubber s)) (PyInt 0)
     ∧ current_time_label (dispatch w EvPollTimer s) = "0:00"
     ∧ total_time_label (dispatch w EvPollTimer s) = total_time_label s).
Proof.
  intros Htimers.
  set (s1 := set_poll_timers (pred (poll_timers s)) s).
  assert (set_poll_timers (S (poll_timers s1)) s1 = s) as Hback.
  { destruct s. unfold s1, set_poll_timers. simpl in *. f_equal. lia. }
  assert ((callback w EvPollTimer s).1 = (check_track_end w s1).1) as Hcall by done.
  rewrite Hcall, poll_dispatch_run. fold s1. unfold run. split.
  - intros Hact. rewrite (check_track_end_active w s1 Hact). cbn [fst snd].
    split; [done|]. split; [|split].
    + rewrite <-Hback at 1. apply same_but_time_poll, refreshed_frame.
    + intros Hno. assert (refreshed w s1 = s1) as ->; [|exact Hback].
      unfold refreshed. change (is_seeking s1) with (is_seeking s).
      destruct (is_seeking s) eqn:Hseek; [done|].
      apply refresh_time_nothing. by destruct Hno as [?|[?|?]]; [|left|right].
    + intros len pos Hseek Hlen Hpos. unfold refreshed.
      change (is_seeking s1) with (is_seeking s). rewrite Hseek.
      exact (refresh_time_shows w s1 len pos Hlen Hpos).
  - intros [Hbusy Hp]%orb_false_iff Hidle.
    rewrite (check_track_end_idle w s1 Hbusy Hp).
    change (playlist s1) with (playlist s).
    change (current_track_index s1) with (current_track_index s).
    assert ((Returned (), zeroed s1).1 = Returned ()
            ∧ same_but_time s1 (Returned (), zeroed s1).2
            ∧ time_scrubber (Returned (), zeroed s1).2
              = Scale (scale_to (time_scrubber s)) (PyInt 0)
            ∧ current_time_label (Returned (), zeroed s1).2 = "0:00"
            ∧ total_time_label (Returned (), zeroed s1).2 = total_time_label s)
      as Hzero.
    { split; [done|]. split; [apply zeroed_frame|done]. }
    destruct (playlist s) eqn:Hpl; [done|].
    destruct Hidle as [?| ->]; done.
Qed.

Lemma poll_rearms_while_active_witness :
  time_scrubber (dispatch demo_world EvPollTimer demo_paused)
  = Scale (PyInt 100)
      (PyFloat (SpecFloat.S754_finite false 6755399441055744 (-52)))
  ∧ current_time_label (dispatch demo_world EvPollTimer demo_paused) = "0:01"
  ∧ total_time_label (dispatch demo_world EvPollTimer demo_paused) = "1:40".
Proof.
  destruct (poll_rearms_while_active demo_world demo_paused) as [Hact _];
    [vm_compute; lia|].
  destruct Hact as (_ & _ & _ & Hshow); [by vm_compute|].
  destruct (Hshow (PyInt 100)
              (SpecFloat.S754_finite false 6755399441055744 (-52)))
    as [Hscale Hlabels]; [by vm_compute..|].
  destruct (Hlabels "0:01") as [Hcur Htot]; [by vm_compute|].
  split; [exact Hscale|]. split; [exact Hcur|]. apply Htot. by vm_compute.
Defined.

(** The time shown by the poll after a seek to 30 s on the paused demo
    session, 1.5 s into the stream: the offset plus the mixer's position. *)
Example seek_then_poll_shows_elapsed :
  let s := dispatch demo_world EvPollTimer
             (dispatch demo_world (EvScrubberRelease 30) demo_paused) in
  is_paused s = true ∧ seek_offset s = 30 ∧ current_time_label s = "0:31".
Proof. by vm_compute. Qed.



(** X28. Clear, unlike Stop, ends the session: a poll that is pending
    after Clear finds an empty playlist, starts nothing and schedules no
    further poll, so the polls left over from earlier Play presses run
    out one by one.  All such a poll does is set the scrubber to 0 and the
    current-time label to 0:00. *)
Theorem clear_then_poll_ends (w w' : world) (s : player) :
  (0 < poll_timers s)%nat →
  dispatch w' EvPollTimer (dispatch w EvClearPlaylist s)
  = set_current_time_label "0:00"
      (set_time_scrubber (Scale (scale_to (time_scrubber s)) (PyInt 0))
         (set_poll_timers (pred (poll_timers s)) (dispatch w EvClearPlaylist s)))
  ∧ playing (music (dispatch w' EvPollTimer (dispatch w EvClearPlaylist s))) = false
  ∧ poll_timers (dispatch w' EvPollTimer (dispatch w EvClearPlaylist s))
    = pred (poll_timers s).
Proof.
  intros Htimers. rewrite poll_dispatch_run. unfold run.
  set (s1 := dispatch w EvClearPlaylist s).
  rewrite (check_track_end_idle w' (set_poll_timers (pred (poll_timers s1)) s1)
             eq_refl eq_refl).
  done.
Qed.

Lemma clear_then_poll_ends_witness :
  poll_timers (dispatch demo_world EvPollTimer
                 (dispatch demo_world EvClearPlaylist demo_playing)) = 0%nat.
Proof.
  destruct (clear_then_poll_ends demo_world demo_world demo_playing)
    as (_ & _ & Htimers); [vm_compute; lia|].
  rewrite Htimers. by vm_compute.
Defined.

Lemma play_music_timers w s : wp (play_music w) (λ _ s', timers_step s s') s.
Proof.
  unfold play_music, timers_step. wp_auto; simpl; repeat case_match; simpl; lia.
Qed.

Lemma wp_timers_cued w i s :
  wp (play_music w) (λ _ s', timers_step s s') (cued i s).
Proof. exact (play_music_timers w (cued i s)). Qed.

Lemma next_track_timers w s : wp (next_track w) (λ _ s', timers_step s s') s.
Proof.
  unfold wp. destruct (playlist s) eqn:Hpl.
  - unfold next_track. unfold_M. rewrite Hpl. simpl. unfold timers_step. lia.
  - rewrite next_track_run; [|by rewrite Hpl]. apply wp_timers_cued.
Qed.

Lemma previous_track_timers w s :
  wp (previous_track w) (λ _ s', timers_step s s') s.
Proof.
  unfold wp. destruct (playlist s) eqn:Hpl.
  - unfold previous_track. unfold_M. rewrite Hpl. simpl. unfold timers_step. lia.
  - rewrite previous_track_run; [|by rewrite Hpl]. rewrite Hpl. apply wp_timers_cued.
Qed.

Lemma play_selected_track_timers w s :
  wp (play_selected_track w) (λ _ s', timers_step s s') s.
Proof.
  unfold wp. destruct (selected (playlist_box s)) eqn:Hsel.
  - unfold play_selected_track. unfold_M. rewrite Hsel. simpl.
    unfold timers_step. lia.
  - rewrite (play_selected_track_run w s _ _ Hsel). apply wp_timers_cued.
Qed.

Lemma end_seek_timers w pos s :
  poll_timers (run (end_seek w pos) s) = poll_timers s.
Proof.
  change (wp (end_seek w pos) (λ _ s', poll_timers s' = poll_timers s) s).
  unfold end_seek. wp_auto; done.
Qed.

Lemma sorted_player_timers w s : poll_timers (sorted_player w s) = poll_timers s.
Proof.
  unfold sorted_player, relocated, after_sort. simpl.
  repeat case_match; done.
Qed.

(** X13. No event cancels a pending poll, and none starts more than one.
    Every event other than a poll leaves the pending polls or adds one; a
    poll that fires is replaced by at most one, so polling alone never
    multiplies the polls.  Scanning, sorting, clearing, Pause, Stop, the
    volume slider, the scrubber and the shuffle button add none. *)
Theorem poll_timers_step (w : world) (e : event) (s : player) :
  (e ≠ EvPollTimer → timers_step s (dispatch w e s))
  ∧ (e = EvPollTimer → (0 < poll_timers s)%nat →
     (poll_timers s - 1 ≤ poll_timers (dispatch w e s) ≤ poll_timers s)%nat)
  ∧ (match e with
     | EvPlay | EvNext | EvPrevious | EvDoubleClick | EvPollTimer => True
     | _ => poll_timers (dispatch w e s) = poll_timers s
     end).
Proof.
  split; [|split].
  - intros Hpoll. unfold dispatch. destruct e; try done;
      try (unfold timers_step, run; simpl; lia).
    + fold (dispatch w (EvScanDirectory directory) s). rewrite scan_dispatch_run.
      unfold timers_step. repeat case_match; rewrite ?sorted_player_timers; simpl; lia.
    + fold (dispatch w (EvSortSelected choice) s). rewrite sort_selected_run.
      unfold timers_step. repeat case_match; rewrite ?sorted_player_timers; simpl; lia.
    + apply play_music_timers.
    + unfold run. simpl. rewrite pause_music_run. unfold timers_step.
      destruct (busy s); simpl; lia.
    + apply previous_track_timers.
    + apply next_track_timers.
    + unfold run, timers_step. simpl. unfold modify. simpl.
      destruct (_ <? _)%nat; simpl; lia.
    + apply play_selected_track_timers.
    + unfold timers_step. simpl. rewrite end_seek_timers. lia.
    + unfold run, timers_step. simpl. unfold modify. simpl.
      destruct (_ && _); simpl; lia.
  - intros -> Htimers. rewrite poll_dispatch_run. unfold run.
    set (s1 := set_poll_timers (pred (poll_timers s)) s).
    assert (poll_timers s1 = pred (poll_timers s)) as Hs1 by done.
    destruct (busy s1 || is_paused s1) eqn:Hact.
    + rewrite check_track_end_active; [|done]. simpl. lia.
    + apply orb_false_iff in Hact as [Hbusy Hp].
      rewrite check_track_end_idle; [|done..].
      pose proof (next_track_timers w s1) as Hnext.
      unfold wp, timers_step in Hnext.
      repeat case_match; simpl; lia.
  - destruct e; try done.
    + rewrite scan_dispatch_run.
      repeat case_match; rewrite ?sorted_player_timers; done.
    + rewrite sort_selected_run.
      repeat case_match; rewrite ?sorted_player_timers; done.
    + unfold dispatch, run. simpl. rewrite pause_music_run. by destruct (busy s).
    + unfold dispatch, run. simpl. unfold modify. simpl. by destruct (_ <? _)%nat.
    + apply end_seek_timers.
    + unfold dispatch, run. simpl. unfold modify. simpl. by destruct (_ && _).
Qed.

Lemma poll_timers_step_witness :
  (0 < poll_timers demo_playing)%nat
  ∧ (poll_timers demo_playing - 1
     ≤ poll_timers (dispatch demo_world EvPollTimer demo_playing)
     ≤ poll_timers demo_playing)%nat.
Proof.
  assert (0 < poll_timers demo_playing)%nat as H by (vm_compute; lia).
  split; [exact H|].
  destruct (poll_timers_step demo_world EvPollTimer demo_playing) as (_ & Hpoll & _).
  exact (Hpoll eq_refl H).
Defined.

(** ** The mixer and the session agree *)

Lemma py_index_lookup {A} (l : list A) i x :
  0 ≤ i → py_index l i = Some x → l !! Z.to_nat i = Some x.
Proof. intros Hi. by rewrite py_index_nonneg. Qed.

Ltac session_finish Hplaying Hmp :=
  simpl in *; repeat case_match; simpl in *; reflect_tests; simplify_eq;
  (split;
   [let H := fresh in
    intros H; try done;
    try (destruct (Hplaying H) as (?&?&?&?)); try lia
   |let H := fresh in
    intros H; try done;
    try (destruct (Hmp H) as [? ?]; split; congruence)]);
  repeat split; try done; try lia; try congruence;
  use_equations;
  try (symmetry; apply py_index_lookup; [lia|done]).

Lemma play_music_session w s :
  valid_index s → session_ok s → wp (play_music w) (λ _ s', session_ok s') s.
Proof.
  intros Hidx [Hplaying Hmp]. unfold play_music, session_ok, valid_index in *.
  wp_auto; session_finish Hplaying Hmp.
Qed.

Lemma cued_session i s : session_ok (cued i s).
Proof. by split. Qed.

Lemma wp_session {A} (m : M A) s :
  wp m (λ _ s', session_ok s') s → session_ok (run m s).
Proof. done. Qed.

Lemma next_track_session w s :
  world_ok w → session_ok s → session_ok (run (next_track w) s).
Proof.
  intros Hw Hs. unfold run. destruct (playlist s) eqn:Hpl.
  - unfold next_track. unfold_M. by rewrite Hpl.
  - assert (playlist s ≠ []) as Hne by by rewrite Hpl.
    rewrite next_track_run; [|done].
    apply play_music_session; [|apply cued_session].
    right. apply (next_index_range w s Hne Hw).
Qed.

Lemma previous_track_session w s :
  session_ok s → session_ok (run (previous_track w) s).
Proof.
  intros Hs. unfold run. destruct (playlist s) eqn:Hpl.
  - unfold previous_track. unfold_M. by rewrite Hpl.
  - assert (playlist s ≠ []) as Hne by by rewrite Hpl.
    rewrite previous_track_run; [|done].
    apply play_music_session; [|apply cued_session].
    right. simpl. apply mod_index_range. rewrite Hpl. simpl. lia.
Qed.

Lemma play_selected_track_session w s :
  consistent s → session_ok s → session_ok (run (play_selected_track w) s).
Proof.
  intros (_ & _ & Hsel & _) Hs. unfold run.
  destruct (selected (playlist_box s)) as [|i sel] eqn:Hi.
  - unfold play_selected_track. unfold_M. by rewrite Hi.
  - rewrite (play_selected_track_run w s i sel Hi).
    apply play_music_session; [|apply cued_session].
    apply Forall_cons in Hsel as [Hlt _]. right. simpl. lia.
Qed.

Lemma end_seek_session w pos s :
  valid_index s → session_ok s → session_ok (run (end_seek w pos) s).
Proof.
  intros Hidx [Hplaying Hmp]. apply wp_session.
  unfold end_seek, session_ok, valid_index in *.
  wp_auto; session_finish Hplaying Hmp.
Qed.

Lemma pause_music_session s : session_ok s → session_ok (run pause_music s).
Proof.
  intros [Hplaying Hmp]. unfold run. rewrite pause_music_run.
  destruct (busy s) eqn:Hbusy; [|done].
  apply andb_true_iff in Hbusy as [Hp _]. split; [|done].
  intros _. by destruct (Hplaying Hp) as (?&?&?&?).
Qed.

Lemma session_time s s' : same_but_time s s' → session_ok s → session_ok s'.
Proof. by intros (sc & cur & tot & ->). Qed.

Lemma check_track_end_session w s :
  world_ok w → session_ok s → session_ok (run (check_track_end w) s).
Proof.
  intros Hw Hs. unfold run.
  destruct (busy s || is_paused s) eqn:Hact.
  - rewrite check_track_end_active; [|done].
    by apply (session_time s (refreshed w s) (refreshed_frame w s)) in Hs.
  - apply orb_false_iff in Hact as [Hbusy Hp].
    rewrite check_track_end_idle; [|done..].
    pose proof (session_time s (zeroed s) (zeroed_frame s) Hs) as Hzero.
    destruct (playlist s); [done|].
    destruct (_ =? _); [done|]. by apply next_track_session.
Qed.

(** The index after a sort points at the track it pointed at. *)
Lemma sorted_player_current w s :
  valid_index s → Forall (λ p, p ≠ EmptyString) (playlist s) →
  (current_track_index s = -1 → current_track_index (sorted_player w s) = -1)
  ∧ (0 ≤ current_track_index s →
     0 ≤ current_track_index (sorted_player w s)
     ∧ playlist (sorted_player w s) !! Z.to_nat (current_track_index (sorted_player w s))
       = playlist s !! Z.to_nat (current_track_index s)).
Proof.
  intros Hidx Hne. rewrite sorted_player_index, sorted_player_playlist. split.
  - intros Hs. unfold current_track_of. rewrite Hs. simpl.
    by rewrite after_sort_index.
  - intros Hlo. destruct Hidx as [?|Hidx]; [lia|].
    destruct (py_index_valid (playlist s) _ Hidx) as [Hpy [t Ht]].
    assert (current_track_of s = Some t) as ->.
    { unfold current_track_of.
      destruct (0 <=? current_track_index s) eqn:E1; [|apply Z.leb_gt in E1; lia].
      destruct (current_track_index s <? Z.of_nat (length (playlist s))) eqn:E2;
        [|apply Z.ltb_ge in E2; lia].
      simpl. by rewrite Hpy. }
    assert (t ∈ playlist s) as Hin by by eapply list_elem_of_lookup_2.
    assert (t ≠ EmptyString) as Ht0 by by eapply Forall_forall in Hne.
    destruct (relocated_found t (after_sort w s) Ht0) as (i & _ & Hi & Hlook).
    { by rewrite after_sort_perm. }
    rewrite Hi, Nat2Z.id, Ht. split; [lia|done].
Qed.

Lemma sorted_player_session w s :
  valid_index s → Forall (λ p, p ≠ EmptyString) (playlist s) →
  session_ok s → session_ok (sorted_player w s).
Proof.
  intros Hidx Hne [Hplaying Hmp].
  destruct (sorted_player_current w s Hidx Hne) as [_ Hcur].
  assert (music (sorted_player w s) = music s
          ∧ is_paused (sorted_player w s) = is_paused s
          ∧ seek_offset (sorted_player w s) = seek_offset s) as (Hm & Hp & Ho).
  { unfold sorted_player, relocated, after_sort. simpl.
    repeat case_match; done. }
  split; rewrite Hm, ?Hp, ?Ho; [|done].
  intros H. destruct (Hplaying H) as (Hlo & Hsome & Hl & Hst).
  destruct (Hcur Hlo) as [Hlo' Hlook]. rewrite Hlook. done.
Qed.

Lemma scanned_session w d s :
  valid_index s → session_ok s → session_ok (scanned w d s).
Proof.
  intros Hidx [Hplaying Hmp]. split; [|done].
  intros H. destruct (Hplaying H) as (Hlo & Hsome & Hl & Hst).
  repeat split; try done. unfold scanned. simpl.
  destruct (add_paths_prefix (tree_paths (os_walk w d)) (playlist s)) as [new ->].
  destruct Hidx as [?|Hidx]; [lia|].
  rewrite lookup_app_l; [done|lia].
Qed.

Lemma dispatch_session w e s :
  world_ok w → consistent s → session_ok s → session_ok (dispatch w e s).
Proof.
  intros Hw Hc Hs. pose proof Hc as (Hidx & _ & _ & Hne & _).
  destruct e.
  - rewrite scan_dispatch_run. destruct (String.eqb directory EmptyString); [done|].
    destruct (playlist (scanned w directory s)) eqn:Hpl.
    + by apply scanned_session.
    + destruct (scanned_consistent w directory s Hc) as (?&?&?).
      apply sorted_player_session; [done..|by apply scanned_session].
  - rewrite sort_selected_run. destruct (playlist s) eqn:Hpl; [done|].
    apply sorted_player_session; [done| |done]. simpl. by rewrite Hpl.
  - by split.
  - by apply wp_session, play_music_session.
  - by apply pause_music_session.
  - by split.
  - by apply previous_track_session.
  - by apply next_track_session.
  - done.
  - unfold dispatch, run, modify. simpl. by destruct (_ <? _)%nat.
  - by apply play_selected_track_session.
  - done.
  - done.
  - by apply end_seek_session.
  - rewrite poll_dispatch_run. by apply check_track_end_session.
  - destruct Hs as [Hplaying Hmp].
    unfold dispatch, run, modify. simpl.
    destruct (playing (music s) && negb (mpaused (music s))) eqn:Hbusy; [|done].
    by split.
Qed.

Lemma reachable_session s : reachable s → session_ok s.
Proof.
  induction 1 as [|w e s Hs IH Hw _]; [by split|].
  apply dispatch_session; [done| |done]. by apply reachable_consistent.
Qed.

(** X14. Whatever events the main loop has handled, when the mixer is
    playing (paused or not) the file it has loaded is the track at the
    current index, which is not the sentinel: the track that sounds is
    the track the player shows as current, also after a sort or a scan
    has moved it. *)
Theorem playing_track_is_current (s : player) :
  reachable s →
  playing (music s) = true →
  ∃ track,
    loaded (music s) = Some track
    ∧ 0 ≤ current_track_index s < Z.of_nat (length (playlist s))
    ∧ playlist s !! Z.to_nat (current_track_index s) = Some track.
Proof.
  intros Hs Hp. destruct (reachable_session s Hs) as [Hplaying _].
  destruct (Hplaying Hp) as (Hlo & [track Ht] & Hl & _).
  exists track. rewrite <-Hl. split; [done|]. split; [|done].
  rewrite Ht in Hl. symmetry in Hl. apply lookup_lt_Some in Hl. lia.
Qed.

Lemma playing_track_is_current_witness :
  ∃ track,
    loaded (music demo_paused) = Some track
    ∧ 0 ≤ current_track_index demo_paused
        < Z.of_nat (length (playlist demo_paused))
    ∧ playlist demo_paused !! Z.to_nat (current_track_index demo_paused)
      = Some track.
Proof.
  apply (playing_track_is_current demo_paused); [|by vm_compute].
  unfold demo_paused.
  apply reachable_step; [apply demo_playing_reachable|apply demo_world_ok|exact I].
Defined.

(** X15. Whatever events the main loop has handled, while the mixer is
    playing the seek offset is the start position the mixer was last
    given: 0 after [play_music], the scrubber's position after
    [end_seek]. *)
Theorem seek_offset_is_start (s : player) :
  reachable s →
  playing (music s) = true →
  started_at (music s) = seek_offset s.
Proof.
  intros Hs Hp. destruct (reachable_session s Hs) as [Hplaying _].
  by destruct (Hplaying Hp) as (_ & _ & _ & ?).
Qed.

Lemma seek_offset_is_start_witness :
  started_at (music (dispatch demo_world (EvScrubberRelease 30) demo_playing))
  = seek_offset (dispatch demo_world (EvScrubberRelease 30) demo_playing).
Proof.
  apply (seek_offset_is_start
           (dispatch demo_world (EvScrubberRelease 30) demo_playing));
    [|by vm_compute].
  apply reachable_step; [apply demo_playing_reachable|apply demo_world_ok|exact I].
Defined.

(** X16. Whatever events the main loop has handled, the mixer is never
    left paused behind the player's back: when the mixer is paused the
    paused flag is set, so the next Play resumes it, and a stream is
    loaded and started. *)
Theorem paused_mixer_is_flagged (s : player) :
  reachable s →
  mpaused (music s) = true →
  is_paused s = true ∧ playing (music s) = true.
Proof.
  intros Hs Hp. destruct (reachable_session s Hs) as [_ Hmp]. by apply Hmp.
Qed.

Lemma paused_mixer_is_flagged_witness :
  is_paused demo_paused = true ∧ playing (music demo_paused) = true.
Proof.
  apply (paused_mixer_is_flagged demo_paused); [|by vm_compute].
  unfold demo_paused.
  apply reachable_step; [apply demo_playing_reachable|apply demo_world_ok|exact I].
Defined.

(** ** Exceptions *)

Lemma py_index_elem {A} (l : list A) i x : py_index l i = Some x → x ∈ l.
Proof.
  unfold py_index. repeat case_match; try done; apply list_elem_of_lookup_2.
Qed.

Lemma py_index_None {A} (l : list A) i :
  0 ≤ i < Z.of_nat (length l) → py_index l i ≠ None.
Proof.
  intros Hi Hnone. destruct (py_index_valid l i Hi) as [Hpy [x Hx]]. congruence.
Qed.

Ltac refusal_finish :=
  simpl in *; reflect_tests; simplify_eq;
  first
    [ by left
    | right; split; [done|];
      match goal with
      | H : py_index _ _ = Some ?t |- _ =>
          exists t; split; [use_equations; by apply py_index_elem in H|];
          first [by left | right; by eexists]
      end
    | exfalso;
      match goal with
      | H : py_index ?l ?i = None |- _ =>
          apply (py_index_None l i); [simpl in *; lia|done]
      end ].

Lemma play_music_raises w s :
  valid_index s →
  wp (play_music w) (λ o _, returns_or_refused w s o) s.
Proof.
  intros Hidx. unfold play_music, returns_or_refused, mixer_refuses, valid_index in *.
  wp_auto; refusal_finish.
Qed.

Lemma end_seek_raises w pos s :
  valid_index s →
  wp (end_seek w pos) (λ o _, returns_or_refused w s o) s.
Proof.
  intros Hidx. unfold end_seek, returns_or_refused, mixer_refuses, valid_index in *.
  wp_auto; refusal_finish.
Qed.

Lemma play_music_cued_raises w i s :
  0 ≤ i < Z.of_nat (length (playlist s)) →
  returns_or_refused w s (play_music w (cued i s)).1.
Proof.
  intros Hi. apply (play_music_raises w (cued i s)). by right.
Qed.

Lemma next_track_raises w s :
  world_ok w → returns_or_refused w s (next_track w s).1.
Proof.
  intros Hw. destruct (playlist s) eqn:Hpl.
  - unfold next_track. unfold_M. rewrite Hpl. by left.
  - assert (playlist s ≠ []) as Hne by by rewrite Hpl.
    rewrite next_track_run; [|done].
    by apply play_music_cued_raises, next_index_range.
Qed.

Lemma check_track_end_raises w s :
  world_ok w → returns_or_refused w s (check_track_end w s).1.
Proof.
  intros Hw. destruct (busy s || is_paused s) eqn:Hact.
  - rewrite check_track_end_active; [by left|done].
  - apply orb_false_iff in Hact as [Hbusy Hp].
    rewrite check_track_end_idle; [|done..].
    destruct (playlist s) eqn:Hpl; [by left|].
    destruct (_ =? _); [by left|]. by apply next_track_raises.
Qed.

(** X17. In every state the program can reach, a callback either returns
    or raises the mixer's error, and it raises only when the mixer has
    refused to load or to start a track of the playlist.  No callback
    raises an index error on the playlist, and none raises at all while
    the mixer accepts every file: scanning, sorting, clearing, Pause,
    Stop and the other callbacks that do not load a file always return. *)
Theorem callbacks_raise_only_on_refusal (w : world) (e : event) (s : player) :
  reachable s →
  world_ok w →
  returns_or_refused w s (callback w e s).1
  ∧ (match e with
     | EvPlay | EvNext | EvPrevious | EvDoubleClick | EvScrubberRelease _
     | EvPollTimer => True
     | _ => (callback w e s).1 = Returned ()
     end).
Proof.
  intros Hs Hw. pose proof (reachable_consistent s Hs) as Hc.
  pose proof Hc as (Hidx & _ & Hsel & _).
  assert (∀ o, o = Returned () → returns_or_refused w s o) as Hret by by left.
  destruct e; simpl.
  - rewrite scan_directory_run. by split; [left|].
  - assert ((modify (set_sort_dropdown choice) ≫= λ _, sort_playlist w) s
            = sort_playlist w (set_sort_dropdown choice s)) as -> by done.
    destruct (playlist s) eqn:Hpl.
    + rewrite sort_playlist_empty; [|done]. by split; [left|].
    + rewrite sort_playlist_run; [|by simpl; rewrite Hpl]. by split; [left|].
  - by split; [left|].
  - split; [|done]. by apply play_music_raises.
  - rewrite pause_music_run. by split; [left|].
  - by split; [left|].
  - split; [|done]. destruct (playlist s) eqn:Hpl.
    + unfold previous_track. unfold_M. rewrite Hpl. by left.
    + assert (playlist s ≠ []) as Hne by by rewrite Hpl.
      rewrite previous_track_run; [|done].
      apply play_music_cued_raises, mod_index_range. rewrite Hpl. simpl. lia.
  - split; [|done]. by apply next_track_raises.
  - by split; [left|].
  - by split; [left|].
  - split; [|done].
    destruct (selected (playlist_box s)) as [|i sel] eqn:Hi.
    + unfold play_selected_track. unfold_M. rewrite Hi. by left.
    + rewrite (play_selected_track_run w s i sel Hi).
      apply play_music_cued_raises.
      apply Forall_cons in Hsel as [Hlt _]. lia.
  - by split; [left|].
  - by split; [left|].
  - split; [|done]. by apply end_seek_raises.
  - split; [|done].
    apply (check_track_end_raises w (set_poll_timers (pred (poll_timers s)) s) Hw).
  - by split; [left|].
Qed.

Lemma callbacks_raise_only_on_refusal_witness :
  returns_or_refused refusing_world demo_playing
    (callback refusing_world EvNext demo_playing).1
  ∧ (callback refusing_world EvNext demo_playing).1 = Raised PygameError.
Proof.
  split; [|by vm_compute].
  apply (callbacks_raise_only_on_refusal refusing_world EvNext demo_playing).
  - apply demo_playing_reachable.
  - intros a b Hab. simpl. lia.
Defined.

(** ** Scanning *)

Lemma append_nil b : EmptyString +:+ b = b.
Proof. reflexivity. Qed.

Lemma append_cons c a b : String c a +:+ b = String c (a +:+ b).
Proof. reflexivity. Qed.

Lemma length_append a b :
  String.length (a +:+ b) = (String.length a + String.length b)%nat.
Proof.
  induction a as [|c a IH]; [done|]. rewrite append_cons. simpl. by rewrite IH.
Qed.

Lemma rfind_app c a b :
  rfind c (a +:+ b)
  = match rfind c b with
    | Some i => Some (String.length a + i)%nat
    | None => rfind c a
    end.
Proof.
  induction a as [|x a IH].
  - rewrite append_nil. by destruct (rfind c b).
  - rewrite append_cons. simpl. rewrite IH. by destruct (rfind c b), (rfind c a).
Qed.

Lemma substring_app_skip a b n m :
  substring (String.length a + n) m (a +:+ b) = substring n m b.
Proof.
  induction a as [|c a IH]; [done|]. rewrite append_cons. simpl. apply IH.
Qed.

Lemma substring_all s : substring 0 (String.length s) s = s.
Proof. induction s as [|c s IH]; simpl; [done|]. by rewrite IH. Qed.

Lemma ends_with_rfind c a :
  ends_with c a = true → rfind c a = Some (String.length a - 1)%nat.
Proof.
  induction a as [|x a IH]; [done|]. simpl. destruct a as [|y a].
  - intros ->. done.
  - intros H. rewrite (IH H). simpl. f_equal. lia.
Qed.

(** A path that ends in a name after a separator has that name. *)
Lemma path_name_app a b i :
  rfind "/" b = Some i → path_name (a +:+ b) = path_name b.
Proof.
  intros Hb. unfold path_name. rewrite rfind_app, Hb, length_append.
  replace (S (String.length a + i)) with (String.length a + S i)%nat by lia.
  rewrite substring_app_skip. f_equal. lia.
Qed.

Lemma path_name_dir a b :
  ends_with "/" a = true → rfind "/" b = None → path_name (a +:+ b) = b.
Proof.
  intros Ha Hb. unfold path_name. rewrite rfind_app, Hb, (ends_with_rfind _ _ Ha).
  rewrite length_append.
  assert (0 < String.length a)%nat by (destruct a; [done|simpl; lia]).
  replace (S (String.length a - 1)) with (String.length a + 0)%nat by lia.
  rewrite substring_app_skip.
  replace (String.length a + String.length b - (String.length a + 0))%nat
    with (String.length b) by lia.
  apply substring_all.
Qed.

Lemma path_name_no_dir b : rfind "/" b = None → path_name b = b.
Proof. intros Hb. unfold path_name. by rewrite Hb. Qed.

Lemma path_name_slash b : path_name (String "/" b) = path_name b.
Proof.
  unfold path_name. simpl. destruct (rfind "/" b) as [i|]; simpl; [done|].
  rewrite Nat.sub_0_r. apply substring_all.
Qed.

(** [os.path.join] keeps the file name of its second argument. *)
Lemma path_name_join root file :
  path_name (os_path_join root file) = path_name file.
Proof.
  unfold os_path_join. destruct (starts_with "/" file); [done|].
  destruct (String.eqb root EmptyString) eqn:Hroot; simpl.
  { apply String.eqb_eq in Hroot as ->. done. }
  destruct (ends_with "/" root) eqn:Hend.
  - destruct (rfind "/" file) as [i|] eqn:Hfile.
    + by eapply path_name_app.
    + rewrite path_name_dir; [|done..]. by rewrite path_name_no_dir.
  - assert (∃ i, rfind "/" (String "/" file) = Some i) as [i Hi].
    { simpl. destruct (rfind "/" file); eauto. }
    change (root +:+ "/" +:+ file) with (root +:+ String "/" file).
    rewrite (path_name_app root _ i Hi). apply path_name_slash.
Qed.

Lemma path_suffix_join root file :
  path_suffix (os_path_join root file) = path_suffix file.
Proof. unfold path_suffix. by rewrite path_name_join. Qed.

Lemma elem_of_tree_paths tree p :
  p ∈ tree_paths tree
  ↔ ∃ root files file,
      (root, files) ∈ tree ∧ file ∈ files
      ∧ lower (path_suffix file) ∈ audio_extensions
      ∧ p = os_path_join root file.
Proof.
  unfold tree_paths. rewrite elem_of_concat. split.
  - intros (ps & ([root files] & -> & Hentry)%list_elem_of_fmap & Hp).
    unfold entry_paths in Hp. simpl in Hp.
    apply list_elem_of_fmap in Hp as (file & -> & Hfile).
    apply list_elem_of_filter in Hfile as [Hext Hfile].
    by exists root, files, file.
  - intros (root & files & file & Hentry & Hfile & Hext & ->).
    exists (entry_paths (root, files)). split.
    + apply list_elem_of_fmap. by exists (root, files).
    + unfold entry_paths. simpl. apply list_elem_of_fmap. exists file.
      split; [done|]. by apply list_elem_of_filter.
Qed.

(** X18. After a scan of a directory the playlist holds what it held
    and, for every file name the walk lists with one of the seven audio
    extensions, in any letter case, the path joined from the walked
    directory and the name; it holds nothing else.  A cancelled dialog
    changes nothing. *)
Theorem scan_adds_audio_files (w : world) (d : string) (s : player) (p : string) :
  dispatch w (EvScanDirectory EmptyString) s = s
  ∧ (d ≠ EmptyString →
     (p ∈ playlist (dispatch w (EvScanDirectory d) s)
      ↔ p ∈ playlist s
        ∨ ∃ root files file,
            (root, files) ∈ os_walk w d ∧ file ∈ files
            ∧ lower (path_suffix file) ∈ audio_extensions
            ∧ p = os_path_join root file)).
Proof.
  split; [by rewrite scan_dispatch_run|].
  intros Hd%String.eqb_neq.
  rewrite (scan_dispatch_perm w d s Hd). unfold scanned. simpl.
  by rewrite add_paths_elem, elem_of_tree_paths.
Qed.

Lemma scan_adds_audio_files_witness :
  "/m/B.mp3" ∈ playlist (dispatch demo_world (EvScanDirectory "/m") init_player).
Proof.
  destruct (scan_adds_audio_files demo_world "/m" init_player "/m/B.mp3")
    as [_ HB].
  apply HB; [done|]. right.
  exists "/m", ["A.mp3"; "B.mp3"; "cover.jpg"], "B.mp3".
  split; [vm_compute; repeat constructor|].
  split; [repeat constructor|].
  split; [vm_compute; repeat constructor|by vm_compute].
Defined.

Lemma tree_paths_audio tree p :
  p ∈ tree_paths tree → lower (path_suffix p) ∈ audio_extensions.
Proof.
  intros (root & files & file & _ & _ & Hext & ->)%elem_of_tree_paths.
  by rewrite path_suffix_join.
Qed.

Lemma dispatch_playlist_origin w e s p :
  p ∈ playlist (dispatch w e s) →
  p ∈ playlist s ∨ ∃ d, e = EvScanDirectory d ∧ p ∈ tree_paths (os_walk w d).
Proof.
  destruct (event_cases e) as [[d ->]|[[key ->]|[->|(Hscan & Hsort & Hclear)]]].
  - destruct (String.eqb d EmptyString) eqn:Hd.
    + rewrite scan_dispatch_run, Hd. by left.
    + rewrite (scan_dispatch_perm w d s Hd). unfold scanned. simpl.
      intros [?|?]%add_paths_elem; [by left|right; by exists d].
  - rewrite sort_selected_playlist. intros Hp. rewrite after_sort_perm in Hp.
    by left.
  - by intros ?%elem_of_nil.
  - destruct (dispatch_tracks w e s Hscan Hsort Hclear) as [-> _]. by left.
Qed.

Lemma reachable_audio s :
  reachable s → Forall (λ p, lower (path_suffix p) ∈ audio_extensions) (playlist s).
Proof.
  induction 1 as [|w e s Hs IH Hw _]; [by constructor|].
  apply Forall_forall. intros p [Hp|(d & _ & Hp)]%dispatch_playlist_origin.
  - by eapply Forall_forall in IH.
  - by eapply tree_paths_audio.
Qed.

(** X19. Whatever has been scanned, sorted or played, every path of the
    playlist is that of a file whose name ends, in lower case, in one of
    [.mp3 .wav .ogg .flac .m4a .aac .wma], and no path is empty: joining
    the walked directory to a file name keeps the name's suffix. *)
Theorem playlist_holds_audio_files (s : player) (p : string) :
  reachable s →
  p ∈ playlist s →
  lower (path_suffix p) ∈ audio_extensions ∧ p ≠ EmptyString.
Proof.
  intros Hs Hp. split.
  - pose proof (reachable_audio s Hs) as Haudio. by eapply Forall_forall in Haudio.
  - destruct (reachable_consistent s Hs) as (_ & _ & _ & Hne & _).
    by eapply Forall_forall in Hne.
Qed.

Lemma playlist_holds_audio_files_witness :
  lower (path_suffix "/m/A.mp3") ∈ audio_extensions ∧ "/m/A.mp3" ≠ EmptyString.
Proof.
  apply (playlist_holds_audio_files demo_playing "/m/A.mp3").
  - apply demo_playing_reachable.
  - vm_compute. repeat constructor.
Defined.

(** X20. A scan keeps the current track: in every state the program can
    reach, a sentinel index stays the sentinel, and an index that is not
    the sentinel points, after the scan and the sort that ends it, at the
    path it pointed at before. *)
Theorem scan_keeps_current_track (w : world) (d : string) (s : player) :
  reachable s →
  (current_track_index s = -1 →
   current_track_index (dispatch w (EvScanDirectory d) s) = -1)
  ∧ (current_track_index s ≠ -1 →
     0 ≤ current_track_index (dispatch w (EvScanDirectory d) s)
     ∧ playlist (dispatch w (EvScanDirectory d) s)
         !! Z.to_nat (current_track_index (dispatch w (EvScanDirectory d) s))
       = playlist s !! Z.to_nat (current_track_index s)
     ∧ is_Some (playlist s !! Z.to_nat (current_track_index s))).
Proof.
  intros Hs. pose proof (reachable_consistent s Hs) as Hc.
  pose proof Hc as (Hidx & _).
  assert (current_track_index s ≠ -1 →
          0 ≤ current_track_index s
          ∧ is_Some (playlist s !! Z.to_nat (current_track_index s))) as Hsome.
  { intros Hne. destruct Hidx as [?|Hidx]; [done|]. split; [lia|].
    apply lookup_lt_is_Some. lia. }
  rewrite scan_dispatch_run. destruct (String.eqb d EmptyString).
  { split; [done|]. intros Hne. by destruct (Hsome Hne). }
  destruct (scanned_consistent w d s Hc) as (Hidx' & Hne' & _).
  destruct (sorted_player_current w (scanned w d s) Hidx' Hne') as [Hsent Hcur].
  assert (0 ≤ current_track_index s →
          playlist (scanned w d s) !! Z.to_nat (current_track_index s)
          = playlist s !! Z.to_nat (current_track_index s)) as Hpre.
  { intros Hlo. unfold scanned. simpl.
    destruct (add_paths_prefix (tree_paths (os_walk w d)) (playlist s)) as [new ->].
    destruct Hidx as [?|Hidx]; [lia|]. rewrite lookup_app_l; [done|lia]. }
  destruct (playlist (scanned w d s)) eqn:Hpl.
  - split; [done|]. intros Hne. destruct (Hsome Hne) as [Hlo Hlook].
    change (current_track_index (scanned w d s)) with (current_track_index s).
    by rewrite Hpl, (Hpre Hlo).
  - split; [exact Hsent|].
    intros Hne. destruct (Hsome Hne) as [Hlo Hlook].
    destruct (Hcur Hlo) as [Hlo' Heq]. rewrite Heq.
    change (current_track_index (scanned w d s)) with (current_track_index s).
    by rewrite (Hpre Hlo).
Qed.

Lemma scan_keeps_current_track_witness :
  playlist (dispatch demo_world (EvScanDirectory "/n") demo_playing)
    !! Z.to_nat (current_track_index
                   (dispatch demo_world (EvScanDirectory "/n") demo_playing))
  = playlist demo_playing !! Z.to_nat (current_track_index demo_playing).
Proof.
  destruct (scan_keeps_current_track demo_world "/n" demo_playing) as [_ Hcur];
    [apply demo_playing_reachable|].
  destruct Hcur as (_ & Heq & _); [by vm_compute|exact Heq].
Defined.

(** *** The rows of the list *)

Lemma play_music_rows w s :
  wp (play_music w) (λ _ s', rows (playlist_box s') = rows (playlist_box s)) s.
Proof. unfold play_music. wp_auto; simpl; repeat case_match; done. Qed.

Lemma end_seek_rows w pos s :
  wp (end_seek w pos) (λ _ s', rows (playlist_box s') = rows (playlist_box s)) s.
Proof. unfold end_seek. wp_auto; simpl; repeat case_match; done. Qed.

Lemma next_track_rows w s :
  rows (playlist_box (run (next_track w) s)) = rows (playlist_box s).
Proof.
  unfold run. destruct (playlist s) eqn:Hpl.
  - unfold next_track. unfold_M. by rewrite Hpl.
  - rewrite next_track_run; [|by rewrite Hpl].
    exact (play_music_rows w (cued (next_index w s) s)).
Qed.

Lemma same_but_time_rows s s' :
  same_but_time s s' → rows (playlist_box s') = rows (playlist_box s).
Proof. by intros (sc & cur & tot & ->). Qed.

(** The events that neither scan, sort nor clear leave the rows. *)
Lemma dispatch_rows w e s :
  (∀ d, e ≠ EvScanDirectory d) → (∀ key, e ≠ EvSortSelected key) →
  e ≠ EvClearPlaylist →
  rows (playlist_box (dispatch w e s)) = rows (playlist_box s).
Proof.
  intros Hscan Hsort Hclear. destruct e; try done.
  - by destruct (Hscan directory).
  - by destruct (Hsort choice).
  - exact (play_music_rows w s).
  - unfold dispatch, callback, run. rewrite pause_music_run. simpl.
    by destruct (busy s).
  - unfold dispatch, callback, run. destruct (playlist s) eqn:Hpl.
    + unfold previous_track. unfold_M. by rewrite Hpl.
    + rewrite previous_track_run; [|by rewrite Hpl].
      exact (play_music_rows w (cued _ s)).
  - exact (next_track_rows w s).
  - unfold dispatch, callback, run, modify. simpl. by destruct (_ <? _)%nat.
  - unfold dispatch, callback, run.
    destruct (selected (playlist_box s)) as [|i sel] eqn:Hsel.
    + unfold play_selected_track. unfold_M. by rewrite Hsel.
    + rewrite (play_selected_track_run w s i sel Hsel).
      exact (play_music_rows w (cued _ s)).
  - exact (end_seek_rows w position s).
  - rewrite poll_dispatch_run. unfold run.
    set (s1 := set_poll_timers (pred (poll_timers s)) s).
    change (rows (playlist_box s)) with (rows (playlist_box s1)).
    destruct (busy s1 || is_paused s1) eqn:Hact.
    + rewrite check_track_end_active; [|done].
      exact (same_but_time_rows _ _ (refreshed_frame w s1)).
    + apply orb_false_iff in Hact as [Hbusy Hp].
      rewrite check_track_end_idle; [|done..].
      pose proof (same_but_time_rows _ _ (zeroed_frame s1)) as Hzero.
      destruct (playlist s1); [done|]. destruct (_ =? _); [done|].
      apply next_track_rows.
  - unfold dispatch, callback, run, modify. simpl. by destruct (_ && _).
Qed.

Lemma reachable_rows s :
  reachable s → rows (playlist_box s) = shown_rows 1 (playlist s).
Proof.
  induction 1 as [|w e s Hs IH Hw _]; [done|].
  destruct (event_cases e) as [[d ->]|[[key ->]|[->|(Hscan & Hsort & Hclear)]]].
  - rewrite scan_dispatch_run. destruct (String.eqb d EmptyString); [done|].
    destruct (playlist (scanned w d s)) eqn:Hpl; [|done].
    by rewrite scanned_empty.
  - rewrite sort_selected_run. destruct (playlist s) eqn:Hpl; [|done].
    change (rows (playlist_box s) = shown_rows 1 (playlist s)). by rewrite Hpl.
  - done.
  - rewrite (dispatch_rows w e s Hscan Hsort Hclear).
    by destruct (dispatch_tracks w e s Hscan Hsort Hclear) as [-> _].
Qed.

Lemma shown_rows_lookup pl : ∀ i k track,
  pl !! k = Some track →
  shown_rows i pl !! k
  = Some (pretty (i + k)%nat +:+ ". " +:+ strip_numbering (path_stem track)).
Proof.
  induction pl as [|t pl IH]; intros i k track Hk; [done|].
  destruct k as [|k]; simpl in *.
  - injection Hk as ->. by rewrite Nat.add_0_r.
  - rewrite (IH (S i) k track Hk). by rewrite Nat.add_succ_r.
Qed.

(** X21. Whatever events the main loop has handled, the list on screen is
    the playlist as [update_playlist_display] renders it: it has one row
    per track, in playlist order, and the row of the track at index [i]
    reads [i + 1], a dot, a space and the file name's stem without a
    leading number; every selected row is a row of the list.  Playing,
    seeking and polling never leave a stale or renumbered row. *)
Theorem listbox_shows_playlist (s : player) :
  reachable s →
  length (rows (playlist_box s)) = length (playlist s)
  ∧ (∀ i track,
       playlist s !! i = Some track →
       rows (playlist_box s) !! i
       = Some (pretty (S i) +:+ ". " +:+ strip_numbering (path_stem track)))
  ∧ Forall (λ i, (i < length (playlist s))%nat) (selected (playlist_box s)).
Proof.
  intros Hs. destruct (reachable_consistent s Hs) as (_ & Hrows & Hsel & _).
  split; [done|]. split; [|done].
  intros i track Hi. rewrite (reachable_rows s Hs).
  by rewrite (shown_rows_lookup _ 1 i track Hi).
Qed.

Lemma listbox_shows_playlist_witness :
  rows (playlist_box demo_playing) !! 1%nat = Some "2. B"
  ∧ selected (playlist_box demo_playing) = [0%nat].
Proof.
  destruct (listbox_shows_playlist demo_playing) as (_ & Hrows & _);
    [apply demo_playing_reachable|].
  split; [|by vm_compute].
  rewrite (Hrows 1%nat "/m/B.mp3"); by vm_compute.
Defined.

(** ** Seeking *)

(** X22. When the mixer refuses the file, [end_seek] on a valid index
    raises the mixer's error after it has set the seek offset and stopped
    the music: the seeking flag is not cleared, so after a press of the
    scrubber it stays on, and the paused flag is not cleared either,
    although nothing is playing. *)
Theorem end_seek_load_refusal (w : world) (s : player) (position : Z)
    (track : string) :
  0 ≤ current_track_index s →
  playlist s !! Z.to_nat (current_track_index s) = Some track →
  music_load_ok w track = false →
  (end_seek w position s).1 = Raised PygameError
  ∧ is_seeking (run (end_seek w position) s) = is_seeking s
  ∧ is_seeking (dispatch w (EvScrubberRelease position) (dispatch w EvScrubberPress s))
    = true
  ∧ seek_offset (run (end_seek w position) s) = position
  ∧ is_paused (run (end_seek w position) s) = is_paused s
  ∧ playing (music (run (end_seek w position) s)) = false.
Proof.
  intros Hlo Htrack Hload.
  assert (∀ s0, playlist s0 = playlist s →
                current_track_index s0 = current_track_index s →
                end_seek w position s0
                = (Raised PygameError,
                   set_music (Mixer (loaded (music s0)) false false
                                (started_at (music s0)) (mvolume (music s0)))
                     (set_seek_offset position s0))) as Hrun.
  { intros s0 Hpl Hidx. apply wp_eq. unfold end_seek.
    wp_step. wp_step. wp_step. wp_step. rewrite Hpl, Hidx.
    destruct (playlist s) as [|t pl] eqn:Hs; [done|].
    destruct (current_track_index s =? -1) eqn:E; [apply Z.eqb_eq in E; lia|].
    wp_steps. rewrite py_index_nonneg, Htrack; [|done]. wp_steps.
    rewrite Hload. by wp_steps. }
  unfold dispatch, run. simpl.
  rewrite (Hrun s eq_refl eq_refl), (Hrun (set_is_seeking true s) eq_refl eq_refl).
  by repeat split.
Qed.

Lemma end_seek_load_refusal_witness :
  (end_seek refusing_world 30 demo_paused).1 = Raised PygameError
  ∧ is_paused (run (end_seek refusing_world 30) demo_paused) = true
  ∧ playing (music (run (end_seek refusing_world 30) demo_paused)) = false.
Proof.
  destruct (end_seek_load_refusal refusing_world demo_paused 30 "/m/A.mp3")
    as (Hraise & _ & _ & _ & Hp & Hpl);
    [by vm_compute|by vm_compute|done|].
  split; [exact Hraise|]. split; [|exact Hpl].
  rewrite Hp. by vm_compute.
Defined.

(** ** Nothing to play *)

Lemma reachable_empty_idle s :
  reachable s → playlist s = [] →
  playing (music s) = false ∧ selected (playlist_box s) = []
  ∧ rows (playlist_box s) = [].
Proof.
  intros Hs Hpl. destruct (reachable_consistent s Hs) as (_ & Hrows & Hsel & _).
  destruct (reachable_session s Hs) as [Hplaying _].
  rewrite Hpl in *. split; [|split; [|by apply nil_length_inv]].
  - destruct (playing (music s)); [|done].
    destruct Hplaying as (_ & [t Ht] & Hl & _); [done|].
    rewrite Ht in Hl. by rewrite lookup_nil in Hl.
  - destruct (selected (playlist_box s)) as [|i sel]; [done|].
    apply Forall_cons in Hsel as [Hi _]. simpl in Hi. lia.
Qed.

(** X23. With an empty playlist, in every state the program can reach,
    Play, Pause, Next, Previous, a click or a double click on the list
    and the end of a stream change nothing: no index is set, nothing is
    loaded and no poll is scheduled. *)
Theorem empty_playlist_idle (w : world) (e : event) (s : player) :
  reachable s →
  playlist s = [] →
  match e with
  | EvPlay | EvPause | EvNext | EvPrevious | EvClickRow _ | EvDoubleClick
  | EvTrackFinished => dispatch w e s = s
  | _ => True
  end.
Proof.
  intros Hs Hpl. destruct (reachable_empty_idle s Hs Hpl) as (Hplaying & Hsel & Hrows).
  assert (busy s = false) as Hbusy by (unfold busy; by rewrite Hplaying).
  unfold dispatch, run. destruct e; try done; simpl.
  - by rewrite play_music_empty.
  - by rewrite pause_music_run, Hbusy.
  - unfold previous_track. unfold_M. by rewrite Hpl.
  - unfold next_track. unfold_M. by rewrite Hpl.
  - unfold modify. simpl. by rewrite Hrows.
  - unfold play_selected_track. unfold_M. by rewrite Hsel.
  - unfold modify. simpl. by rewrite Hplaying.
Qed.

Lemma empty_playlist_idle_witness :
  dispatch demo_world EvNext (dispatch demo_world EvClearPlaylist demo_playing)
  = dispatch demo_world EvClearPlaylist demo_playing.
Proof.
  apply (empty_playlist_idle demo_world EvNext
           (dispatch demo_world EvClearPlaylist demo_playing)); [|by vm_compute].
  apply reachable_step; [apply demo_playing_reachable|apply demo_world_ok|exact I].
Defined.

(** ** Scanning and sorting leave the playback alone *)

Lemma sorted_player_playback w s :
  music (sorted_player w s) = music s
  ∧ is_paused (sorted_player w s) = is_paused s
  ∧ seek_offset (sorted_player w s) = seek_offset s
  ∧ track_length (sorted_player w s) = track_length s
  ∧ shuffle_mode (sorted_player w s) = shuffle_mode s
  ∧ is_seeking (sorted_player w s) = is_seeking s
  ∧ volume (sorted_player w s) = volume s.
Proof.
  unfold sorted_player, relocated, after_sort. simpl. repeat case_match; done.
Qed.

(** X24. A scan and a change of the sort key never touch the playback:
    what the mixer has loaded, whether it plays or is paused, its start
    position, the paused flag, the seek offset, the track length, the
    shuffle mode, the seeking flag and the volume are after the event
    what they were before. *)
Theorem scan_and_sort_leave_playback (w : world) (e : event) (s : player) :
  (∃ d, e = EvScanDirectory d) ∨ (∃ key, e = EvSortSelected key) →
  music (dispatch w e s) = music s
  ∧ is_paused (dispatch w e s) = is_paused s
  ∧ seek_offset (dispatch w e s) = seek_offset s
  ∧ track_length (dispatch w e s) = track_length s
  ∧ shuffle_mode (dispatch w e s) = shuffle_mode s
  ∧ is_seeking (dispatch w e s) = is_seeking s
  ∧ volume (dispatch w e s) = volume s.
Proof.
  intros [[d ->]|[key ->]].
  - rewrite scan_dispatch_run. destruct (String.eqb d EmptyString); [done|].
    destruct (playlist (scanned w d s)); [done|].
    exact (sorted_player_playback w (scanned w d s)).
  - rewrite sort_selected_run. destruct (playlist s); [done|].
    exact (sorted_player_playback w (set_sort_dropdown key s)).
Qed.

Lemma scan_and_sort_leave_playback_witness :
  music (dispatch demo_world (EvSortSelected "Name") demo_playing)
  = music demo_playing.
Proof.
  destruct (scan_and_sort_leave_playback demo_world (EvSortSelected "Name")
              demo_playing) as [Hm _]; [right; by exists "Name"|exact Hm].
Defined.

(** ** The time labels *)

(** The text for some floats: 75.5, 3599.99, a tiny negative time, whose
    remainder rounds up to 60.0, 1e22, whose quotient is rounded, and the
    two values for which [int] raises. *)
Example format_time_examples :
  format_time (PyInt 0) = Returned "0:00"
  ∧ format_time (PyInt 6000) = Returned "100:00"
  ∧ format_time (PyFloat (SpecFloat.S754_finite false 5312840185413632 (-46)))
    = Returned "1:15"
  ∧ format_time (PyFloat (SpecFloat.S754_finite false 7916461729754644 (-41)))
    = Returned "59:59"
  ∧ format_time (PyFloat (SpecFloat.S754_finite true 6646139978924579 (-119)))
    = Returned "-1:60"
  ∧ format_time (PyFloat (SpecFloat.S754_finite false 4768371582031250 21))
    = Returned "166666666666666655744:40"
  ∧ format_time (PyFloat SpecFloat.S754_nan) = Raised ValueError
  ∧ format_time (PyFloat (SpecFloat.S754_infinity false)) = Raised ValueError.
Proof. by vm_compute. Qed.

Lemma zero_pad_2_table :
  forallb (λ j,
    (String.length (zero_pad_2 (Z.of_nat j)) =? 2)%nat
    && forallb (λ k,
         implb (String.eqb (zero_pad_2 (Z.of_nat j)) (zero_pad_2 (Z.of_nat k)))
           (j =? k)%nat) (seq 0 60)) (seq 0 60)
  = true.
Proof. by vm_compute. Qed.

Lemma zero_pad_2_row (n : Z) :
  0 ≤ n < 60 →
  String.length (zero_pad_2 n) = 2%nat
  ∧ ∀ m, 0 ≤ m < 60 → zero_pad_2 n = zero_pad_2 m → n = m.
Proof.
  intros Hn. pose proof zero_pad_2_table as Htable.
  rewrite forallb_forall in Htable.
  assert (In (Z.to_nat n) (seq 0 60)) as Hin by (apply in_seq; lia).
  apply Htable in Hin. rewrite Z2Nat.id in Hin; [|lia].
  apply andb_true_iff in Hin as [Hlen Hinj]. split; [by apply Nat.eqb_eq in Hlen|].
  intros m Hm Heq. rewrite forallb_forall in Hinj.
  assert (In (Z.to_nat m) (seq 0 60)) as Hin by (apply in_seq; lia).
  apply Hinj in Hin. rewrite Z2Nat.id in Hin; [|lia].
  rewrite Heq, String.eqb_refl in Hin. simpl in Hin.
  apply Nat.eqb_eq in Hin. lia.
Qed.

Lemma zero_pad_2_length (n : Z) :
  0 ≤ n < 60 → String.length (zero_pad_2 n) = 2%nat.
Proof. intros Hn. by destruct (zero_pad_2_row n Hn). Qed.

Lemma zero_pad_2_inj (n m : Z) :
  0 ≤ n < 60 → 0 ≤ m < 60 → zero_pad_2 n = zero_pad_2 m → n = m.
Proof. intros Hn Hm. destruct (zero_pad_2_row n Hn) as [_ Hinj]. by apply Hinj. Qed.

Lemma append_inj_length a1 a2 x y :
  String.length x = String.length y → a1 +:+ x = a2 +:+ y → a1 = a2 ∧ x = y.
Proof.
  revert a2. induction a1 as [|c a1 IH]; intros [|c' a2] Hlen Heq.
  - by rewrite !append_nil in Heq.
  - rewrite append_nil, append_cons in Heq. rewrite Heq in Hlen.
    simpl in Hlen. rewrite length_append in Hlen. lia.
  - rewrite append_nil, append_cons in Heq. rewrite <-Heq in Hlen.
    simpl in Hlen. rewrite length_append in Hlen. lia.
  - rewrite !append_cons in Heq. injection Heq as -> Heq.
    destruct (IH a2 Hlen Heq) as [-> ->]. done.
Qed.

(** X25. The text of a time label for a whole number of seconds, an
    [int] such as the length 100 that [play_music] falls back to: for every
    such time, negative or not, within the interpreter's limit on the
    decimal digits of an [int], [format_time] returns the minutes, a colon
    and the seconds of the minute; the seconds take exactly two characters,
    and the minutes are not padded and not limited to two digits.  Two
    such times get the same text only when they are equal.  (For a
    [float] the text follows the rounding of the float operations, see
    [format_time_examples].) *)
Theorem format_time_whole_seconds (z z' : Z) :
  Z.abs z < 10 ^ 4300 → Z.abs z' < 10 ^ 4300 →
  format_time (PyInt z)
  = Returned (pretty (z `div` 60) +:+ ":" +:+ zero_pad_2 (z `mod` 60))
  ∧ String.length (zero_pad_2 (z `mod` 60)) = 2%nat
  ∧ (format_time (PyInt z) = format_time (PyInt z') ↔ z = z').
Proof.
  intros _ _.
  pose proof (Z.mod_pos_bound z 60 ltac:(lia)) as Hr.
  pose proof (Z.mod_pos_bound z' 60 ltac:(lia)) as Hr'.
  split; [done|]. split; [by apply zero_pad_2_length|].
  split; [|by intros ->].
  intros Heq. injection Heq as Heq.
  apply append_inj_length in Heq as [Hmin Hsec].
  - apply (inj pretty) in Hmin. injection Hsec as Hsec.
    apply zero_pad_2_inj in Hsec; [|done..].
    rewrite (Z.div_mod z 60), (Z.div_mod z' 60); lia.
  - rewrite !append_cons, !append_nil. simpl.
    by rewrite !zero_pad_2_length.
Qed.

Lemma format_time_whole_seconds_witness :
  format_time (PyInt 100) = Returned "1:40"
  ∧ format_time (PyInt (-1)) = Returned "-1:59".
Proof.
  destruct (format_time_whole_seconds 100 100) as (H100 & _);
    [by vm_compute|by vm_compute|].
  destruct (format_time_whole_seconds (-1) (-1)) as (Hneg & _);
    [by vm_compute|by vm_compute|].
  split; [rewrite H100|rewrite Hneg]; by vm_compute.
Defined.

(** ** The now-playing labels *)

(** X26. [load_track_metadata] never raises and leaves the player object,
    the metadata cache included, as it was.  The three labels show the
    triple [get_track_info] returns for the path on an empty cache: the
    tags read from the file now, or the file name's stem with "Unknown
    Artist" and "Unknown Album" when reading fails; the cached entry the
    playlist was sorted by is not consulted. *)
Theorem labels_show_fresh_metadata (w : world) (p : string) (win : window) :
  ∃ info,
    (get_track_info w p (set_track_metadata ∅ (app win))).1 = Returned info
    ∧ load_track_metadata w p win
      = (Returned (), Window (app win) (title info) (artist info) (album info)).
Proof.
  exists (known_info w ∅ p). split; [by rewrite get_track_info_run|].
  unfold load_track_metadata, known_info. rewrite lookup_empty.
  rewrite extract_track_info_run. cbn [fst snd].
  by destruct (extract_track_info w p init_player).1.
Qed.

Example labels_ignore_cache :
  let win := Window demo_playing "No track" "Unknown Artist" "Unknown Album" in
  let w := {| MutagenFile := λ _, MutagenRaises;
              os_walk := os_walk demo_world;
              random_randint := random_randint demo_world;
              music_load_ok := music_load_ok demo_world;
              music_play_ok := music_play_ok demo_world;
              sound_get_length := sound_get_length demo_world;
              music_get_pos := music_get_pos demo_world |} in
  np_title_label (load_track_metadata w "/m/A.mp3" win).2 = "A"
  ∧ title <$> track_metadata demo_playing !! "/m/A.mp3" = Some "Zebra".
Proof. by vm_compute. Qed.

(** ** The rows of the list *)

Lemma drop_while_split p s :
  ∃ pre, s = pre +:+ drop_while p s ∧ all_chars p pre = true
         ∧ ((String.length (drop_while p s) < String.length s)%nat →
            pre ≠ EmptyString).
Proof.
  induction s as [|c s (pre & Hs & Hall & Hlen)]; simpl.
  - exists EmptyString. split; [done|]. split; [done|]. lia.
  - destruct (p c) eqn:Hc.
    + exists (String c pre). rewrite append_cons, <-Hs. simpl. by rewrite Hc, Hall.
    + exists EmptyString. split; [done|]. split; [done|]. simpl. lia.
Qed.

Lemma drop_while_all p a b :
  all_chars p a = true → drop_while p (a +:+ b) = drop_while p b.
Proof.
  induction a as [|c a IH]; [done|]. simpl.
  intros [Hc Ha]%andb_true_iff. rewrite ?append_cons. simpl. rewrite Hc. by apply IH.
Qed.

Lemma drop_while_stop p s : starts_with_class p s = false → drop_while p s = s.
Proof. destruct s as [|c s]; [done|]. simpl. by intros ->. Qed.

Lemma digit_not_sep c : is_numbering_sep c = true → is_digit c = false.
Proof. destruct c as [[] [] [] [] [] [] [] []]; by vm_compute. Qed.

Lemma append_assoc a b c : (a +:+ b) +:+ c = a +:+ b +:+ c.
Proof.
  induction a as [|x a IH]; [done|]. by rewrite !append_cons, IH.
Qed.

Lemma nonempty_length s : s ≠ EmptyString → (0 < String.length s)%nat.
Proof. destruct s; [done|]. simpl. lia. Qed.

(** X27. The name shown in a row: when the file name's stem starts with
    digits followed by dots, dashes or white space, a greedy match of
    [\d+[\.\-\s]+], the row shows what follows them; otherwise it
    shows the stem unchanged, so a stem of digits only, or one whose
    digits are not followed by a separator, is kept.  What is shown is
    always the end of the stem. *)
Theorem strip_numbering_spec (name : string) :
  (∀ digits seps rest,
     numbered name digits seps rest →
     starts_with_class is_numbering_sep rest = false →
     strip_numbering name = rest)
  ∧ ((∀ digits seps rest, ¬ numbered name digits seps rest) →
     strip_numbering name = name)
  ∧ ∃ pre, name = pre +:+ strip_numbering name.
Proof.
  split; [|split].
  - intros digits seps rest (-> & Hd & Hdigits & Hs & Hseps) Hrest.
    unfold strip_numbering. rewrite (drop_while_all _ _ _ Hdigits).
    assert (drop_while is_digit (seps +:+ rest) = seps +:+ rest) as ->.
    { apply drop_while_stop. destruct seps as [|c seps]; [done|].
      simpl in *. apply andb_true_iff in Hseps as [Hc _].
      by apply digit_not_sep. }
    rewrite (drop_while_all _ _ _ Hseps), (drop_while_stop _ _ Hrest).
    rewrite !length_append.
    pose proof (nonempty_length _ Hd). pose proof (nonempty_length _ Hs).
    assert ((String.length seps + String.length rest
             <? String.length digits + (String.length seps + String.length rest))%nat
            = true) as -> by (apply Nat.ltb_lt; lia).
    by assert ((String.length rest <? String.length seps + String.length rest)%nat
               = true) as -> by (apply Nat.ltb_lt; lia).
  - intros Hno. unfold strip_numbering.
    destruct (String.length (drop_while is_digit name) <? String.length name)%nat
      eqn:E1; [|done].
    destruct (String.length (drop_while is_numbering_sep (drop_while is_digit name))
              <? String.length (drop_while is_digit name))%nat eqn:E2; [|done].
    apply Nat.ltb_lt in E1, E2.
    destruct (drop_while_split is_digit name) as (digits & Hname & Hdigits & Hd).
    destruct (drop_while_split is_numbering_sep (drop_while is_digit name))
      as (seps & Hafter & Hseps & Hs).
    destruct (Hno digits seps
                (drop_while is_numbering_sep (drop_while is_digit name))).
    split; [by rewrite <-Hafter|]. by auto.
  - unfold strip_numbering.
    destruct (String.length (drop_while is_digit name) <? String.length name)%nat
      eqn:E1; [|by exists EmptyString].
    destruct (String.length (drop_while is_numbering_sep (drop_while is_digit name))
              <? String.length (drop_while is_digit name))%nat eqn:E2; [|by exists EmptyString].
    destruct (drop_while_split is_digit name) as (digits & Hname & _).
    destruct (drop_while_split is_numbering_sep (drop_while is_digit name))
      as (seps & Hafter & _).
    exists (digits +:+ seps). by rewrite append_assoc, <-Hafter.
Qed.

Lemma strip_numbering_spec_witness :
  strip_numbering "07 - Song" = "Song" ∧ strip_numbering "1999" = "1999".
Proof.
  destruct (strip_numbering_spec "07 - Song") as (Hstrip & _ & _).
  split; [|by vm_compute].
  apply (Hstrip "07" " - " "Song"); by vm_compute.
Defined.
